(** * vector-db-comparison: the benchmark execution engine

    A shallow embedding of the benchmark code of the repository
    (recall-benchmark.ts, throughput-benchmark.ts, upsert-benchmark.ts),
    of the code it reaches and that resembles it (the retry loop of
    embed.ts, the write path of backend-pinecone.ts and
    backend-supabase.ts, the reading loops of parse.ts and seed.ts), and
    the properties of its statistics, retry loops, checkpoint store,
    resumable sweep, query pool, batch loops and reports.

    Layout. The modules [JS], [Recall], [Embed], [Throughput], [Upsert],
    [ThroughputRun], [EmbedBatch], [Backends] and [Seed] hold the code,
    each function under its own name. The modules whose name ends in
    [Spec] hold what the statements are written with: the specification's
    own formulas, invariants, and the concrete services of the examples.
    The modules whose name ends in [Facts] hold the lemmas and theorems.

    Conventions. A function that can throw returns a [completion]; what a
    function does to the outside (the remote service, the clock, the
    checkpoint file, the calls it makes) is a world passed in and out; a
    loop whose termination is not structural takes a bound on its
    iterations and returns [None] when the bound is too small. In
    recall-benchmark.ts a Number is an IEEE double ([PrimFloat.float]),
    except [top_k] and [run], which are integers, and so are the
    suspensions of embed.ts; in throughput-benchmark.ts and for the times
    of upsert-benchmark.ts a Number is an exact rational. *)

From Stdlib Require Import ZArith QArith Qround Lia Lqa List Bool Ascii String.
From Stdlib Require Import Permutation Sorted.
From Stdlib Require Import Uint63 Floats.
From stdpp Require Import base tactics option list strings pretty sorting.
Import ListNotations.

#[local] Set Warnings "-inexact-float,-abstract-large-number".

Local Open Scope Z_scope.

(** ** The JavaScript runtime, as far as the benchmarks use it *)

Module JS.

(** What a [throw] carries. The benchmarks only ever inspect the optional
    [status] field of a rejected backend call; reading a property of
    [undefined] raises the runtime's own [TypeError]. *)
Inductive exn : Type :=
| TypeError
| HttpError (status : option Z).

(** A computation that returns or throws. *)
Inductive completion (A : Type) : Type :=
| Return (a : A)
| Throw (e : exn).
Arguments Return {A} a.
Arguments Throw {A} e.

(** [Array.prototype.sort(comparefn)]: a stable sort. [after a b] is
    [comparefn(a, b) > 0], the one answer that moves [a] behind [b]; a
    comparator result of [NaN] counts as [+0], so it is [false] there. *)
Section Sort.
Context {A : Type} (after : A -> A -> bool).

Fixpoint sort_insert (x : A) (l : list A) : list A :=
  match l with
  | [] => [x]
  | y :: l' => if after x y then y :: sort_insert x l' else x :: y :: l'
  end.

Definition sort (l : list A) : list A := fold_right sort_insert [] l.
End Sort.

(** An array length (or any small non-negative integer) as a Number. *)
Definition Number_of_nat (n : nat) : float :=
  PrimFloat.of_uint63 (Uint63.of_Z (Z.of_nat n)).

(** [Math.min(...xs)] and [Math.max(...xs)] on Numbers: [NaN] is
    contagious, [-0] is below [+0], and the empty call returns the
    neutral infinity. *)
Definition is_neg_zero (x : float) : bool :=
  match PrimFloat.classify x with NZero => true | _ => false end.

Definition min2 (a b : float) : float :=
  if PrimFloat.is_nan a || PrimFloat.is_nan b then PrimFloat.nan
  else if PrimFloat.ltb a b then a
  else if PrimFloat.ltb b a then b
  else if is_neg_zero a then a else b.

Definition max2 (a b : float) : float :=
  if PrimFloat.is_nan a || PrimFloat.is_nan b then PrimFloat.nan
  else if PrimFloat.ltb a b then b
  else if PrimFloat.ltb b a then a
  else if is_neg_zero a then b else a.

Definition Math_min (xs : list float) : float :=
  fold_left min2 xs PrimFloat.infinity.
Definition Math_max (xs : list float) : float :=
  fold_left max2 xs PrimFloat.neg_infinity.

End JS.

(** ** recall-benchmark.ts *)

Module Recall.
Import JS.

Definition DEFAULT_TOP_K_VALUES : list Z := [1; 5; 10; 20; 50; 100].
Definition DEFAULT_NUM : Z := 20.
Definition DEFAULT_RUNS : nat := 20.
Definition DELAY_MS : Z := 150.
Definition MAX_RETRIES : nat := 3.
Definition RETRY_BASE_MS : Z := 1000.

Record RecallRun : Type := mkRecallRun {
  namespace : string;
  top_k : Z;
  run : nat;
  avg_recall : float;
  avg_ann_count : float;
  avg_exhaustive_count : float;
  latency_ms : float
}.

Record RecallStats : Type := mkRecallStats {
  recall_mean : float;
  recall_std : float;
  ci95_lower : float;
  ci95_upper : float;
  recall_min : float;
  recall_max : float;
  recall_median : float
}.

Record ConfigSummary : Type := mkConfigSummary {
  s_namespace : string;
  s_top_k : Z;
  s_runs : nat;
  s_recall : RecallStats;
  s_avg_ann_count : float * float;          (* mean, std *)
  s_avg_exhaustive_count : float * float;   (* mean, std *)
  s_latency_ms : float * float * float      (* mean, std, median *)
}.

Section Statistics.
Local Open Scope float_scope.

(** [values.reduce((a, b) => a + b, 0) / values.length] *)
Definition mean (values : list float) : float :=
  fold_left PrimFloat.add values 0 / Number_of_nat (length values).

(** [(v - m) ** 2]: an integer exponent is evaluated by multiplication. *)
Definition sq (x : float) : float := x * x.

Definition std (values : list float) : float :=
  let m := mean values in
  let variance :=
    fold_left (fun sum v => sum + sq (v - m)) values 0
    / (Number_of_nat (length values) - 1) in
  PrimFloat.sqrt variance.

(** [sorted[i]] read as a Number: a hole reads [undefined], which
    arithmetic turns into [NaN]. *)
Definition at_index (sorted : list float) (i : nat) : float :=
  nth i sorted PrimFloat.nan.

(** For an empty array [mid - 1] is [-1], a hole like index [0] there. *)
Definition median (values : list float) : float :=
  let sorted := sort (fun a b => 0 <? a - b) values in
  let mid := Nat.div (length sorted) 2 in
  if negb (Nat.eqb (Nat.modulo (length sorted) 2) 0)
  then at_index sorted mid
  else (at_index sorted (mid - 1) + at_index sorted mid) / 2.

Definition ci95 (values : list float) : float * float :=
  let m := mean values in
  let se := std values / PrimFloat.sqrt (Number_of_nat (length values)) in
  let t := if (30 <=? length values)%nat then 1.96 else 2.093 in
  (m - t * se, m + t * se).
End Statistics.

(** [runs[0].namespace] on an empty array reads a property of [undefined]:
    the object literal is never built and a [TypeError] is thrown. *)
Definition summarize (runs : list RecallRun) : completion ConfigSummary :=
  let recalls := map avg_recall runs in
  let annCounts := map avg_ann_count runs in
  let exhCounts := map avg_exhaustive_count runs in
  let latencies := map latency_ms runs in
  let '(ci_lower, ci_upper) := ci95 recalls in
  match runs with
  | [] => Throw TypeError
  | r0 :: _ =>
      Return {|
        s_namespace := namespace r0;
        s_top_k := top_k r0;
        s_runs := length runs;
        s_recall := {|
          recall_mean := mean recalls;
          recall_std := std recalls;
          ci95_lower := ci_lower;
          ci95_upper := ci_upper;
          recall_min := Math_min recalls;
          recall_max := Math_max recalls;
          recall_median := median recalls |};
        s_avg_ann_count := (mean annCounts, std annCounts);
        s_avg_exhaustive_count := (mean exhCounts, std exhCounts);
        s_latency_ms := (mean latencies, std latencies, median latencies) |}
  end.

(** *** The checkpoint file *)

Record Checkpoint : Type := mkCheckpoint {
  raw_runs : list RecallRun;
  completedConfigs : list string   (* "namespace:top_k" keys *)
}.

Definition empty_checkpoint : Checkpoint :=
  {| raw_runs := []; completedConfigs := [] |}.

(** [JSON.stringify] of a Number: [NaN] and the infinities are written as
    [null] ([None]), negative zero as [0], any other Number as a decimal
    text that parses back to the same Number. *)
Definition JSON_number (x : float) : option float :=
  match PrimFloat.classify x with
  | NaN | PInf | NInf => None
  | NZero => Some PrimFloat.zero
  | _ => Some x
  end.

(** A run as it stands in a JSON document. *)
Record RunJson : Type := mkRunJson {
  j_namespace : string;
  j_top_k : Z;
  j_run : nat;
  j_avg_recall : option float;
  j_avg_ann_count : option float;
  j_avg_exhaustive_count : option float;
  j_latency_ms : option float
}.

Definition run_to_json (r : RecallRun) : RunJson :=
  {| j_namespace := namespace r;
     j_top_k := top_k r;
     j_run := run r;
     j_avg_recall := JSON_number (avg_recall r);
     j_avg_ann_count := JSON_number (avg_ann_count r);
     j_avg_exhaustive_count := JSON_number (avg_exhaustive_count r);
     j_latency_ms := JSON_number (latency_ms r) |}.

(** A [null] read back where the program expects a Number: every use the
    program makes of these four fields is arithmetic, and there [null]
    converts to [+0]. *)
Definition number_of_json (x : option float) : float :=
  match x with Some v => v | None => PrimFloat.zero end.

Definition run_of_json (j : RunJson) : RecallRun :=
  {| namespace := j_namespace j;
     top_k := j_top_k j;
     run := j_run j;
     avg_recall := number_of_json (j_avg_recall j);
     avg_ann_count := number_of_json (j_avg_ann_count j);
     avg_exhaustive_count := number_of_json (j_avg_exhaustive_count j);
     latency_ms := number_of_json (j_latency_ms j) |}.

(** What [JSON.parse] returns for a well-formed text, as far as
    [loadCheckpoint] looks at it: [null] (reading a property of it throws)
    or a value whose two properties are each absent or present; a present
    property is taken to have its declared type (the TypeScript cast). *)
Inductive json_doc : Type :=
| JNull
| JData (j_raw_runs : option (list RunJson))
        (j_completedConfigs : option (list string)).

(** The file at [CHECKPOINT_PATH]: absent ([existsSync] is false), present
    but unreadable ([readFileSync] throws), or a text, which is malformed
    ([JSON.parse] throws, [None]) or denotes a document. *)
Inductive file_state : Type :=
| Absent
| Unreadable
| Text (doc : option json_doc).

Definition JSON_stringify (c : Checkpoint) : json_doc :=
  JData (Some (map run_to_json (raw_runs c))) (Some (completedConfigs c)).

(** [data.raw_runs ?? []] and [data.completedConfigs ?? []]; whatever the
    [try] block throws is swallowed by the empty [catch]. *)
Definition loadCheckpoint (f : file_state) : Checkpoint :=
  match f with
  | Text (Some (JData rr cc)) =>
      {| raw_runs := map run_of_json (default [] rr);
         completedConfigs := default [] cc |}
  | Text (Some JNull) | Text None | Unreadable | Absent => empty_checkpoint
  end.

(** [Bun.write(CHECKPOINT_PATH, JSON.stringify(checkpoint))]: the file is
    overwritten whole; making the directory and writing are taken to
    succeed. *)
Definition saveCheckpoint (c : Checkpoint) (f : file_state) : file_state :=
  Text (Some (JSON_stringify c)).

(** [unlinkSync(CHECKPOINT_PATH)], a failure swallowed. *)
Definition removeCheckpoint (f : file_state) : file_state := Absent.

(** [`${namespace}:${top_k}`] *)
Definition configKey (ns : string) (k : Z) : string :=
  ns +:+ ":" +:+ pretty k.

(** *** A [Set] of strings: its elements in insertion order *)

Definition Set_has (s : list string) (k : string) : bool :=
  bool_decide (k ∈ s).
Definition Set_add (s : list string) (k : string) : list string :=
  if Set_has s k then s else s ++ [k].
Definition Set_new (l : list string) : list string :=
  fold_left Set_add l [].

(** *** The sweep *)

Record RecallResponse : Type := mkRecallResponse {
  r_avg_recall : float;
  r_avg_ann_count : float;
  r_avg_exhaustive_count : float
}.

(** One [await ns.recall(...)]: it resolves or it rejects. *)
Inductive probe_outcome : Type :=
| Resolved (r : RecallResponse)
| Rejected (e : exn).

Record BenchmarkOptions : Type := mkOptions {
  o_runs : option nat;
  o_num : option Z;
  o_topK : option (list Z);
  o_namespaces : option (list string)
}.

Record Metadata : Type := mkMetadata {
  m_num : Z;
  m_runs_per_config : nat;
  m_top_k_values : list Z;
  m_namespaces : list string;
  m_total_calls : nat
}.

Record BenchmarkResult : Type := mkBenchmarkResult {
  b_metadata : Metadata;
  b_raw_runs : list RecallRun;
  b_summaries : list ConfigSummary
}.

(** download.ts *)
Definition NAMESPACES : list string :=
  ["wiki-openai"; "wiki-minilm"; "wiki-gte"; "wiki-3-small"; "wiki-3-large"]%string.

(** [Math.round]: the nearest integer, a tie going up; a negative Number
    that rounds to zero gives [-0]. *)
Definition Math_round (x : float) : float :=
  match Prim2SF x with
  | S754_finite s m e =>
      if 0 <=? e then x
      else
        let num := (if s then - Z.pos m else Z.pos m) * 2 + 2 ^ (- e) in
        let n := num / 2 ^ (1 - e) in
        let a := PrimFloat.of_uint63 (Uint63.of_Z (Z.abs n)) in
        if s then PrimFloat.opp a else a
  | _ => x
  end.

Section Sweep.
(** The service behind [tpuf.namespace(namespace).recall] and the clock:
    a state [B], what a call with [num] and [top_k] does to it, what a
    suspension of so many milliseconds does to it, and what
    [performance.now()] reads in it. *)
Context {B : Type}.
Variable recall_api : B -> string -> Z -> Z -> probe_outcome * B.
Variable elapse : Z -> B -> B.
Variable performance_now : B -> float.

(** Everything outside the function: the service, the log of the probes
    issued [(namespace, top_k)] and of the [sleep]s taken, oldest first,
    the checkpoint file and the result file. *)
Record World : Type := mkWorld {
  backend : B;
  probes : list (string * Z);
  sleeps : list Z;
  file : file_state;
  output : option BenchmarkResult
}.

Definition sleep (ms : Z) (w : World) : World :=
  {| backend := elapse ms (backend w); probes := probes w;
     sleeps := sleeps w ++ [ms]; file := file w; output := output w |}.

Definition call_recall (ns : string) (num k : Z) (w : World)
  : probe_outcome * World :=
  let '(out, b) := recall_api (backend w) ns num k in
  (out, {| backend := b; probes := probes w ++ [(ns, k)]; sleeps := sleeps w;
           file := file w; output := output w |}).

Definition set_file (f : file_state) (w : World) : World :=
  {| backend := backend w; probes := probes w; sleeps := sleeps w;
     file := f; output := output w |}.

Definition set_output (r : BenchmarkResult) (w : World) : World :=
  {| backend := backend w; probes := probes w; sleeps := sleeps w;
     file := file w; output := Some r |}.

Definition status (e : exn) : option Z :=
  match e with HttpError s => s | TypeError => None end.

(** [err.status !== undefined && err.status >= 500] *)
Definition isRetryable (e : exn) : bool :=
  match status e with Some s => 500 <=? s | None => false end.

(** The [while (true)] loop around one probe, from the given value of
    [attempt]; [fuel] bounds the number of iterations ([None]: the bound
    was too small). *)
Fixpoint retry_loop (fuel : nat) (ns : string) (num k : Z) (attempt : nat)
    (w : World) : option (completion (RecallResponse * float) * World) :=
  match fuel with
  | O => None
  | S fuel' =>
      let start := performance_now (backend w) in
      match call_recall ns num k w with
      | (Resolved result, w1) =>
          let latency := (performance_now (backend w1) - start)%float in
          Some (Return (result, latency), w1)
      | (Rejected e, w1) =>
          if isRetryable e && (attempt <? MAX_RETRIES)%nat then
            let attempt := S attempt in
            let backoff := RETRY_BASE_MS * 2 ^ (Z.of_nat attempt - 1) in
            retry_loop fuel' ns num k attempt (sleep backoff w1)
          else Some (Throw e, w1)
      end
  end.

(** The loop as [runRecallBenchmark] enters it, [attempt = 0]: it makes at
    most [MAX_RETRIES + 1] calls ([retry_loop_fuel] below), so the default
    branch is never taken. *)
Definition recall_with_retry (ns : string) (num k : Z) (w : World)
  : completion (RecallResponse * float) * World :=
  match retry_loop (S MAX_RETRIES) ns num k 0 w with
  | Some r => r
  | None => (Throw TypeError, w)
  end.

Record progress : Type := mkProgress {
  rawRuns : list RecallRun;
  completed : nat
}.

(** [for (let run = ...; run < runs; run++)], with [remaining = runs - run]. *)
Fixpoint run_loop (remaining run : nat) (ns : string) (num k : Z)
    (totalCalls : nat) (p : progress) (w : World)
  : completion progress * World :=
  match remaining with
  | O => (Return p, w)
  | S remaining' =>
      let completed := S (completed p) in
      match recall_with_retry ns num k w with
      | (Throw e, w1) => (Throw e, w1)
      | (Return (result, latency), w1) =>
          let rawRuns := rawRuns p ++ [
            {| namespace := ns;
               top_k := k;
               run := run + 1;
               avg_recall := r_avg_recall result;
               avg_ann_count := r_avg_ann_count result;
               avg_exhaustive_count := r_avg_exhaustive_count result;
               latency_ms := Math_round latency |} ] in
          let w2 := if (completed <? totalCalls)%nat
                    then sleep DELAY_MS w1 else w1 in
          run_loop remaining' (S run) ns num k totalCalls
            {| rawRuns := rawRuns; completed := completed |} w2
      end
  end.

(** The state the two outer loops carry. *)
Record sweep_state : Type := mkSweep {
  sw_progress : progress;
  sw_completedConfigs : list string
}.

(** [for (const top_k of topKValues)] inside one namespace. *)
Fixpoint topk_loop (topKValues : list Z) (ns : string) (num : Z)
    (runs totalCalls : nat) (st : sweep_state) (w : World)
  : completion sweep_state * World :=
  match topKValues with
  | [] => (Return st, w)
  | k :: rest =>
      let key := configKey ns k in
      if Set_has (sw_completedConfigs st) key then
        topk_loop rest ns num runs totalCalls st w
      else
        match run_loop runs 0 ns num k totalCalls (sw_progress st) w with
        | (Throw e, w1) => (Throw e, w1)
        | (Return p, w1) =>
            let cc := Set_add (sw_completedConfigs st) key in
            let w2 := set_file
              (saveCheckpoint {| raw_runs := rawRuns p;
                                 completedConfigs := cc |} (file w1)) w1 in
            topk_loop rest ns num runs totalCalls
              {| sw_progress := p; sw_completedConfigs := cc |} w2
        end
  end.

(** [for (const namespace of namespaces)] *)
Fixpoint namespace_loop (namespaces : list string) (topKValues : list Z)
    (num : Z) (runs totalCalls : nat) (st : sweep_state) (w : World)
  : completion sweep_state * World :=
  match namespaces with
  | [] => (Return st, w)
  | ns :: rest =>
      match topk_loop topKValues ns num runs totalCalls st w with
      | (Throw e, w1) => (Throw e, w1)
      | (Return st1, w1) =>
          namespace_loop rest topKValues num runs totalCalls st1 w1
      end
  end.

(** [rawRuns.filter((r) => r.namespace === namespace && r.top_k === top_k)] *)
Definition configRuns (rawRuns : list RecallRun) (ns : string) (k : Z)
  : list RecallRun :=
  filter (fun r => namespace r = ns /\ top_k r = k) rawRuns.

(** The summary loops: [summaries.push(summarize(configRuns))] for every
    pair, in order; the first throw ends them. *)
Fixpoint summaries_loop (configs : list (string * Z))
    (rawRuns : list RecallRun) (summaries : list ConfigSummary)
  : completion (list ConfigSummary) :=
  match configs with
  | [] => Return summaries
  | (ns, k) :: rest =>
      match summarize (configRuns rawRuns ns k) with
      | Throw e => Throw e
      | Return s => summaries_loop rest rawRuns (summaries ++ [s])
      end
  end.

(** [runRecallBenchmark] down to the end of the measuring loops: the
    runs gathered, those of the checkpoint first. *)
Definition measure (options : BenchmarkOptions) (w : World)
  : completion (list RecallRun) * World :=
  let runs := default DEFAULT_RUNS (o_runs options) in
  let num := default DEFAULT_NUM (o_num options) in
  let topKValues := default DEFAULT_TOP_K_VALUES (o_topK options) in
  let namespaces := default NAMESPACES (o_namespaces options) in
  let totalConfigs := (length namespaces * length topKValues)%nat in
  let totalCalls := (totalConfigs * runs)%nat in
  let checkpoint := loadCheckpoint (file w) in
  let skippedConfigs := length (completedConfigs checkpoint) in
  let st := {| sw_progress := {| rawRuns := raw_runs checkpoint;
                                 completed := (skippedConfigs * runs)%nat |};
               sw_completedConfigs := Set_new (completedConfigs checkpoint) |} in
  match namespace_loop namespaces topKValues num runs totalCalls st w with
  | (Throw e, w1) => (Throw e, w1)
  | (Return st1, w1) => (Return (rawRuns (sw_progress st1)), w1)
  end.

(** The whole function: the measuring loops, the summaries, the result
    file, and the removal of the checkpoint. *)
Definition runRecallBenchmark (options : BenchmarkOptions) (w : World)
  : completion unit * World :=
  let runs := default DEFAULT_RUNS (o_runs options) in
  let num := default DEFAULT_NUM (o_num options) in
  let topKValues := default DEFAULT_TOP_K_VALUES (o_topK options) in
  let namespaces := default NAMESPACES (o_namespaces options) in
  let totalConfigs := (length namespaces * length topKValues)%nat in
  let totalCalls := (totalConfigs * runs)%nat in
  match measure options w with
  | (Throw e, w1) => (Throw e, w1)
  | (Return rawRuns, w1) =>
      match summaries_loop (list_prod namespaces topKValues) rawRuns [] with
      | Throw e => (Throw e, w1)
      | Return summaries =>
          let benchmarkResult :=
            {| b_metadata := {| m_num := num;
                                m_runs_per_config := runs;
                                m_top_k_values := topKValues;
                                m_namespaces := namespaces;
                                m_total_calls := totalCalls |};
               b_raw_runs := rawRuns;
               b_summaries := summaries |} in
          let w2 := set_output benchmarkResult w1 in
          (Return tt, set_file (removeCheckpoint (file w2)) w2)
      end
  end.

End Sweep.

End Recall.

(** ** embed.ts

    Of [embedBatchWithRetry], the sibling of the retry loop above, only the
    classification of a caught error. *)

Module Embed.
Import JS.

(** [err.status === 429 || (err.status !== undefined && err.status >= 500)] *)
Definition isRetryable (e : exn) : bool :=
  match Recall.status e with
  | Some s => (s =? 429) || (500 <=? s)
  | None => false
  end.

End Embed.

(** ** throughput-benchmark.ts

    Times are exact rationals here: what is proved of this file is about
    order and rank, not about rounding. *)

Module Throughput.
Import JS.

Local Open Scope Q_scope.

(** [(a, b) => a - b], asked whether it is positive. *)
Definition after (a b : Q) : bool := negb (Qle_bool (a - b) 0).

(** [sorted[Math.max(0, idx)]]; past the end the read gives [undefined]
    ([None]). *)
Definition percentile (arr : list Q) (p : Q) : option Q :=
  let sorted := sort after arr in
  let idx := (Qceiling ((p / 100) * inject_Z (Z.of_nat (length sorted))) - 1)%Z in
  nth_error sorted (Z.to_nat (Z.max 0 idx)).

Definition mean (arr : list Q) : Q :=
  if Nat.eqb (length arr) 0 then 0
  else fold_left Qplus arr 0 / inject_Z (Z.of_nat (length arr)).

(** *** The query pool of [benchmarkNamespace]

    [runQuery] runs without interruption from one [await] to the next, so
    a worker is either suspended at [await ns.query(...)], holding the
    index it claimed, or has left its loop. *)
Inductive worker : Type :=
| Awaiting (queryIndex : nat)
| Finished.

Record pool : Type := mkPool {
  latencies : list Q;
  errors : nat;
  activeCount : nat;
  completedCount : nat;
  workers : list worker;
  claims : list (nat * nat)   (* (worker, queryIndex), oldest first *)
}.

(** [runQuery] as worker [wid] runs it from the [while] test to the next
    [await]: it claims the next index and issues its query, or leaves the
    loop. The [break] after the claim is dead code: nothing runs between
    the test and the increment. *)
Definition runQuery (totalQueries : nat) (wid : nat) (st : pool) : pool :=
  if (completedCount st <? totalQueries)%nat then
    let queryIndex := completedCount st in
    {| latencies := latencies st;
       errors := errors st;
       activeCount := S (activeCount st);
       completedCount := S (completedCount st);
       workers := <[wid := Awaiting queryIndex]> (workers st);
       claims := claims st ++ [(wid, queryIndex)] |}
  else
    {| latencies := latencies st;
       errors := errors st;
       activeCount := activeCount st;
       completedCount := completedCount st;
       workers := <[wid := Finished]> (workers st);
       claims := claims st |}.

(** [Array(concurrency).fill(null).map(() => runQuery())]: each worker in
    turn runs up to its first [await], before any query can settle. (The
    slot of a worker not yet started is written when it starts.) *)
Definition start (totalQueries concurrency : nat) : pool :=
  fold_left (fun st wid => runQuery totalQueries wid st)
    (seq 0 concurrency)
    {| latencies := []; errors := 0; activeCount := 0; completedCount := 0;
       workers := replicate concurrency Finished; claims := [] |}.

(** The query of worker [wid] settles: it resolved after [latency]
    milliseconds ([Some]) or it rejected ([None]). *)
Definition event : Type := (nat * option Q)%type.

(** The continuation of the settled [await], down to the next one. *)
Definition step (totalQueries : nat) (st : pool) (ev : event) : option pool :=
  let '(wid, outcome) := ev in
  match workers st !! wid with
  | Some (Awaiting _) =>
      let st1 :=
        {| latencies := match outcome with
                        | Some l => latencies st ++ [l]
                        | None => latencies st
                        end;
           errors := match outcome with
                     | Some _ => errors st
                     | None => S (errors st)
                     end;
           activeCount := pred (activeCount st);
           completedCount := completedCount st;
           workers := workers st;
           claims := claims st |} in
      Some (runQuery totalQueries wid st1)
  | _ => None
  end.

Fixpoint steps (totalQueries : nat) (st : pool) (evs : list event)
  : option pool :=
  match evs with
  | [] => Some st
  | ev :: evs' =>
      match step totalQueries st ev with
      | Some st' => steps totalQueries st' evs'
      | None => None
      end
  end.

(** The pool under a schedule of settlements; [None] when the schedule
    settles a query that is not pending. *)
Definition run_pool (totalQueries concurrency : nat) (evs : list event)
  : option pool :=
  steps totalQueries (start totalQueries concurrency) evs.

(** [await Promise.all(workers)] has resolved. *)
Definition resolved (st : pool) : bool :=
  forallb (fun w => match w with Finished => true | Awaiting _ => false end)
    (workers st).

End Throughput.

(** ** upsert-benchmark.ts *)

Module Upsert.
Import JS.

Definition DEFAULT_TOTAL_RECORDS : nat := 10000.
Definition DEFAULT_BATCH_SIZE : nat := 256.

Record WikiRecord : Type := mkWikiRecord {
  id : string;
  title : string;
  text : string;
  vector : list float
}.

Definition percentile := Throughput.percentile.
Definition mean := Throughput.mean.

Definition DIMENSION_MAP (namespace : string) : option nat :=
  if String.eqb namespace "wiki-openai" then Some 1536%nat
  else if String.eqb namespace "wiki-minilm" then Some 384%nat
  else if String.eqb namespace "wiki-gte" then Some 384%nat
  else if String.eqb namespace "wiki-3-small" then Some 512%nat
  else if String.eqb namespace "wiki-3-large" then Some 1024%nat
  else None.

Section Generate.
(** [Math.random()] as drawn for component [j] of record [i], and
    [Date.now()] as read for record [i]. *)
Variable random : nat -> nat -> float.
Variable Date_now : nat -> Z.

Definition synthetic_vector (dimensions i : nat) : list float :=
  let vector := map (fun j => (random i j * 2 - 1)%float) (seq 0 dimensions) in
  let norm := PrimFloat.sqrt
    (fold_left (fun sum v => (sum + v * v)%float) vector 0%float) in
  map (fun v => (v / norm)%float) vector.

Definition synthetic_record (dimensions i : nat) : WikiRecord :=
  {| id := "benchmark-" +:+ pretty (Date_now i) +:+ "-" +:+ pretty i;
     title := "Benchmark Document " +:+ pretty i;
     text := "This is synthetic benchmark document number " +:+ pretty i
       +:+ ". It contains some text for testing upsert performance. The content is meaningless but ensures we're testing realistic document sizes with typical metadata. Lorem ipsum dolor sit amet, consectetur adipiscing elit.";
     vector := synthetic_vector dimensions i |}.

(** A namespace outside [DIMENSION_MAP] (the type [Namespace] excludes
    it) would make [new Array(undefined)] an array of one element. *)
Definition generateSyntheticRecords (namespace : string) (count : nat)
  : list WikiRecord :=
  let dimensions := default 1%nat (DIMENSION_MAP namespace) in
  map (synthetic_record dimensions) (seq 0 count).
End Generate.

Record UpsertBenchmarkOptions : Type := mkOptions {
  o_namespace : string;
  o_totalRecords : option nat;
  o_batchSize : option nat
}.

Record UpsertResult : Type := mkUpsertResult {
  total_records : nat;
  batch_size : nat;
  num_batches : nat;
  duration_seconds : Q;
  records_per_second : Q;
  batch_latencies_ms : list Q;
  avg_batch_latency_ms : Q;
  p95_batch_latency_ms : option Q
}.

(** What the write path sees, oldest first: a call begins with its batch
    and its flag, and settles. *)
Inductive upsert_event : Type :=
| Begin (batch : list WikiRecord) (isFirstBatch : bool)
| Settle.

Section Benchmark.
Variable random : nat -> nat -> float.
Variable Date_now : nat -> Z.
(** The backend behind [ensureNamespace] and [ns.upsert], and the clock. *)
Context {B : Type}.
Variable ensureNamespace : B -> string -> completion unit * B.
Variable upsert_api : B -> list WikiRecord -> bool -> completion unit * B.
Variable performance_now : B -> Q.

Record World : Type := mkWorld {
  backend : B;
  trace : list upsert_event
}.

(** [await ns.upsert(batch, { isFirstBatch })] *)
Definition call_upsert (batch : list WikiRecord) (isFirstBatch : bool)
    (w : World) : completion unit * World :=
  let '(out, b) := upsert_api (backend w) batch isFirstBatch in
  (out, {| backend := b;
           trace := trace w ++ [Begin batch isFirstBatch; Settle] |}).

(** [for (let i = ...; i < records.length; i += batchSize)], from the
    given [i]; [fuel] bounds the number of iterations ([None]: the bound
    was too small). *)
Fixpoint batch_loop (fuel : nat) (records : list WikiRecord)
    (batchSize i : nat) (batchLatencies : list Q) (w : World)
  : option (completion (list Q) * World) :=
  match fuel with
  | O => None
  | S fuel' =>
      if (i <? length records)%nat then
        let batch := firstn batchSize (skipn i records) in
        let batchStart := performance_now (backend w) in
        match call_upsert batch (Nat.eqb i 0) w with
        | (Throw e, w1) => Some (Throw e, w1)
        | (Return _, w1) =>
            let batchEnd := performance_now (backend w1) in
            let batchLatency := (batchEnd - batchStart)%Q in
            batch_loop fuel' records batchSize (i + batchSize)
              (batchLatencies ++ [batchLatency]) w1
        end
      else Some (Return batchLatencies, w)
  end.

(** [Math.ceil(records.length / batchSize)], for a positive [batchSize]. *)
Definition ceil_div (n d : nat) : nat := Nat.div (n + d - 1) d.

Definition runUpsertBenchmark (fuel : nat) (options : UpsertBenchmarkOptions)
    (w : World) : option (completion UpsertResult * World) :=
  let totalRecords := default DEFAULT_TOTAL_RECORDS (o_totalRecords options) in
  let batchSize := default DEFAULT_BATCH_SIZE (o_batchSize options) in
  let namespace := o_namespace options in
  let records := generateSyntheticRecords random Date_now namespace totalRecords in
  match ensureNamespace (backend w) namespace with
  | (Throw e, b) => Some (Throw e, {| backend := b; trace := trace w |})
  | (Return _, b) =>
  let w := {| backend := b; trace := trace w |} in
  let numBatches := ceil_div (length records) batchSize in
  let startTime := performance_now (backend w) in
  match batch_loop fuel records batchSize 0 [] w with
  | None => None
  | Some (Throw e, w1) => Some (Throw e, w1)
  | Some (Return batchLatencies, w1) =>
      let endTime := performance_now (backend w1) in
      let durationSeconds := ((endTime - startTime) / 1000)%Q in
      Some (Return
        {| total_records := totalRecords;
           batch_size := batchSize;
           num_batches := numBatches;
           duration_seconds := durationSeconds;
           records_per_second :=
             (inject_Z (Z.of_nat totalRecords) / durationSeconds)%Q;
           batch_latencies_ms := batchLatencies;
           avg_batch_latency_ms := mean batchLatencies;
           p95_batch_latency_ms := percentile batchLatencies 95 |}, w1)
  end
  end.

End Benchmark.

End Upsert.

(** ** throughput-benchmark.ts, around the pool

    [getRandomVector], [benchmarkNamespace] and the loop of
    [runThroughputBenchmark]. A namespace handle is the namespace's name:
    [backend.namespace(namespace)] only builds the handle. *)

Module ThroughputRun.
Import JS Throughput.

Definition DEFAULT_TOTAL_QUERIES : nat := 500.
Definition DEFAULT_TOP_K : Z := 10.
Definition DEFAULT_CONCURRENCY : nat := 10.
Definition DEFAULT_WARMUP_QUERIES : nat := 20.

(** [NAMESPACES] of download.ts. *)
Definition NAMESPACES : list string := Recall.NAMESPACES.

Record ThroughputBenchmarkOptions : Type := mkOptions {
  o_backendName : string;
  o_namespaces : option (list string);
  o_totalQueries : option nat;
  o_topK : option Z;
  o_concurrency : option nat;
  o_warmupQueries : option nat
}.

(** For a run that took no time, [qps] is not a rational (the quotient
    is [Infinity] or [NaN]); it is 0 here, and nothing below relies on it
    in that case. *)
Record ThroughputResult : Type := mkResult {
  t_backend : string;
  t_namespace : string;
  dimensions : nat;
  concurrency : nat;
  total_queries : nat;
  duration_seconds : Q;
  qps : Q;
  avg_latency_ms : Q;
  p50_latency_ms : option Q;
  p95_latency_ms : option Q;
  p99_latency_ms : option Q;
  t_errors : nat
}.

Definition DIMENSION_MAP (namespace : string) : option nat :=
  if String.eqb namespace "wiki-openai" then Some 1536%nat
  else if String.eqb namespace "wiki-minilm" then Some 384%nat
  else if String.eqb namespace "wiki-gte" then Some 384%nat
  else if String.eqb namespace "wiki-3-small" then Some 512%nat
  else if String.eqb namespace "wiki-3-large" then Some 1024%nat
  else None.

(** The argument of [ns.query] and an element of its result
    (backend.ts). *)
Record QueryParams : Type := mkParams {
  q_vector : list float;
  q_topK : Z;
  q_includeVector : option bool
}.

Record VectorQueryResult : Type := mkHit {
  h_id : string;
  h_score : float;
  h_title : string;
  h_text : string;
  h_vector : option (list float)
}.

Record Sample : Type := mkSample {
  s_vector : list float;
  s_id : string
}.

(** What the backend sees, oldest first. *)
Inductive call : Type :=
| Stats (namespace : string)
| Query (namespace : string) (params : QueryParams).

(** What happens while the pool runs is not the function's doing: which
    query settles next and how, and the time the whole took on the
    clock. *)
Record Schedule : Type := mkSchedule {
  settlements : list event;
  elapsed_ms : Q
}.

Section Namespace.
(** The backend behind [ns.stats] and [ns.query], and [Math.random()] as
    its draws are numbered. *)
Context {B : Type}.
Variable stats_api : B -> string -> completion Z * B.
Variable query_api :
  B -> string -> QueryParams -> completion (list VectorQueryResult) * B.
Variable random : nat -> float.

Record World : Type := mkWorld {
  backend : B;
  draws : nat;
  log : list call
}.

Definition call_stats (namespace : string) (w : World)
  : completion Z * World :=
  let '(out, b) := stats_api (backend w) namespace in
  (out, {| backend := b; draws := draws w;
           log := log w ++ [Stats namespace] |}).

Definition call_query (namespace : string) (params : QueryParams) (w : World)
  : completion (list VectorQueryResult) * World :=
  let '(out, b) := query_api (backend w) namespace params in
  (out, {| backend := b; draws := draws w;
           log := log w ++ [Query namespace params] |}).

Definition generateRandomVector (dimensions : nat) (w : World)
  : list float * World :=
  let vector :=
    map (fun j => (random (draws w + j) * 2 - 1)%float) (seq 0 dimensions) in
  let norm := PrimFloat.sqrt
    (fold_left (fun sum v => (sum + v * v)%float) vector 0%float) in
  (map (fun v => (v / norm)%float) vector,
   {| backend := backend w; draws := (draws w + dimensions)%nat;
      log := log w |}).

(** The [try] swallows every rejection, so the function returns [null]
    ([None]) or a sample and never throws. A namespace outside
    [DIMENSION_MAP] would make [new Array(undefined)] an array of one
    element. *)
Definition getRandomVector (namespace : string) (w : World)
  : option Sample * World :=
  let dimensions := default 1%nat (DIMENSION_MAP namespace) in
  match call_stats namespace w with
  | (Throw _, w1) => (None, w1)
  | (Return approxRowCount, w1) =>
      if approxRowCount =? 0 then (None, w1)
      else
        let '(randomVector, w2) := generateRandomVector dimensions w1 in
        match call_query namespace
                {| q_vector := randomVector; q_topK := 1;
                   q_includeVector := Some true |} w2 with
        | (Throw _, w3) => (None, w3)
        | (Return result, w3) =>
            match result with
            | hit :: _ =>
                match h_vector hit with
                | Some v => (Some {| s_vector := v; s_id := h_id hit |}, w3)
                | None => (None, w3)
                end
            | [] => (None, w3)
            end
        end
  end.

(** [for (let i = 0; i < options.warmupQueries; i++) await ns.query(...)],
    with [n] iterations left: a rejection is not caught. *)
Fixpoint warmup (n : nat) (namespace : string) (params : QueryParams)
    (w : World) : completion unit * World :=
  match n with
  | O => (Return tt, w)
  | S n' =>
      match call_query namespace params w with
      | (Throw e, w1) => (Throw e, w1)
      | (Return _, w1) => warmup n' namespace params w1
      end
  end.

(** [benchmarkNamespace] under a schedule for its pool. [None]: the
    schedule is not one of this pool, or it ends before
    [Promise.all(workers)] has resolved. The queries of the pool are
    logged when the pool is done, one for each index claimed; they all
    have the same argument. *)
Definition benchmarkNamespace (backendName namespace : string)
    (totalQueries : nat) (topK : Z) (concurrency warmupQueries : nat)
    (schedule : Schedule) (w : World)
  : option (completion (option ThroughputResult) * World) :=
  match getRandomVector namespace w with
  | (None, w1) => Some (Return None, w1)
  | (Some sample, w1) =>
      let dimensions := length (s_vector sample) in
      let params := {| q_vector := s_vector sample; q_topK := topK;
                       q_includeVector := None |} in
      match warmup warmupQueries namespace params w1 with
      | (Throw e, w2) => Some (Throw e, w2)
      | (Return _, w2) =>
          match run_pool totalQueries concurrency (settlements schedule) with
          | None => None
          | Some st =>
              if resolved st then
                let w3 :=
                  {| backend := backend w2; draws := draws w2;
                     log := log w2 ++
                       replicate (length (claims st))
                         (Query namespace params) |} in
                let durationSeconds := (elapsed_ms schedule / 1000)%Q in
                let latencies := latencies st in
                Some (Return (Some
                  {| t_backend := backendName;
                     t_namespace := namespace;
                     dimensions := dimensions;
                     concurrency := concurrency;
                     total_queries := length latencies;
                     duration_seconds := durationSeconds;
                     qps := (inject_Z (Z.of_nat (length latencies))
                             / durationSeconds)%Q;
                     avg_latency_ms := mean latencies;
                     p50_latency_ms := percentile latencies 50;
                     p95_latency_ms := percentile latencies 95;
                     p99_latency_ms := percentile latencies 99;
                     t_errors := errors st |}), w3)
              else None
          end
      end
  end.

(** [for (const namespace of namespaces)]: the results of the namespaces
    that were not skipped, in order. The namespace at position [i] of the
    list runs under [schedules i]. *)
Fixpoint namespaces_loop (namespaces : list string) (i : nat)
    (backendName : string) (totalQueries : nat) (topK : Z)
    (concurrency warmupQueries : nat) (schedules : nat -> Schedule)
    (results : list ThroughputResult) (w : World)
  : option (completion (list ThroughputResult) * World) :=
  match namespaces with
  | [] => Some (Return results, w)
  | namespace :: rest =>
      match benchmarkNamespace backendName namespace totalQueries topK
              concurrency warmupQueries (schedules i) w with
      | None => None
      | Some (Throw e, w1) => Some (Throw e, w1)
      | Some (Return result, w1) =>
          namespaces_loop rest (S i) backendName totalQueries topK
            concurrency warmupQueries schedules
            match result with
            | Some r => results ++ [r]
            | None => results
            end w1
      end
  end.

(** [(a, b) => b.qps - a.qps], asked whether it is positive. *)
Definition after_qps (a b : ThroughputResult) : bool :=
  negb (Qle_bool (qps b - qps a) 0).

(** [runThroughputBenchmark], down to the value it returns; the table it
    prints and the file it writes hold the same results, rounded. *)
Definition runThroughputBenchmark (options : ThroughputBenchmarkOptions)
    (schedules : nat -> Schedule) (w : World)
  : option (completion (list ThroughputResult) * World) :=
  let totalQueries := default DEFAULT_TOTAL_QUERIES (o_totalQueries options) in
  let topK := default DEFAULT_TOP_K (o_topK options) in
  let concurrency := default DEFAULT_CONCURRENCY (o_concurrency options) in
  let warmupQueries :=
    default DEFAULT_WARMUP_QUERIES (o_warmupQueries options) in
  let namespaces := default NAMESPACES (o_namespaces options) in
  match namespaces_loop namespaces 0 (o_backendName options) totalQueries
          topK concurrency warmupQueries schedules [] w with
  | None => None
  | Some (Throw e, w1) => Some (Throw e, w1)
  | Some (Return results, w1) => Some (Return (sort after_qps results), w1)
  end.

End Namespace.

End ThroughputRun.

(** ** embed.ts, [embedBatchWithRetry] *)

Module EmbedBatch.
Import JS.

Definition MAX_RETRIES : nat := 5.
Definition RETRY_BASE_MS : Z := 1000.

(** What a rejected call carries, as far as the loop reads it: the error
    with its [status], and [err.headers?.get("retry-after")] ([None]: no
    headers, or no such header). *)
Record ApiError : Type := mkApiError {
  err : exn;
  retry_after : option string
}.

Record EmbeddingItem : Type := mkItem {
  index : Z;
  embedding : list float
}.

Record Response : Type := mkResponse {
  data : list EmbeddingItem;
  usage_total_tokens : Z
}.

Inductive outcome : Type :=
| Resolved (response : Response)
| Rejected (e : ApiError).

Record Embedded : Type := mkEmbedded {
  embeddings : list (list float);
  totalTokens : Z
}.

(** The function returns, or rethrows the error it caught. *)
Inductive result : Type :=
| Returned (r : Embedded)
| Thrown (e : ApiError).

(** [(a, b) => a.index - b.index], asked whether it is positive. *)
Definition after_index (a b : EmbeddingItem) : bool :=
  0 <? index a - index b.

(** A string is truthy unless it is empty. *)
Definition truthy (s : string) : bool := negb (String.eqb s "").

Section Retry.
(** The service behind [client.embeddings.create], what a suspension of
    so many milliseconds does to it, and the runtime's [parseFloat]. *)
Context {B : Type}.
Variable create_api : B -> string -> list string -> nat -> outcome * B.
Variable elapse : float -> B -> B.
Variable parseFloat : string -> float.

(** The service, the inputs of the calls made, and the [sleep]s taken,
    oldest first. *)
Record World : Type := mkWorld {
  backend : B;
  requests : list (list string);
  sleeps : list float
}.

Definition sleep (ms : float) (w : World) : World :=
  {| backend := elapse ms (backend w); requests := requests w;
     sleeps := sleeps w ++ [ms] |}.

Definition call_create (model : string) (texts : list string)
    (dimensions : nat) (w : World) : outcome * World :=
  let '(out, b) := create_api (backend w) model texts dimensions in
  (out, {| backend := b; requests := requests w ++ [texts];
           sleeps := sleeps w |}).

(** The suspension before retry number [attempt], after the error [e]:
    the exponential backoff, raised to the Retry-After hint when there is
    a usable one. *)
Definition backoff_after (attempt : nat) (e : ApiError) : float :=
  let backoff :=
    Number_of_nat (Z.to_nat (RETRY_BASE_MS * 2 ^ (Z.of_nat attempt - 1))) in
  match retry_after e with
  | Some retryAfter =>
      if truthy retryAfter then
        let retryAfterMs := (parseFloat retryAfter * 1000)%float in
        if negb (PrimFloat.is_nan retryAfterMs)
           && PrimFloat.ltb 0 retryAfterMs
        then max2 backoff retryAfterMs
        else backoff
      else backoff
  | None => backoff
  end.

(** The [while (true)] loop, from the given value of [attempt]; [fuel]
    bounds the number of iterations ([None]: the bound was too small). *)
Fixpoint retry_loop (fuel : nat) (texts : list string) (model : string)
    (dimensions : nat) (attempt : nat) (w : World)
  : option (result * World) :=
  match fuel with
  | O => None
  | S fuel' =>
      match call_create model texts dimensions w with
      | (Resolved response, w1) =>
          let embeddings :=
            map embedding (sort after_index (data response)) in
          Some (Returned {| embeddings := embeddings;
                            totalTokens := usage_total_tokens response |},
                w1)
      | (Rejected e, w1) =>
          if Embed.isRetryable (err e) && (attempt <? MAX_RETRIES)%nat then
            let attempt := S attempt in
            retry_loop fuel' texts model dimensions attempt
              (sleep (backoff_after attempt e) w1)
          else Some (Thrown e, w1)
      end
  end.

(** The loop as it is entered, [attempt = 0]: it makes at most
    [MAX_RETRIES + 1] calls, so the default branch is never taken. *)
Definition embedBatchWithRetry (texts : list string) (model : string)
    (dimensions : nat) (w : World) : result * World :=
  match retry_loop (S MAX_RETRIES) texts model dimensions 0 w with
  | Some r => r
  | None => (Thrown {| err := TypeError; retry_after := None |}, w)
  end.

End Retry.

End EmbedBatch.

(** ** backend-pinecone.ts and backend-supabase.ts, the write path

    The [upsert] that [ns.upsert] of the benchmarks reaches when the
    backend is Pinecone or Supabase. A string is the sequence of its code
    units. *)

Module Backends.
Import JS Upsert.

(** *** backend-pinecone.ts *)

Definition PINECONE_BATCH_SIZE : nat := 100.

(** [{ id, values, metadata: { title, text } }] *)
Record PineconeVector : Type := mkVector {
  v_id : string;
  v_values : list float;
  v_title : string;
  v_text : string
}.

Definition to_vector (r : WikiRecord) : PineconeVector :=
  {| v_id := id r; v_values := vector r; v_title := title r;
     v_text := text r |}.

Section Pinecone.
(** The index behind [idx.upsert]. *)
Context {P : Type}.
Variable idx_upsert : P -> string -> list PineconeVector -> completion unit * P.

(** The index, and the chunks it was sent, oldest first. *)
Record PineconeWorld : Type := mkPinecone {
  p_service : P;
  p_sent : list (list PineconeVector)
}.

Definition call_idx_upsert (name : string) (chunk : list PineconeVector)
    (w : PineconeWorld) : completion unit * PineconeWorld :=
  let '(out, p) := idx_upsert (p_service w) name chunk in
  (out, {| p_service := p; p_sent := p_sent w ++ [chunk] |}).

(** [for (let i = ...; i < vectors.length; i += PINECONE_BATCH_SIZE)],
    from the given [i]; [fuel] bounds the number of iterations. *)
Fixpoint pinecone_loop (fuel : nat) (name : string)
    (vectors : list PineconeVector) (i : nat) (w : PineconeWorld)
  : option (completion unit * PineconeWorld) :=
  match fuel with
  | O => None
  | S fuel' =>
      if (i <? length vectors)%nat then
        let chunk := firstn PINECONE_BATCH_SIZE (skipn i vectors) in
        if (0 <? length chunk)%nat then
          match call_idx_upsert name chunk w with
          | (Throw e, w1) => Some (Throw e, w1)
          | (Return _, w1) =>
              pinecone_loop fuel' name vectors (i + PINECONE_BATCH_SIZE) w1
          end
        else pinecone_loop fuel' name vectors (i + PINECONE_BATCH_SIZE) w
      else Some (Return tt, w)
  end.

(** [upsert] of the namespace [name]. The loop ends within
    [vectors.length + 1] iterations, so the default branch is never
    taken. *)
Definition pinecone_upsert (name : string) (w : PineconeWorld)
    (records : list WikiRecord) (isFirstBatch : bool)
  : completion unit * PineconeWorld :=
  let vectors := map to_vector records in
  match pinecone_loop (S (length vectors)) name vectors 0 w with
  | Some r => r
  | None => (Throw TypeError, w)
  end.

End Pinecone.

(** *** backend-supabase.ts *)

Definition SUPABASE_BATCH_SIZE : nat := 500.
Definition TEXT_LIMIT : nat := 4000.

(** [namespace.replace(/-/g, "_")] *)
Fixpoint tableName (namespace : string) : string :=
  match namespace with
  | EmptyString => EmptyString
  | String c rest =>
      String (if Ascii.eqb c "-" then "_"%char else c) (tableName rest)
  end.

Record Row : Type := mkRow {
  row_id : string;
  row_title : string;
  row_text : string;
  row_embedding : list float
}.

Definition to_row (r : WikiRecord) : Row :=
  {| row_id := id r;
     row_title := title r;
     row_text := if (TEXT_LIMIT <? String.length (text r))%nat
                 then substring 0 TEXT_LIMIT (text r) else text r;
     row_embedding := vector r |}.

Section Supabase.
(** The table behind [client.from(table).upsert]: it answers with an
    [error] ([Some], with its message) or without one. *)
Context {S : Type}.
Variable table_upsert :
  S -> string -> list Row -> completion (option string) * S.

(** The service, and the rows it was sent with their table, oldest
    first. *)
Record SupabaseWorld : Type := mkSupabase {
  s_service : S;
  s_sent : list (string * list Row)
}.

Definition call_table_upsert (table : string) (rows : list Row)
    (w : SupabaseWorld) : completion (option string) * SupabaseWorld :=
  let '(out, s) := table_upsert (s_service w) table rows in
  (out, {| s_service := s; s_sent := s_sent w ++ [(table, rows)] |}).

(** [for (let i = ...; i < records.length; i += SUPABASE_BATCH_SIZE)];
    [throw new Error(...)] throws an error without a status. *)
Fixpoint supabase_loop (fuel : nat) (table : string)
    (records : list WikiRecord) (i : nat) (w : SupabaseWorld)
  : option (completion unit * SupabaseWorld) :=
  match fuel with
  | O => None
  | Datatypes.S fuel' =>
      if (i <? length records)%nat then
        let chunk := firstn SUPABASE_BATCH_SIZE (skipn i records) in
        let rows := map to_row chunk in
        match call_table_upsert table rows w with
        | (Throw e, w1) => Some (Throw e, w1)
        | (Return (Some message), w1) => Some (Throw (HttpError None), w1)
        | (Return None, w1) =>
            supabase_loop fuel' table records (i + SUPABASE_BATCH_SIZE) w1
        end
      else Some (Return tt, w)
  end.

Definition supabase_upsert (name : string) (w : SupabaseWorld)
    (records : list WikiRecord) (isFirstBatch : bool)
  : completion unit * SupabaseWorld :=
  let table := tableName name in
  match supabase_loop (Datatypes.S (length records)) table records 0 w with
  | Some r => r
  | None => (Throw TypeError, w)
  end.

End Supabase.

End Backends.

(** ** parse.ts and seed.ts, the records that are seeded

    [parseNdjsonGz] reads a file line by line; a line is here what
    [JSON.parse] and [normalizeRecord] make of it: a record, or nothing
    (a malformed line, or a document that [normalizeRecord] rejects). *)

Module Seed.
Import JS Upsert.

(** [limit && count >= limit] *)
Definition reached (limit : option nat) (count : nat) : bool :=
  match limit with
  | Some l => negb (Nat.eqb l 0) && (l <=? count)%nat
  | None => false
  end.

(** [for await (const line of rl)], with [count] records yielded so far:
    the records it goes on to yield. *)
Fixpoint parse_loop (lines : list (option WikiRecord)) (limit : option nat)
    (count : nat) : list WikiRecord :=
  match lines with
  | [] => []
  | line :: rest =>
      if reached limit count then []
      else
        match line with
        | Some record => record :: parse_loop rest limit (S count)
        | None => parse_loop rest limit count
        end
  end.

Definition parseNdjsonGz (lines : list (option WikiRecord))
    (limit : option nat) : list WikiRecord :=
  parse_loop lines limit 0.

(** The variables of [seedNamespace] that its reading loop updates;
    [pendingUpserts] holds, for each upsert handed to the limiter, the
    batch and the flag it will be called with. *)
Record seed_state : Type := mkSeed {
  batch : list WikiRecord;
  skipped : nat;
  seenCursor : bool;
  isFirstBatch : bool;
  pendingUpserts : list (list WikiRecord * bool)
}.

(** [!cursor]: there is no cursor file, or it is empty. *)
Definition no_cursor (cursor : option string) : bool :=
  match cursor with
  | None => true
  | Some c => String.eqb c ""
  end.

Definition seed_start (cursor : option string) : seed_state :=
  {| batch := []; skipped := 0; seenCursor := no_cursor cursor;
     isFirstBatch := true; pendingUpserts := [] |}.

(** The body of [for await (const record of parseNdjsonGz(...))]. *)
Definition seed_step (cursor : option string) (batchSize : nat)
    (st : seed_state) (record : WikiRecord) : seed_state :=
  if negb (seenCursor st) then
    {| batch := batch st;
       skipped := S (skipped st);
       seenCursor := match cursor with
                     | Some c => String.eqb (id record) c
                     | None => false
                     end;
       isFirstBatch := isFirstBatch st;
       pendingUpserts := pendingUpserts st |}
  else
    let batch := batch st ++ [record] in
    if (batchSize <=? length batch)%nat then
      {| batch := [];
         skipped := skipped st;
         seenCursor := seenCursor st;
         isFirstBatch := false;
         pendingUpserts := pendingUpserts st ++ [(batch, isFirstBatch st)] |}
    else
      {| batch := batch;
         skipped := skipped st;
         seenCursor := seenCursor st;
         isFirstBatch := isFirstBatch st;
         pendingUpserts := pendingUpserts st |}.

(** The reading loop of [seedNamespace] and the final batch: the upserts
    handed to the limiter, in order, and the number of records skipped.
    (When and in which order the limiter runs them is not modelled.) *)
Definition seed_batches (cursor : option string) (batchSize : nat)
    (records : list WikiRecord) : list (list WikiRecord * bool) * nat :=
  let st := fold_left (seed_step cursor batchSize) records
              (seed_start cursor) in
  (if (0 <? length (batch st))%nat
   then pendingUpserts st ++ [(batch st, isFirstBatch st)]
   else pendingUpserts st,
   skipped st).

End Seed.

(** ** embed.ts, the records that are embedded

    [readSourceRecords] reads the source file line by line; a line is
    here what [JSON.parse] and the test on [id] and [body] make of it: a
    record, or nothing. *)

Module EmbedSource.
Import JS.

Record SourceRecord : Type := mkSource {
  id : string;
  body : string
}.

(** [limit && yielded >= limit] *)
Definition reached (limit : option nat) (yielded : nat) : bool :=
  match limit with
  | Some l => negb (Nat.eqb l 0) && (l <=? yielded)%nat
  | None => false
  end.

(** [for await (const line of rl)], at line [lineIndex] with [yielded]
    records yielded so far: the records it goes on to yield. *)
Fixpoint read_loop (lines : list (option SourceRecord)) (limit : option nat)
    (skip lineIndex yielded : nat) : list SourceRecord :=
  match lines with
  | [] => []
  | line :: rest =>
      if (lineIndex <? skip)%nat then
        read_loop rest limit skip (S lineIndex) yielded
      else if reached limit yielded then []
      else
        match line with
        | Some record =>
            record :: read_loop rest limit skip (S lineIndex) (S yielded)
        | None => read_loop rest limit skip (S lineIndex) yielded
        end
  end.

Definition readSourceRecords (lines : list (option SourceRecord))
    (limit : option nat) (skip : nat) : list SourceRecord :=
  read_loop lines limit skip 0 0.

(** The records [embedDataset] reads, from the cursor it loaded:
    [limit ? limit + cursorCount : undefined]. *)
Definition effectiveLimit (limit : option nat) (cursorCount : nat)
  : option nat :=
  match limit with
  | Some l => if Nat.eqb l 0 then None else Some (l + cursorCount)%nat
  | None => None
  end.

Definition embedDataset_source (lines : list (option SourceRecord))
    (limit : option nat) (cursorCount : nat) : list SourceRecord :=
  readSourceRecords lines (effectiveLimit limit cursorCount) cursorCount.

End EmbedSource.

(** ** Definitions that follow the specification's words

    They are what the code is compared with, and the vocabulary of the
    statements below. *)

Module RecallSpec.
Import JS Recall.

(** [Σ xs], summed from the left as [reduce] does. *)
Definition sum (xs : list float) : float :=
  fold_left PrimFloat.add xs 0%float.



(** The suspension before the [attempt]-th retry. *)
Definition backoff (attempt : nat) : Z :=
  RETRY_BASE_MS * 2 ^ (Z.of_nat attempt - 1).

Section Answers.
Context {B : Type}.
Variable recall_api : B -> string -> Z -> Z -> probe_outcome * B.
Variable elapse : Z -> B -> B.

(** From the service state [b], with [attempt] retries already made, the
    probe rejects with the errors [es] in turn, each followed by the
    suspension the loop takes, and then resolves with [r]. *)
Fixpoint answers (ns : string) (num k : Z) (attempt : nat) (es : list exn)
    (r : RecallResponse) (b : B) : Prop :=
  match es with
  | [] => (recall_api b ns num k).1 = Resolved r
  | e :: es' =>
      (recall_api b ns num k).1 = Rejected e /\
      answers ns num k (S attempt) es' r
        (elapse (backoff (S attempt)) (recall_api b ns num k).2)
  end.

(** The same, for a probe that never resolves: it rejects with [es] in
    turn. *)
Fixpoint rejects (ns : string) (num k : Z) (attempt : nat) (es : list exn)
    (b : B) : Prop :=
  match es with
  | [] => True
  | e :: es' =>
      (recall_api b ns num k).1 = Rejected e /\
      rejects ns num k (S attempt) es'
        (elapse (backoff (S attempt)) (recall_api b ns num k).2)
  end.
End Answers.

(** A configuration whose key is not among [cc0]. *)
Definition avoids (cc0 : list string) (c : string * Z) : Prop :=
  configKey c.1 c.2 ∉ cc0.

(** The character [c] occurs in [s]. *)
Fixpoint occurs (c : ascii) (s : string) : Prop :=
  match s with
  | EmptyString => False
  | String a s' => a = c \/ occurs c s'
  end.

(** Every configuration whose key is among [keys] has a run among
    [runs]. *)
Definition has_runs (keys : list string) (runs : list RecallRun) : Prop :=
  forall ns k, configKey ns k ∈ keys -> configRuns runs ns k <> [].

(** A Number that [JSON.stringify] writes and [JSON.parse] reads back
    unchanged: finite, and not negative zero. *)
Definition json_exact (x : float) : Prop := JSON_number x = Some x.

Definition run_exact (r : RecallRun) : Prop :=
  json_exact (avg_recall r) /\ json_exact (avg_ann_count r) /\
  json_exact (avg_exhaustive_count r) /\ json_exact (latency_ms r).

(** A service that plays a script: each call takes the next outcome and
    25 milliseconds; past the end of the script it rejects without a
    status. A suspension only moves its clock. *)
Record script_state : Type := mkScript {
  pending : list probe_outcome;
  clock : Z
}.

Definition script_api (b : script_state) (ns : string) (num k : Z)
  : probe_outcome * script_state :=
  match pending b with
  | [] => (Rejected (HttpError None), {| pending := []; clock := clock b + 25 |})
  | o :: rest => (o, {| pending := rest; clock := clock b + 25 |})
  end.
Definition script_elapse (ms : Z) (b : script_state) : script_state :=
  {| pending := pending b; clock := clock b + ms |}.
Definition script_now (b : script_state) : float :=
  Number_of_nat (Z.to_nat (clock b)).

Definition script_world (script : list probe_outcome) (f : file_state)
  : World (B := script_state) :=
  {| backend := {| pending := script; clock := 0 |};
     probes := []; sleeps := []; file := f; output := None |}.

Definition a_response : RecallResponse :=
  {| r_avg_recall := 1%float; r_avg_ann_count := 10%float;
     r_avg_exhaustive_count := 10%float |}.

(** Two namespaces by two [top_k] values, one run each. *)
Definition two_by_two : BenchmarkOptions :=
  {| o_runs := Some 1%nat; o_num := None; o_topK := Some [1; 5];
     o_namespaces := Some ["wiki-gte"; "wiki-minilm"]%string |}.

(** A run whose Numbers are all written exactly, and one whose recall is
    [NaN]. *)
Definition exact_run : RecallRun :=
  {| namespace := "wiki-gte"; top_k := 10; run := 1;
     avg_recall := 0.95%float; avg_ann_count := 10%float;
     avg_exhaustive_count := 10%float; latency_ms := 42%float |}.

(** Two invocations against the scripted service: the first, with
    [--runs 0] and one [top_k] value, marks its configuration complete
    with no run recorded and fails in its own summary loop, leaving the
    checkpoint behind; the second resumes from it with a longer [top_k]
    list. *)
Definition first_options : BenchmarkOptions :=
  {| o_runs := Some 0%nat; o_num := None; o_topK := Some [1];
     o_namespaces := Some ["wiki-gte"%string] |}.
Definition second_options : BenchmarkOptions :=
  {| o_runs := Some 1%nat; o_num := None; o_topK := Some [1; 5];
     o_namespaces := Some ["wiki-gte"%string] |}.

End RecallSpec.

Module ThroughputSpec.
Import JS Throughput.

Local Open Scope Q_scope.

(** The nearest rank of [p] among [n] elements, counted from zero:
    [ceil (p/100 * n) - 1]. *)
Definition rank (n : nat) (p : Q) : Z :=
  (Qceiling (p / 100 * inject_Z (Z.of_nat n)) - 1)%Z.




(** The workers still suspended at their [await]. *)
Definition is_awaiting (w : worker) : bool :=
  match w with Awaiting _ => true | Finished => false end.
Definition pending (ws : list worker) : nat :=
  length (List.filter is_awaiting ws).

(** What holds of the pool after [settled] settlements: the counter has
    handed out the indices below it, once each and in order; every index
    handed out is pending or settled; and a worker has left its loop only
    once the counter reached [totalQueries]. *)
Definition pool_inv (totalQueries concurrency settled : nat) (st : pool)
  : Prop :=
  (completedCount st <= totalQueries)%nat /\
  map snd (claims st) = seq 0 (completedCount st) /\
  (pending (workers st) + settled = completedCount st)%nat /\
  (length (latencies st) + errors st = settled)%nat /\
  length (workers st) = concurrency /\
  (In Finished (workers st) -> completedCount st = totalQueries).

(** The schedule in which the workers' queries settle in turn, every
    seventh one rejecting. *)
Definition round_robin (totalQueries concurrency : nat) : list event :=
  map (fun i => (Nat.modulo i concurrency,
                 if Nat.eqb (Nat.modulo i 7) 3 then None
                 else Some (inject_Z (Z.of_nat (10 + i)))))
    (seq 0 totalQueries).

End ThroughputSpec.

Module UpsertSpec.
Import JS Upsert.



(** A backend that accepts everything, its state a clock that a call
    advances by 40 milliseconds. *)
Definition ok_ensure (b : Z) (namespace : string) : completion unit * Z :=
  (Return tt, b).
Definition ok_upsert (b : Z) (batch : list WikiRecord) (isFirstBatch : bool)
  : completion unit * Z := (Return tt, b + 40).
Definition ok_now (b : Z) : Q := inject_Z b.

Definition half (i j : nat) : float := 0.5%float.
Definition epoch (i : nat) : Z := 1700000000000.

End UpsertSpec.

Module SweepSpec.
Import JS Recall RecallSpec.

(** Every key of [cc0] is marked complete in the checkpoint that the file
    [f] holds. *)
Definition keeps (cc0 : list string) (f : file_state) : Prop :=
  forall x, x ∈ cc0 -> x ∈ completedConfigs (loadCheckpoint f).

(** The world in which the second invocation of the two-by-two scenario
    starts: the checkpoint holds the one run of the first pair. *)
Definition resumed_world : World (B := script_state) :=
  script_world [Resolved a_response; Resolved a_response; Resolved a_response]
    (Text (Some (JData
       (Some [ {| j_namespace := "wiki-gte"; j_top_k := 1; j_run := 1;
                  j_avg_recall := Some 1%float;
                  j_avg_ann_count := Some 10%float;
                  j_avg_exhaustive_count := Some 10%float;
                  j_latency_ms := Some 25%float |} ])
       (Some ["wiki-gte:1"%string])))).

(** The configurations the sweep has still to measure: those of
    [configs] whose key is not among [cc0]. *)
Definition open_configs (cc0 : list string) (configs : list (string * Z))
  : list (string * Z) :=
  filter (fun c => configKey c.1 c.2 ∉ cc0) configs.

(** A service that answers every probe, in 25 milliseconds. *)
Definition steady_api (b : Z) (ns : string) (num k : Z)
  : probe_outcome * Z := (Resolved a_response, b + 25).
Definition steady_elapse (ms : Z) (b : Z) : Z := b + ms.
Definition steady_now (b : Z) : float := Number_of_nat (Z.to_nat b).

(** The world of the second invocation, against the steady service. *)
Definition steady_world : World (B := Z) :=
  {| backend := 0; probes := []; sleeps := [];
     file := file resumed_world; output := None |}.

End SweepSpec.

Module BatchSpec.
Import JS Upsert UpsertSpec.


End BatchSpec.

Module RunSpec.
Import JS Throughput ThroughputSpec ThroughputRun.

Local Open Scope Q_scope.

(** Results in the order of the report: the higher [qps] first. *)
Definition descending (a b : ThroughputResult) : Prop := qps b <= qps a.

(** The argument of the query by which [getRandomVector] fetches its
    sample. *)
Definition is_probe (namespace : string) (params : QueryParams) : Prop :=
  q_topK params = 1%Z /\ q_includeVector params = Some true /\
  length (q_vector params) = default 1%nat (DIMENSION_MAP namespace).

(** A backend that holds data: its state counts the calls made to it,
    every namespace has 1000 rows, and a query is answered by one
    document, with its vector when the vector is asked for. *)
Definition a_hit (v : option (list float)) : VectorQueryResult :=
  {| h_id := "doc-1"; h_score := 0.25%float; h_title := "Anarchism";
     h_text := "Anarchism is a political philosophy."; h_vector := v |}.

Definition ready_stats (b : nat) (namespace : string) : completion Z * nat :=
  (Return 1000%Z, S b).

Definition ready_query (b : nat) (namespace : string) (params : QueryParams)
  : completion (list VectorQueryResult) * nat :=
  (Return [a_hit match q_includeVector params with
                 | Some true => Some [0.6%float; 0.8%float]
                 | _ => None
                 end], S b).

(** The same backend with no rows, and the same backend rejecting the
    fourth call made to it. *)
Definition empty_stats (b : nat) (namespace : string) : completion Z * nat :=
  (Return 0%Z, S b).


Definition coin (i : nat) : float := 0.5%float.

Definition fresh : World (B := nat) :=
  {| backend := 0%nat; draws := 0%nat; log := [] |}.

(** The queries of the pool settle in turn, and the pool takes two
    seconds. *)
Definition in_turn (totalQueries concurrency : nat) : Schedule :=
  {| settlements := round_robin totalQueries concurrency;
     elapsed_ms := 2000 |}.

(** The pool of the first namespace takes two seconds, the pools of the
    others one. *)
Definition paced (i : nat) : Schedule :=
  {| settlements := round_robin 12 3;
     elapsed_ms := if Nat.eqb i 0 then 2000 else 1000 |}.

Definition small_run : ThroughputBenchmarkOptions :=
  {| o_backendName := "tpuf";
     o_namespaces := Some ["wiki-gte"; "wiki-minilm"]%string;
     o_totalQueries := Some 12%nat; o_topK := None;
     o_concurrency := Some 3%nat; o_warmupQueries := Some 2%nat |}.

End RunSpec.

Module EmbedSpec.
Import JS EmbedBatch.

(** The exponential backoff before retry number [attempt]. *)
Definition base (attempt : nat) : float :=
  Number_of_nat (Z.to_nat (RETRY_BASE_MS * 2 ^ (Z.of_nat attempt - 1))).

Definition at_least (lo x : float) : Prop := PrimFloat.leb lo x = true.

Section Answers.
Context {B : Type}.
Variable create_api : B -> string -> list string -> nat -> outcome * B.
Variable elapse : float -> B -> B.
Variable parseFloat : string -> float.

(** From the service state [b], with [attempt] retries already made, the
    call rejects with the errors [es] in turn, each followed by the
    suspension the loop takes, and then resolves with [response]. *)
Fixpoint answers (model : string) (texts : list string) (dimensions : nat)
    (attempt : nat) (es : list ApiError) (response : Response) (b : B)
  : Prop :=
  match es with
  | [] => (create_api b model texts dimensions).1 = Resolved response
  | e :: es' =>
      (create_api b model texts dimensions).1 = Rejected e /\
      answers model texts dimensions (S attempt) es' response
        (elapse (backoff_after parseFloat (S attempt) e)
           (create_api b model texts dimensions).2)
  end.
End Answers.

(** The suspensions the loop takes after the errors [es], the first of
    them before retry number [attempt + 1]. *)
Fixpoint suspensions (parseFloat : string -> float) (attempt : nat)
    (es : list ApiError) : list float :=
  match es with
  | [] => []
  | e :: es' =>
      backoff_after parseFloat (S attempt) e
      :: suspensions parseFloat (S attempt) es'
  end.

(** The response numbers its items 0, 1, ..., each once, in some
    order. *)
Definition numbered (response : Response) : Prop :=
  Permutation (map index (data response))
    (map Z.of_nat (seq 0 (length (data response)))).

(** A service that plays a script, as the one of the recall examples
    does; past the end of the script it rejects without a status. *)
Definition script_api (b : list outcome) (model : string)
    (texts : list string) (dimensions : nat) : outcome * list outcome :=
  match b with
  | [] => (Rejected {| err := HttpError None; retry_after := None |}, [])
  | o :: rest => (o, rest)
  end.
Definition script_elapse (ms : float) (b : list outcome) : list outcome := b.

(** The runtime's [parseFloat] at the strings of the examples. *)
Definition parse_hint (s : string) : float :=
  if String.eqb s "7" then 7%float
  else if String.eqb s "0.5" then 0.5%float
  else PrimFloat.nan.

Definition script_world (script : list outcome) : World (B := list outcome) :=
  {| backend := script; requests := []; sleeps := [] |}.

Definition rate_limited : ApiError :=
  {| err := HttpError (Some 429); retry_after := Some "7"%string |}.
Definition overloaded : ApiError :=
  {| err := HttpError (Some 503); retry_after := Some "0.5"%string |}.

(** Three embeddings, returned out of order. *)
Definition shuffled : Response :=
  {| data := [ {| index := 2; embedding := [0.3%float] |};
               {| index := 0; embedding := [0.1%float] |};
               {| index := 1; embedding := [0.2%float] |} ];
     usage_total_tokens := 42 |}.

End EmbedSpec.

Module BackendSpec.
Import JS Upsert Backends.

(** The partition of a list into consecutive chunks of [size], the last
    one possibly shorter. *)
Definition chunks {A : Type} (size : nat) (l : list A) : list (list A) :=
  map (fun j => firstn size (skipn (j * size) l))
    (seq 0 (ceil_div (length l) size)).



End BackendSpec.

Module SeedSpec.
Import JS Upsert Seed.

(** The records among the lines. *)
Definition valid (lines : list (option WikiRecord)) : list WikiRecord :=
  omap (fun line => line) lines.

(** Batches of [n] records, the last one possibly shorter, none empty. *)
Definition batched {A : Type} (n : nat) (bs : list (list A)) : Prop :=
  forall i b, bs !! i = Some b ->
    (0 < length b <= n)%nat /\ (S i < length bs -> length b = n)%nat.

(** Only the first upsert carries the flag. *)
Definition first_flagged {A : Type} (us : list (A * bool)) : Prop :=
  forall i u, us !! i = Some u -> u.2 = Nat.eqb i 0.

(** The record at position [i] is the first one with the id [c]. *)
Definition first_with_id (c : string) (records : list WikiRecord) (i : nat)
  : Prop :=
  (exists r, records !! i = Some r /\ id r = c) /\
  Forall (fun r => id r <> c) (take i records).

Definition doc (i : nat) : WikiRecord :=
  {| id := "doc-" +:+ pretty i; title := "Title"; text := "Text";
     vector := [Number_of_nat i] |}.

End SeedSpec.

Module SourceSpec.
Import JS EmbedSource.

(** The records among the lines. *)
Definition present (lines : list (option SourceRecord))
  : list SourceRecord := omap (fun line => line) lines.

End SourceSpec.

(** ** Facts about recall-benchmark.ts *)

Module RecallFacts.
Import JS Recall RecallSpec.

(** *** Statistics *)




(** On a one-element sequence the divisor [n - 1] is zero, whatever the
    element. *)
Lemma std_singleton (x : float) :
  std [x] = PrimFloat.sqrt ((0 + sq (x - (0 + x) / 1)) / 0)%float.
Proof. reflexivity. Qed.


Example std_of_one_to_five :
  std [1; 2; 3; 4; 5]%float = 1.5811388300841898%float /\
  mean [1; 2; 3; 4; 5]%float = 3%float /\
  median [1; 2; 3; 4; 5]%float = 3%float.
Proof. repeat split; vm_compute; reflexivity. Qed.

(** *** The retry loop *)

Section Retry.
Context {B : Type}.
Variable recall_api : B -> string -> Z -> Z -> probe_outcome * B.
Variable elapse : Z -> B -> B.
Variable performance_now : B -> float.

Abbreviation World := (World (B := B)).
Abbreviation call_recall := (call_recall recall_api).
Abbreviation sleep := (sleep elapse).
Abbreviation retry_loop := (retry_loop recall_api elapse performance_now).
Abbreviation recall_with_retry :=
  (recall_with_retry recall_api elapse performance_now).

Lemma call_recall_eq ns num k (w : World) :
  call_recall ns num k w =
  ((recall_api (backend w) ns num k).1,
   {| backend := (recall_api (backend w) ns num k).2;
      probes := probes w ++ [(ns, k)]; sleeps := sleeps w;
      file := file w; output := output w |}).
Proof. unfold Recall.call_recall. now destruct (recall_api _ _ _ _). Qed.

Lemma isRetryable_iff (e : exn) :
  isRetryable e = true <-> exists s, status e = Some s /\ 500 <= s.
Proof.
  unfold isRetryable. destruct (status e) as [s|].
  - rewrite Z.leb_le. split; [eauto|]. now intros (s' & [= <-] & H).
  - split; [discriminate|]. now intros (s' & [=] & _).
Qed.

(** The loop makes at most [MAX_RETRIES + 1 - attempt] calls. *)
Lemma retry_loop_fuel ns num k (fuel attempt : nat) (w : World) :
  (S MAX_RETRIES - attempt <= fuel)%nat -> (attempt <= MAX_RETRIES)%nat ->
  is_Some (retry_loop fuel ns num k attempt w).
Proof.
  revert attempt w. induction fuel as [|fuel IH]; intros attempt w Hf Ha.
  - lia.
  - simpl. destruct (call_recall ns num k w) as [[r|e] w1]; [eauto|].
    destruct (isRetryable e && (attempt <? MAX_RETRIES)%nat) eqn:E; [|eauto].
    apply andb_true_iff in E as [_ E]. apply Nat.ltb_lt in E.
    apply IH; lia.
Qed.

Lemma recall_with_retry_eq ns num k (w : World) :
  retry_loop (S MAX_RETRIES) ns num k 0 w = Some (recall_with_retry ns num k w).
Proof.
  unfold Recall.recall_with_retry.
  destruct (retry_loop_fuel ns num k (S MAX_RETRIES) 0 w) as [r ->];
    [lia|lia|reflexivity].
Qed.

(** What one run of the loop leaves in the world: the file and the
    result file untouched, some probes of this configuration, some
    suspensions. *)
Lemma retry_loop_frame ns num k fuel attempt (w : World) res w' :
  retry_loop fuel ns num k attempt w = Some (res, w') ->
  file w' = file w /\ output w' = output w /\
  exists n, probes w' = probes w ++ replicate n (ns, k).
Proof.
  revert attempt w. induction fuel as [|fuel IH]; intros attempt w; [discriminate|].
  simpl. rewrite call_recall_eq.
  destruct (recall_api (backend w) ns num k).1 as [r|e].
  - intros [= <- <-]. simpl. repeat split. now exists 1%nat.
  - destruct (isRetryable e && (attempt <? MAX_RETRIES)%nat).
    + intros H. apply IH in H as (Hf & Ho & n & Hp). simpl in *.
      repeat split; [exact Hf|exact Ho|].
      exists (S n). rewrite Hp, <- app_assoc. reflexivity.
    + intros [= <- <-]. simpl. repeat split. now exists 1%nat.
Qed.

Lemma recall_with_retry_frame ns num k (w : World) :
  let w' := (recall_with_retry ns num k w).2 in
  file w' = file w /\ output w' = output w /\
  exists n, probes w' = probes w ++ replicate n (ns, k).
Proof.
  cbv zeta. pose proof (recall_with_retry_eq ns num k w) as H.
  destruct (recall_with_retry ns num k w) as [res w'].
  now apply retry_loop_frame in H.
Qed.



(** An error that is not retryable propagates at once: one call, no
    suspension. *)
Lemma not_retryable_propagates ns num k (e : exn) (w : World) :
  (recall_api (backend w) ns num k).1 = Rejected e ->
  isRetryable e = false ->
  exists w',
    recall_with_retry ns num k w = (Throw e, w') /\
    sleeps w' = sleeps w /\ probes w' = probes w ++ [(ns, k)].
Proof.
  intros He Hre. pose proof (recall_with_retry_eq ns num k w) as E.
  simpl in E. rewrite call_recall_eq, He, Hre in E. simpl in E.
  injection E as <-. eexists. split; [reflexivity|]. now split.
Qed.

(** The loop from [attempt], against a probe that keeps rejecting
    retryably: the error of the call made with [attempt = MAX_RETRIES]
    propagates. *)
Lemma retry_loop_rejects ns num k :
  forall (es : list exn) (e : exn) (fuel attempt : nat) (w : World),
  Forall (fun e => isRetryable e = true) es ->
  (attempt + length es = MAX_RETRIES)%nat ->
  (length es < fuel)%nat ->
  rejects recall_api elapse ns num k attempt (es ++ [e]) (backend w) ->
  exists w',
    retry_loop fuel ns num k attempt w = Some (Throw e, w') /\
    sleeps w' = sleeps w ++ map backoff (seq (S attempt) (length es)) /\
    probes w' = probes w ++ replicate (S (length es)) (ns, k).
Proof.
  induction es as [|e0 es IH]; intros e fuel attempt w Hret Hcap Hfuel Hrej;
    (destruct fuel as [|fuel]; [simpl in Hfuel; lia|]);
    simpl in Hrej |- *; rewrite call_recall_eq;
    destruct Hrej as [He Hrej]; rewrite He.
  - simpl in Hcap.
    replace (attempt <? MAX_RETRIES)%nat with false
      by (symmetry; apply Nat.ltb_ge; lia).
    rewrite andb_false_r. eexists. split; [reflexivity|]. simpl.
    now rewrite app_nil_r.
  - inversion Hret as [|? ? Hre Hret']; subst. rewrite Hre.
    simpl in Hcap, Hfuel.
    replace (attempt <? MAX_RETRIES)%nat with true
      by (symmetry; apply Nat.ltb_lt; lia).
    simpl andb. cbv iota.
    match goal with
    | |- context [Recall.retry_loop _ _ _ _ _ _ _ _ ?w0] =>
        destruct (IH e fuel (S attempt) w0) as (w' & Hrun & Hs & Hp);
          [exact Hret'|lia|lia|exact Hrej|]
    end.
    exists w'. split; [exact Hrun|].
    rewrite Hs, Hp. simpl. rewrite <- !app_assoc. split; reflexivity.
Qed.

(** A retryable error propagates once the cap is exhausted: after
    [MAX_RETRIES] suspensions and [MAX_RETRIES + 1] calls. *)
Lemma retry_cap_exhausted ns num k (es : list exn) (e : exn) (w : World) :
  Forall (fun e => isRetryable e = true) es ->
  length es = MAX_RETRIES ->
  rejects recall_api elapse ns num k 0 (es ++ [e]) (backend w) ->
  exists w',
    recall_with_retry ns num k w = (Throw e, w') /\
    sleeps w' = sleeps w ++ map backoff (seq 1 MAX_RETRIES) /\
    probes w' = probes w ++ replicate (S MAX_RETRIES) (ns, k).
Proof.
  intros Hret Hlen Hrej.
  destruct (retry_loop_rejects ns num k es e (S MAX_RETRIES) 0 w)
    as (w' & Hrun & Hs & Hp); [exact Hret|lia|lia|exact Hrej|].
  exists w'. rewrite <- Hlen at 1 2. split; [|now split].
  pose proof (recall_with_retry_eq ns num k w) as E. congruence.
Qed.

End Retry.


(** The classification of the sibling loop in embed.ts is the one of the
    specification: status 429, or 500 and above. *)
Lemma embed_isRetryable_iff (e : exn) :
  Embed.isRetryable e = true <->
  exists s, status e = Some s /\ (s = 429 \/ 500 <= s).
Proof.
  unfold Embed.isRetryable. destruct (status e) as [s|].
  - rewrite orb_true_iff, Z.eqb_eq, Z.leb_le. split; [eauto|].
    now intros (s' & [= <-] & H).
  - split; [discriminate|]. now intros (s' & [=] & _).
Qed.

(** The two classifications differ at status 429 and nowhere else. *)
Lemma isRetryable_differs_at_429 (e : exn) :
  isRetryable e = Embed.isRetryable e \/ status e = Some 429.
Proof.
  unfold isRetryable, Embed.isRetryable.
  destruct (status e) as [s|]; [|now left].
  destruct (Z.eqb_spec s 429) as [->|Hne]; [now right|now left].
Qed.

(** C3, the code at the failing input. A rejection with status 429 is not
    classified as retryable, as it is in the sibling loop of embed.ts: the
    loop rethrows it after one call and no suspension, although the next
    call would have resolved. (A status of 500 or more is retryable, a
    status such as 404 is not, and a missing status is not.) *)
Theorem status_429_is_not_retried :
  isRetryable (HttpError (Some 429)) = false /\
  Embed.isRetryable (HttpError (Some 429)) = true /\
  isRetryable (HttpError (Some 500)) = true /\
  isRetryable (HttpError (Some 404)) = false /\
  isRetryable (HttpError None) = false /\
  let w := script_world [Rejected (HttpError (Some 429)); Resolved a_response]
             Absent in
  let r := recall_with_retry script_api script_elapse script_now
             "wiki-gte" 20 10 w in
  r.1 = Throw (HttpError (Some 429)) /\
  sleeps r.2 = [] /\
  probes r.2 = [("wiki-gte"%string, 10)] /\
  pending (backend r.2) = [Resolved a_response].
Proof. repeat split; vm_compute; reflexivity. Qed.

(** *** The sweep *)

Lemma Set_has_true (s : list string) (k : string) :
  Set_has s k = true <-> k ∈ s.
Proof. unfold Set_has. apply bool_decide_eq_true. Qed.

Lemma Set_add_elem (s : list string) (k x : string) :
  x ∈ Set_add s k <-> x ∈ s \/ x = k.
Proof.
  unfold Set_add. destruct (Set_has s k) eqn:E.
  - apply Set_has_true in E. split; [auto|]. now intros [H| ->].
  - rewrite elem_of_app, list_elem_of_singleton. reflexivity.
Qed.

Lemma Set_new_elem (l : list string) (x : string) :
  x ∈ Set_new l <-> x ∈ l.
Proof.
  unfold Set_new.
  enough (H : forall acc, x ∈ fold_left Set_add l acc <-> x ∈ acc \/ x ∈ l).
  { rewrite H. split; [intros [H0|H0]; [inversion H0|exact H0]|auto]. }
  induction l as [|k l IH]; intros acc; simpl.
  - split; [auto|]. intros [H|H]; [exact H|inversion H].
  - rewrite IH, Set_add_elem, elem_of_cons. tauto.
Qed.

Lemma configRuns_app (l1 l2 : list RecallRun) ns k :
  configRuns (l1 ++ l2) ns k = configRuns l1 ns k ++ configRuns l2 ns k.
Proof. unfold configRuns. apply filter_app. Qed.

Lemma configRuns_none (l : list RecallRun) ns k :
  Forall (fun r => ~ (namespace r = ns /\ top_k r = k)) l ->
  configRuns l ns k = [].
Proof.
  unfold configRuns. induction 1 as [|r l Hr _ IH]; [reflexivity|].
  rewrite filter_cons_False by exact Hr. exact IH.
Qed.

Section Sweep.
Context {B : Type}.
Variable recall_api : B -> string -> Z -> Z -> probe_outcome * B.
Variable elapse : Z -> B -> B.
Variable performance_now : B -> float.

Abbreviation World := (World (B := B)).
Abbreviation recall_with_retry :=
  (recall_with_retry recall_api elapse performance_now).
Abbreviation run_loop := (run_loop recall_api elapse performance_now).
Abbreviation topk_loop := (topk_loop recall_api elapse performance_now).
Abbreviation namespace_loop :=
  (namespace_loop recall_api elapse performance_now).
Abbreviation runRecallBenchmark :=
  (runRecallBenchmark recall_api elapse performance_now).

(** The runs of one configuration: probes of this configuration only,
    and on success [remaining] new runs, all of this configuration. *)
Lemma run_loop_spec ns num k total :
  forall (remaining run : nat) (p : progress) (w : World) res w',
  run_loop remaining run ns num k total p w = (res, w') ->
  file w' = file w /\ output w' = output w /\
  (exists n, probes w' = probes w ++ replicate n (ns, k)) /\
  (forall p', res = Return p' ->
     exists new, rawRuns p' = rawRuns p ++ new /\
       length new = remaining /\
       Forall (fun r => namespace r = ns /\ top_k r = k) new).
Proof.
  induction remaining as [|remaining IH]; intros run p w res w'; simpl.
  - intros [= <- <-]. repeat split; [now exists 0%nat; rewrite app_nil_r|].
    intros p' [= <-]. exists []. now rewrite app_nil_r.
  - pose proof (recall_with_retry_frame recall_api elapse performance_now
                  ns num k w) as (Hf & Ho & n & Hp).
    destruct (recall_with_retry ns num k w) as [[[result latency]|e] w1];
      simpl in Hf, Ho, Hp.
    + intros H. apply IH in H as (Hf' & Ho' & (n' & Hp') & Hruns).
      assert (Hw : forall (b : bool),
                file (if b then sleep elapse DELAY_MS w1 else w1) = file w1 /\
                output (if b then sleep elapse DELAY_MS w1 else w1) = output w1 /\
                probes (if b then sleep elapse DELAY_MS w1 else w1) = probes w1)
        by (now intros []).
      destruct (Hw (S (completed p) <? total)%nat) as (E1 & E2 & E3).
      rewrite E1 in Hf'. rewrite E2 in Ho'. rewrite E3 in Hp'.
      repeat split; [congruence|congruence| |].
      * exists (n + n')%nat. rewrite Hp', Hp, <- app_assoc.
        now rewrite replicate_add.
      * intros p' Hres. destruct (Hruns p' Hres) as (new & Hr & Hl & Hall).
        simpl in Hr. rewrite <- app_assoc in Hr.
        eexists. split; [exact Hr|]. split; [simpl; lia|].
        constructor; [now split|exact Hall].
    + intros [= <- <-]. repeat split; [exact Hf|exact Ho|eauto|discriminate].
Qed.

(** The keys [cc0] stay in the set, and nothing is probed or recorded
    under a key of [cc0]. *)
Lemma topk_loop_spec (cc0 : list string) ns num runs total :
  forall (topKValues : list Z) (st : sweep_state) (w : World) res w',
  topk_loop topKValues ns num runs total st w = (res, w') ->
  (forall x, x ∈ cc0 -> x ∈ sw_completedConfigs st) ->
  output w' = output w /\
  (exists new, probes w' = probes w ++ new /\ Forall (avoids cc0) new) /\
  (forall st', res = Return st' ->
     (forall x, x ∈ cc0 -> x ∈ sw_completedConfigs st') /\
     exists new,
       rawRuns (sw_progress st') = rawRuns (sw_progress st) ++ new /\
       Forall (fun r => avoids cc0 (namespace r, top_k r)) new).
Proof.
  induction topKValues as [|k rest IH]; intros st w res w'; simpl.
  - intros [= <- <-] Hcc. split; [reflexivity|]. split.
    + exists []. now rewrite app_nil_r.
    + intros st' [= <-]. split; [exact Hcc|]. exists [].
      now rewrite app_nil_r.
  - destruct (Set_has (sw_completedConfigs st) (configKey ns k)) eqn:Ehas.
    + apply IH.
    + intros H Hcc.
      assert (Hkey : avoids cc0 (ns, k)).
      { intros Hin. apply Hcc, Set_has_true in Hin. simpl in Hin. congruence. }
      destruct (run_loop runs 0 ns num k total (sw_progress st) w)
        as [[p|e] w1] eqn:Erun;
        apply run_loop_spec in Erun as (Hf & Ho & (n & Hp) & Hruns).
      * apply IH in H as (Ho' & (new & Hp' & Hnew) & Hst); simpl in *.
        2:{ intros x Hx. apply Set_add_elem. left. now apply Hcc. }
        split; [congruence|]. split.
        -- exists (replicate n (ns, k) ++ new).
           rewrite Hp', Hp, <- app_assoc. split; [reflexivity|].
           apply Forall_app. split; [|exact Hnew].
           apply Forall_replicate. exact Hkey.
        -- intros st2 Hres. destruct (Hst st2 Hres) as (Hcc' & new' & Hr & Hall).
           split; [exact Hcc'|].
           destruct (Hruns p eq_refl) as (new0 & Hr0 & _ & Hall0).
           exists (new0 ++ new'). rewrite Hr, Hr0, <- app_assoc.
           split; [reflexivity|]. apply Forall_app. split; [|exact Hall].
           eapply Forall_impl; [exact Hall0|].
           intros r [-> ->]. exact Hkey.
      * injection H as <- <-. split; [exact Ho|]. split; [|discriminate].
        exists (replicate n (ns, k)). split; [exact Hp|].
        apply Forall_replicate. exact Hkey.
Qed.

Lemma namespace_loop_spec (cc0 : list string) topKValues num runs total :
  forall (namespaces : list string) (st : sweep_state) (w : World) res w',
  namespace_loop namespaces topKValues num runs total st w = (res, w') ->
  (forall x, x ∈ cc0 -> x ∈ sw_completedConfigs st) ->
  output w' = output w /\
  (exists new, probes w' = probes w ++ new /\ Forall (avoids cc0) new) /\
  (forall st', res = Return st' ->
     (forall x, x ∈ cc0 -> x ∈ sw_completedConfigs st') /\
     exists new,
       rawRuns (sw_progress st') = rawRuns (sw_progress st) ++ new /\
       Forall (fun r => avoids cc0 (namespace r, top_k r)) new).
Proof.
  induction namespaces as [|ns rest IH]; intros st w res w'; simpl.
  - intros [= <- <-] Hcc. split; [reflexivity|]. split.
    + exists []. now rewrite app_nil_r.
    + intros st' [= <-]. split; [exact Hcc|]. exists [].
      now rewrite app_nil_r.
  - intros H Hcc.
    destruct (topk_loop topKValues ns num runs total st w)
      as [[st1|e] w1] eqn:Etop;
      apply (topk_loop_spec cc0) in Etop as (Ho & (new & Hp & Hnew) & Hst);
      try exact Hcc.
    + destruct (Hst st1 eq_refl) as (Hcc1 & new1 & Hr1 & Hall1).
      apply IH in H as (Ho' & (new' & Hp' & Hnew') & Hst'); [|exact Hcc1].
      split; [congruence|]. split.
      * exists (new ++ new'). rewrite Hp', Hp, <- app_assoc.
        split; [reflexivity|]. now apply Forall_app.
      * intros st2 Hres. destruct (Hst' st2 Hres) as (Hcc' & new2 & Hr2 & Hall2).
        split; [exact Hcc'|]. exists (new1 ++ new2).
        rewrite Hr2, Hr1, <- app_assoc. split; [reflexivity|].
        now apply Forall_app.
    + injection H as <- <-. split; [exact Ho|]. split; [eauto|discriminate].
Qed.

Lemma summaries_loop_spec (rawRuns : list RecallRun) :
  forall (configs : list (string * Z)) (acc res : list ConfigSummary),
  summaries_loop configs rawRuns acc = Return res ->
  exists new, res = acc ++ new /\
    Forall2 (fun c s => summarize (configRuns rawRuns c.1 c.2) = Return s)
      configs new.
Proof.
  induction configs as [|[ns k] rest IH]; intros acc res; simpl.
  - intros [= <-]. exists []. split; [now rewrite app_nil_r|constructor].
  - destruct (summarize (configRuns rawRuns ns k)) as [s|e] eqn:Es;
      [|discriminate].
    intros H. apply IH in H as (new & -> & Hall).
    exists (s :: new). rewrite <- app_assoc. split; [reflexivity|].
    constructor; [exact Es|exact Hall].
Qed.

(** C1. Whatever checkpoint a sweep starts from, no recall probe is issued
    for a configuration whose key is in the checkpoint's completed set;
    and when the sweep completes, the result holds one summary per
    configuration, in order, where the summary of a configuration of the
    completed set is [summarize] of the checkpoint's own runs of that
    configuration. *)
Theorem completed_configs_are_skipped (options : BenchmarkOptions)
    (w : World) :
  let cp := loadCheckpoint (file w) in
  let namespaces := default NAMESPACES (o_namespaces options) in
  let topKValues := default DEFAULT_TOP_K_VALUES (o_topK options) in
  let res := (runRecallBenchmark options w).1 in
  let w' := (runRecallBenchmark options w).2 in
  (exists new, probes w' = probes w ++ new /\
     forall ns k, configKey ns k ∈ completedConfigs cp -> (ns, k) ∉ new) /\
  (res = Return tt ->
     exists result, output w' = Some result /\
       Forall2 (fun c s =>
                  configKey c.1 c.2 ∈ completedConfigs cp ->
                  summarize (configRuns (raw_runs cp) c.1 c.2) = Return s)
         (list_prod namespaces topKValues) (b_summaries result)).
Proof.
  cbv zeta. unfold Recall.runRecallBenchmark, Recall.measure.
  set (cp := loadCheckpoint (file w)).
  set (namespaces := default NAMESPACES (o_namespaces options)).
  set (topKValues := default DEFAULT_TOP_K_VALUES (o_topK options)).
  set (runs := default DEFAULT_RUNS (o_runs options)).
  set (num := default DEFAULT_NUM (o_num options)).
  set (total := (length namespaces * length topKValues * runs)%nat).
  set (st := {| sw_progress := _; sw_completedConfigs := _ |}).
  destruct (namespace_loop namespaces topKValues num runs total st w)
    as [[st1|e] w1] eqn:Eloop;
    apply (namespace_loop_spec (completedConfigs cp)) in Eloop
      as (Ho & (new & Hp & Hnew) & Hst);
    try (intros x Hx; now apply Set_new_elem).
  - assert (Hskip : forall ns k,
              configKey ns k ∈ completedConfigs cp -> (ns, k) ∉ new).
    { intros ns k Hin Hnewin.
      rewrite Forall_forall in Hnew. now apply (Hnew _ Hnewin). }
    destruct (Hst st1 eq_refl) as (_ & added & Hr & Hadded). simpl in Hr.
    destruct (summaries_loop (list_prod namespaces topKValues)
                (rawRuns (sw_progress st1)) []) as [summaries|e] eqn:Esum;
      simpl.
    + split; [exists new; split; [exact Hp|exact Hskip]|].
      intros _. eexists. split; [reflexivity|]. simpl.
      apply summaries_loop_spec in Esum as (new' & -> & Hall). simpl.
      eapply Forall2_impl; [exact Hall|].
      intros [ns k] s Hs Hin. simpl in *.
      rewrite Hr, configRuns_app, (configRuns_none added), app_nil_r in Hs;
        [exact Hs|].
      eapply Forall_impl; [exact Hadded|].
      intros r Hr' [E1 E2]. apply Hr'. simpl. now rewrite E1, E2.
    + split; [|discriminate]. exists new. split; [exact Hp|exact Hskip].
  - simpl. split; [|discriminate]. exists new. split; [exact Hp|].
    intros ns k Hin Hnewin.
    rewrite Forall_forall in Hnew. now apply (Hnew _ Hnewin).
Qed.

End Sweep.

(** The resumption scenario of the specification, two namespaces by two
    [top_k] values with one run each: the first invocation is cut short by
    a fatal rejection right after the first pair's checkpoint is written;
    the second issues no probe for that pair, writes a result with four
    summaries and removes the checkpoint. *)
Example resumed_sweep :
  let run := runRecallBenchmark script_api script_elapse script_now in
  let r1 := run two_by_two
              (script_world [Resolved a_response;
                             Rejected (HttpError (Some 400))] Absent) in
  let r2 := run two_by_two
              (script_world [Resolved a_response; Resolved a_response;
                             Resolved a_response] (file r1.2)) in
  r1.1 = Throw (HttpError (Some 400)) /\
  completedConfigs (loadCheckpoint (file r1.2)) = ["wiki-gte:1"%string] /\
  r2.1 = Return tt /\
  probes r2.2 = [("wiki-gte", 5); ("wiki-minilm", 1); ("wiki-minilm", 5)]%string /\
  option_map (fun b => length (b_summaries b)) (output r2.2) = Some 4%nat /\
  option_map (fun b => length (b_raw_runs b)) (output r2.2) = Some 4%nat /\
  file r2.2 = Absent.
Proof. repeat split; vm_compute; reflexivity. Qed.

(** *** The checkpoint store *)

Lemma number_round_trip (x : float) :
  json_exact x -> number_of_json (JSON_number x) = x.
Proof. unfold json_exact. now intros ->. Qed.

Lemma run_round_trip (r : RecallRun) :
  run_exact r -> run_of_json (run_to_json r) = r.
Proof.
  intros (H1 & H2 & H3 & H4). destruct r. unfold run_of_json, run_to_json.
  simpl in *. now rewrite !number_round_trip.
Qed.

Lemma runs_round_trip (rs : list RecallRun) :
  Forall run_exact rs -> map run_of_json (map run_to_json rs) = rs.
Proof.
  induction 1 as [|r rs Hr _ IH]; simpl; [reflexivity|].
  now rewrite run_round_trip, IH.
Qed.


Example exact_checkpoint_round_trip :
  let c := {| raw_runs := [exact_run];
              completedConfigs := ["wiki-gte:10"%string] |} in
  Forall run_exact (raw_runs c) /\
  loadCheckpoint (saveCheckpoint c Unreadable) = c.
Proof.
  cbv zeta. split; [|vm_compute; reflexivity].
  repeat constructor; vm_compute; reflexivity.
Qed.


(** *** Configuration keys *)

Lemma occurs_app (c : ascii) (s t : string) :
  occurs c (s +:+ t) <-> occurs c s \/ occurs c t.
Proof. induction s as [|a s IH]; simpl; [tauto|]. rewrite IH. tauto. Qed.

Lemma pretty_N_go_no_colon (x : N) :
  forall s, ~ occurs ":" s -> ~ occurs ":" (pretty_N_go x s).
Proof.
  induction (N.lt_wf_0 x) as [x _ IH]. intros s Hs.
  destruct (N.eq_dec x 0%N) as [->|Hx]; [now rewrite pretty_N_go_0|].
  rewrite pretty_N_go_step by lia. apply IH.
  - apply N.div_lt; lia.
  - simpl. intros [H|H]; [|exact (Hs H)].
    revert H. unfold pretty_N_char. repeat case_match; discriminate.
Qed.

Lemma pretty_Z_no_colon (k : Z) : ~ occurs ":" (pretty k).
Proof.
  assert (HN : forall n : N, ~ occurs ":" (pretty n)).
  { intros n. unfold pretty, pretty_N. case_decide.
    - simpl. intros [E|[]]. discriminate E.
    - apply pretty_N_go_no_colon. simpl. tauto. }
  destruct k as [|q|q]; unfold pretty, pretty_Z.
  - simpl. intros [H|[]]. discriminate H.
  - apply HN.
  - rewrite occurs_app. intros [H|H]; [|exact (HN _ H)].
    simpl in H. destruct H as [H|[]]. discriminate H.
Qed.

(** A string is cut at its last colon in one way only. *)
Lemma cut_at_last_colon (s1 s2 t1 t2 : string) :
  ~ occurs ":" t1 -> ~ occurs ":" t2 ->
  s1 +:+ ":" +:+ t1 = s2 +:+ ":" +:+ t2 -> s1 = s2 /\ t1 = t2.
Proof.
  intros H1 H2. revert s2.
  induction s1 as [|a s1 IH]; intros [|b s2]; simpl.
  - intros [= E]. now split.
  - intros [= _ E]. change ("" +:+ t1) with t1 in E. exfalso. apply H1.
    rewrite E, occurs_app. right. simpl. now left.
  - intros [= _ E]. change ("" +:+ t2) with t2 in E. exfalso. apply H2.
    rewrite <- E, occurs_app. right. simpl. now left.
  - intros [= -> E]. destruct (IH s2 E) as [-> ->]. now split.
Qed.

(** [configKey] tells configurations apart. *)
Lemma configKey_inj (ns1 ns2 : string) (k1 k2 : Z) :
  configKey ns1 k1 = configKey ns2 k2 -> ns1 = ns2 /\ k1 = k2.
Proof.
  unfold configKey. intros H.
  apply cut_at_last_colon in H as [-> H]; try apply pretty_Z_no_colon.
  split; [reflexivity|]. now apply (inj pretty).
Qed.

(** [summarize] returns on every nonempty list. *)
Lemma summarize_cons (r : RecallRun) (rs : list RecallRun) :
  exists s, summarize (r :: rs) = Return s /\
    s_namespace s = namespace r /\ s_top_k s = top_k r /\
    s_runs s = S (length rs).
Proof.
  unfold summarize. destruct (ci95 _) as [lo hi].
  eexists. split; [reflexivity|]. now repeat split.
Qed.

(** *** When the summary loop is safe *)

Lemma configRuns_all (l : list RecallRun) ns k :
  Forall (fun r => namespace r = ns /\ top_k r = k) l ->
  configRuns l ns k = l.
Proof.
  unfold configRuns. induction 1 as [|r l Hr _ IH]; [reflexivity|].
  rewrite filter_cons_True by exact Hr. now rewrite IH.
Qed.

Lemma has_runs_grow (keys : list string) (runs new : list RecallRun) :
  has_runs keys runs -> has_runs keys (runs ++ new).
Proof.
  intros H ns k Hin. rewrite configRuns_app. intros E.
  apply app_eq_nil in E as [E _]. exact (H ns k Hin E).
Qed.

Section Safe.
Context {B : Type}.
Variable recall_api : B -> string -> Z -> Z -> probe_outcome * B.
Variable elapse : Z -> B -> B.
Variable performance_now : B -> float.

Abbreviation World := (World (B := B)).
Abbreviation run_loop := (run_loop recall_api elapse performance_now).
Abbreviation topk_loop := (topk_loop recall_api elapse performance_now).
Abbreviation namespace_loop :=
  (namespace_loop recall_api elapse performance_now).
Abbreviation measure := (measure recall_api elapse performance_now).
Abbreviation runRecallBenchmark :=
  (runRecallBenchmark recall_api elapse performance_now).

Lemma topk_loop_has_runs ns num runs total :
  (0 < runs)%nat ->
  forall (topKValues : list Z) (st st' : sweep_state) (w w' : World),
  topk_loop topKValues ns num runs total st w = (Return st', w') ->
  has_runs (sw_completedConfigs st) (rawRuns (sw_progress st)) ->
  has_runs (sw_completedConfigs st') (rawRuns (sw_progress st')) /\
  (forall x, x ∈ sw_completedConfigs st -> x ∈ sw_completedConfigs st') /\
  (forall k, k ∈ topKValues -> configKey ns k ∈ sw_completedConfigs st').
Proof.
  intros Hruns.
  induction topKValues as [|k rest IH]; intros st st' w w'; simpl.
  - intros [= <- <-] H. split; [exact H|]. split; [auto|].
    intros k Hk. inversion Hk.
  - destruct (Set_has (sw_completedConfigs st) (configKey ns k)) eqn:Ehas.
    + intros Hloop H. apply Set_has_true in Ehas.
      destruct (IH _ _ _ _ Hloop H) as (H' & Hmono & Hkeys).
      split; [exact H'|]. split; [exact Hmono|].
      intros k' Hk'. apply elem_of_cons in Hk' as [->|Hk']; auto.
    + destruct (run_loop runs 0 ns num k total (sw_progress st) w)
        as [[p|e] w1] eqn:Erun; [|discriminate].
      apply run_loop_spec in Erun as (_ & _ & _ & Hnew).
      destruct (Hnew p eq_refl) as (new & Hr & Hlen & Hall).
      intros Hloop H.
      apply IH in Hloop as (H' & Hmono & Hkeys); simpl.
      * split; [exact H'|]. split.
        -- intros x Hx. apply Hmono. simpl. apply Set_add_elem. now left.
        -- intros k' Hk'. apply elem_of_cons in Hk' as [->|Hk']; [|auto].
           apply Hmono. simpl. apply Set_add_elem. now right.
      * intros ns' k' Hin. apply Set_add_elem in Hin as [Hin|Hin].
        -- rewrite Hr. exact (has_runs_grow _ _ new H ns' k' Hin).
        -- apply configKey_inj in Hin as [-> ->].
           rewrite Hr, configRuns_app, (configRuns_all new) by exact Hall.
           intros E. apply app_eq_nil in E as [_ E]. subst new.
           simpl in Hlen. lia.
Qed.

Lemma namespace_loop_has_runs topKValues num runs total :
  (0 < runs)%nat ->
  forall (namespaces : list string) (st st' : sweep_state) (w w' : World),
  namespace_loop namespaces topKValues num runs total st w = (Return st', w') ->
  has_runs (sw_completedConfigs st) (rawRuns (sw_progress st)) ->
  has_runs (sw_completedConfigs st') (rawRuns (sw_progress st')) /\
  (forall x, x ∈ sw_completedConfigs st -> x ∈ sw_completedConfigs st') /\
  (forall ns k, ns ∈ namespaces -> k ∈ topKValues ->
     configKey ns k ∈ sw_completedConfigs st').
Proof.
  intros Hruns.
  induction namespaces as [|ns rest IH]; intros st st' w w'; simpl.
  - intros [= <- <-] H. split; [exact H|]. split; [auto|].
    intros ns k Hns. inversion Hns.
  - destruct (topk_loop topKValues ns num runs total st w)
      as [[st1|e] w1] eqn:Etop; [|discriminate].
    intros Hloop H.
    destruct (topk_loop_has_runs _ _ _ _ Hruns _ _ _ _ _ Etop H)
      as (H1 & Hmono1 & Hkeys1).
    destruct (IH _ _ _ _ Hloop H1) as (H' & Hmono & Hkeys).
    split; [exact H'|]. split; [auto|].
    intros ns' k Hns Hk. apply elem_of_cons in Hns as [->|Hns]; auto.
Qed.

Lemma summaries_loop_returns (rawRuns : list RecallRun) :
  forall (configs : list (string * Z)) (acc : list ConfigSummary),
  (forall c, c ∈ configs -> configRuns rawRuns c.1 c.2 <> []) ->
  exists res, summaries_loop configs rawRuns acc = Return res.
Proof.
  induction configs as [|[ns k] rest IH]; intros acc H; simpl; [eauto|].
  destruct (configRuns rawRuns ns k) as [|r rs] eqn:E.
  - exfalso. apply (H (ns, k)); [now left|exact E].
  - destruct (summarize_cons r rs) as (s & -> & _).
    apply IH. intros c Hc. apply H. now right.
Qed.

(** With at least one run per configuration, and from a checkpoint in
    which every completed key has a run stored, the summary loop never
    receives an empty list: once the measuring loops have returned, the
    whole function returns. *)
Lemma summary_loop_safe (options : BenchmarkOptions) (w w1 : World)
    (rawRuns : list RecallRun) :
  let cp := loadCheckpoint (file w) in
  (0 < default DEFAULT_RUNS (o_runs options))%nat ->
  has_runs (completedConfigs cp) (raw_runs cp) ->
  measure options w = (Return rawRuns, w1) ->
  (runRecallBenchmark options w).1 = Return tt.
Proof.
  cbv zeta. intros Hruns Hcp Hm.
  unfold Recall.runRecallBenchmark. rewrite Hm.
  unfold Recall.measure in Hm.
  match type of Hm with
  | context [Recall.namespace_loop _ _ _ ?nss ?ks ?num ?runs ?total ?st0 _] =>
      destruct (namespace_loop nss ks num runs total st0 w)
        as [[st1|e] w1'] eqn:Eloop; [|discriminate];
      apply (namespace_loop_has_runs ks num runs total Hruns) in Eloop
        as (H1 & _ & Hkeys)
  end.
  - injection Hm as <- <-.
    edestruct (summaries_loop_returns (Recall.rawRuns (sw_progress st1)))
      as [res ->]; [|reflexivity].
    intros [ns k] Hc. apply list_elem_of_In, in_prod_iff in Hc as [Hns Hk].
    simpl. apply H1, Hkeys; now apply list_elem_of_In.
  - simpl. intros ns k Hin. apply Hcp. now apply Set_new_elem.
Qed.

End Safe.

(** *** The summaries *)

(** C10. [summarize] reads [runs[0]] unguarded: it throws a [TypeError]
    on the empty list and returns a summary, carrying the namespace and
    [top_k] of the first run, on every other list. And there is an
    execution in which the summary loop hands it an empty list: an
    invocation resuming from a checkpoint that an invocation with another
    [top_k] list left behind, with a completed key and no run stored
    under it. *)
Theorem summarize_partial_and_reachable :
  summarize [] = Throw TypeError /\
  (forall r rs, exists s, summarize (r :: rs) = Return s /\
     s_namespace s = namespace r /\ s_top_k s = top_k r) /\
  exists (w0 : World (B := script_state)),
    let run := runRecallBenchmark script_api script_elapse script_now in
    let w1 := (run first_options w0).2 in
    let cp := loadCheckpoint (file w1) in
    o_topK first_options <> o_topK second_options /\
    file w0 = Absent /\
    exists ns k rawRuns w2,
      (ns, k) ∈ list_prod (default NAMESPACES (o_namespaces second_options))
                  (default DEFAULT_TOP_K_VALUES (o_topK second_options)) /\
      configKey ns k ∈ completedConfigs cp /\
      measure script_api script_elapse script_now second_options w1
        = (Return rawRuns, w2) /\
      configRuns rawRuns ns k = [] /\
      summarize (configRuns rawRuns ns k) = Throw TypeError /\
      run second_options w1 = (Throw TypeError, w2).
Proof.
  split; [reflexivity|]. split.
  { intros r rs. destruct (summarize_cons r rs) as (s & H1 & H2 & H3 & _).
    eauto. }
  exists (script_world [Resolved a_response] Absent). cbv zeta.
  split; [discriminate|]. split; [reflexivity|].
  exists "wiki-gte"%string, 1. eexists _, _.
  split; [vm_compute; left|].
  split; [vm_compute; left|].
  split; [vm_compute; reflexivity|].
  split; [vm_compute; reflexivity|].
  split; vm_compute; reflexivity.
Qed.

End RecallFacts.

(** ** Facts about throughput-benchmark.ts *)

Module ThroughputFacts.
Import JS Throughput ThroughputSpec.

Local Open Scope Q_scope.

(** *** The sort *)

Lemma after_true (a b : Q) : after a b = true <-> b < a.
Proof.
  unfold after. rewrite negb_true_iff, <- not_true_iff_false, Qle_bool_iff.
  split.
  - intros H. apply Qnot_le_lt. intros Hab. apply H.
    apply (Qplus_le_l _ _ b). ring_simplify. exact Hab.
  - intros H Hab. apply (Qlt_not_le _ _ H).
    apply (Qplus_le_l _ _ b) in Hab. ring_simplify in Hab. exact Hab.
Qed.

Lemma after_false (a b : Q) : after a b = false <-> a <= b.
Proof.
  rewrite <- not_true_iff_false, after_true. split.
  - apply Qnot_lt_le.
  - intros H1 H2. exact (Qlt_not_le _ _ H2 H1).
Qed.

Lemma sort_insert_perm (x : Q) (l : list Q) :
  Permutation (sort_insert after x l) (x :: l).
Proof.
  induction l as [|y l IH]; simpl; [reflexivity|].
  destruct (after x y); [|reflexivity].
  rewrite IH. apply perm_swap.
Qed.

Lemma sort_perm (l : list Q) : Permutation (sort after l) l.
Proof.
  induction l as [|x l IH]; simpl; [reflexivity|].
  unfold sort in *. simpl. rewrite sort_insert_perm. now constructor.
Qed.

Lemma sort_insert_sorted (x : Q) (l : list Q) :
  StronglySorted Qle l -> StronglySorted Qle (sort_insert after x l).
Proof.
  induction 1 as [|y l Hl IH Hy]; simpl.
  - repeat constructor.
  - destruct (after x y) eqn:E.
    + apply after_true in E. constructor; [exact IH|].
      rewrite Forall_forall. intros z Hz.
      apply list_elem_of_In in Hz.
      apply (Permutation_in _ (sort_insert_perm x l)) in Hz.
      destruct Hz as [<-|Hz]; [now apply Qlt_le_weak|].
      rewrite Forall_forall in Hy. apply Hy. now apply list_elem_of_In.
    + apply after_false in E. constructor; [now constructor|].
      constructor; [exact E|].
      eapply Forall_impl; [exact Hy|].
      intros z Hz. simpl in Hz. now apply Qle_trans with y.
Qed.

Lemma sort_sorted (l : list Q) : StronglySorted Qle (sort after l).
Proof.
  induction l as [|x l IH]; [constructor|].
  unfold sort in *. simpl. now apply sort_insert_sorted.
Qed.

Lemma sort_length (l : list Q) : length (sort after l) = length l.
Proof. apply Permutation_length, sort_perm. Qed.

(** In a sorted list an element is below every later one. *)
Lemma sorted_nth_le (l : list Q) :
  StronglySorted Qle l ->
  forall i j a b, (i <= j)%nat ->
  nth_error l i = Some a -> nth_error l j = Some b -> a <= b.
Proof.
  induction 1 as [|x l Hl IH Hx]; intros i j a b Hij Ha Hb.
  - now destruct i.
  - destruct i as [|i], j as [|j]; simpl in *; try lia.
    + injection Ha as <-. injection Hb as <-. apply Qle_refl.
    + injection Ha as <-. apply nth_error_In in Hb.
      rewrite Forall_forall in Hx. apply Hx. now apply list_elem_of_In.
    + apply (IH i j); [lia|exact Ha|exact Hb].
Qed.

(** *** The rank *)

Lemma rank_upper (n : nat) (p : Q) :
  p <= 100 -> (rank n p <= Z.of_nat n - 1)%Z.
Proof.
  intros Hp. unfold rank.
  enough (Qceiling (p / 100 * inject_Z (Z.of_nat n)) <= Z.of_nat n)%Z by lia.
  rewrite <- (Qceiling_Z (Z.of_nat n)) at 2.
  apply Qceiling_resp_le.
  apply Qle_trans with (1 * inject_Z (Z.of_nat n)).
  - apply Qmult_le_compat_r.
    + apply Qle_shift_div_r; [reflexivity|]. now ring_simplify.
    + change 0 with (inject_Z 0). rewrite <- Zle_Qle. lia.
  - ring_simplify. apply Qle_refl.
Qed.



Lemma percentile_eq (xs : list Q) (p : Q) :
  percentile xs p
  = nth_error (sort after xs) (Z.to_nat (Z.max 0 (rank (length xs) p))).
Proof. unfold percentile, rank. now rewrite sort_length. Qed.

Lemma in_sorted (xs : list Q) (x : Q) : In x xs <-> In x (sort after xs).
Proof.
  split; apply Permutation_in; [symmetry|]; apply sort_perm.
Qed.




(** *** The query pool *)

Lemma pending_app (l1 l2 : list worker) :
  pending (l1 ++ l2) = (pending l1 + pending l2)%nat.
Proof. unfold pending. now rewrite List.filter_app, length_app. Qed.

Lemma pending_replicate_finished (n : nat) :
  pending (replicate n Finished) = 0%nat.
Proof. induction n as [|n IH]; [reflexivity|exact IH]. Qed.

Lemma pending_map_awaiting (l : list nat) :
  pending (map Awaiting l) = length l.
Proof.
  induction l as [|x l IH]; [reflexivity|].
  unfold pending in *. simpl. now rewrite IH.
Qed.

Lemma pending_insert (ws : list worker) (wid q : nat) (w : worker) :
  ws !! wid = Some (Awaiting q) ->
  (pending (<[wid := w]> ws) + 1
   = pending ws + if is_awaiting w then 1 else 0)%nat.
Proof.
  intros H. apply list_elem_of_split_length in H as (l1 & l2 & -> & ->).
  replace (length l1) with (length l1 + 0)%nat by lia.
  rewrite insert_app_r. simpl.
  rewrite !pending_app. change (Awaiting q :: l2) with ([Awaiting q] ++ l2).
  change (w :: l2) with ([w] ++ l2). rewrite !pending_app.
  unfold pending at 2 5. simpl. destruct (is_awaiting w); simpl; lia.
Qed.

Lemma in_insert (ws : list worker) (wid : nat) (w x : worker) :
  In x (<[wid := w]> ws) -> x = w \/ In x ws.
Proof.
  revert wid. induction ws as [|y ws IH]; intros [|wid]; simpl; try tauto.
  - intros [H|H]; [left; congruence|tauto].
  - intros [H|H]; [tauto|]. apply IH in H. tauto.
Qed.

Lemma resolved_pending (st : pool) :
  resolved st = true <-> pending (workers st) = 0%nat.
Proof.
  unfold resolved, pending. induction (workers st) as [|w ws IH]; simpl.
  - tauto.
  - destruct w; simpl; [|exact IH]. split; [discriminate|lia].
Qed.

Lemma not_pending_finished (ws : list worker) :
  pending ws = 0%nat -> ws <> [] -> In Finished ws.
Proof.
  destruct ws as [|[q|] ws]; [congruence| |now left].
  unfold pending. simpl. lia.
Qed.

(** The pool once every worker has run up to its first [await]: the
    first [min concurrency totalQueries] workers hold the indices from
    zero on, the others have left their loop at once. *)
Lemma start_fold (totalQueries concurrency : nat) :
  forall j, (j <= concurrency)%nat ->
  let m := Nat.min j totalQueries in
  fold_left (fun st wid => runQuery totalQueries wid st) (seq 0 j)
    {| latencies := []; errors := 0; activeCount := 0; completedCount := 0;
       workers := replicate concurrency Finished; claims := [] |}
  = {| latencies := []; errors := 0; activeCount := m; completedCount := m;
       workers := map Awaiting (seq 0 m) ++ replicate (concurrency - m) Finished;
       claims := map (fun i => (i, i)) (seq 0 m) |}.
Proof.
  induction j as [|j IH]; intros Hj; cbv zeta.
  - simpl. now rewrite Nat.sub_0_r.
  - rewrite seq_S, fold_left_app, IH by lia.
    remember (Nat.min (S j) totalQueries) as m' eqn:Em. simpl.
    unfold runQuery. simpl.
    destruct (Nat.ltb_spec (Nat.min j totalQueries) totalQueries) as [Hlt|Hge].
    + rewrite (Nat.min_l j) in * by lia.
      replace m' with (S j) by lia.
      rewrite seq_S, !map_app. simpl. f_equal.
      replace j with (length (map Awaiting (seq 0 j)) + 0)%nat at 1
        by (rewrite length_map, length_seq; lia).
      rewrite insert_app_r, <- app_assoc.
      replace (concurrency - j)%nat with (S (concurrency - S j)) by lia.
      reflexivity.
    + assert (Hj' : (totalQueries <= j)%nat) by lia.
      rewrite (Nat.min_r j) in * by lia.
      replace m' with totalQueries by lia.
      f_equal. apply list_insert_id'. intros _.
      rewrite lookup_app_r; rewrite length_map, length_seq; [|lia].
      apply lookup_replicate_2. lia.
Qed.

Lemma start_eq (totalQueries concurrency : nat) :
  let m := Nat.min concurrency totalQueries in
  start totalQueries concurrency
  = {| latencies := []; errors := 0; activeCount := m; completedCount := m;
       workers := map Awaiting (seq 0 m) ++ replicate (concurrency - m) Finished;
       claims := map (fun i => (i, i)) (seq 0 m) |}.
Proof. apply start_fold. lia. Qed.

Lemma start_inv (totalQueries concurrency : nat) :
  pool_inv totalQueries concurrency 0 (start totalQueries concurrency).
Proof.
  rewrite start_eq. cbv zeta. unfold pool_inv. simpl.
  set (m := Nat.min concurrency totalQueries).
  split; [lia|]. split.
  { rewrite map_map. simpl. apply map_id. }
  split.
  { rewrite pending_app, pending_map_awaiting, pending_replicate_finished,
      length_seq. lia. }
  split; [reflexivity|]. split.
  { rewrite length_app, length_map, length_seq, length_replicate. lia. }
  intros Hin. apply in_app_or in Hin as [Hin|Hin].
  - apply in_map_iff in Hin as (x & Hx & _). discriminate.
  - destruct (concurrency - m)%nat eqn:E; [inversion Hin|]. lia.
Qed.

Lemma step_inv (totalQueries concurrency settled : nat) (st st' : pool)
    (ev : event) :
  pool_inv totalQueries concurrency settled st ->
  step totalQueries st ev = Some st' ->
  pool_inv totalQueries concurrency (S settled) st'.
Proof.
  intros (Hle & Hclaims & Hpend & Hset & Hlen & Hfin).
  destruct ev as [wid outcome]. unfold step.
  destruct (workers st !! wid) as [[q|]|] eqn:Hw; try discriminate.
  intros [= <-]. unfold runQuery, pool_inv. simpl.
  assert (Hset' : (length (match outcome with
                           | Some l => latencies st ++ [l]
                           | None => latencies st
                           end)
                   + match outcome with
                     | Some _ => errors st
                     | None => S (errors st)
                     end = S settled)%nat).
  { destruct outcome; rewrite ?length_app; simpl; lia. }
  destruct (Nat.ltb_spec (completedCount st) totalQueries) as [Hlt|Hge]; simpl.
  - pose proof (pending_insert _ wid q (Awaiting (completedCount st)) Hw) as Hp.
    simpl in Hp.
    split; [lia|]. split.
    { change (0%nat :: seq 1 (completedCount st))
        with (seq 0 (S (completedCount st))).
      rewrite map_app, seq_S, Hclaims. reflexivity. }
    split; [lia|]. split; [exact Hset'|]. split.
    { now rewrite length_insert. }
    intros Hin. apply in_insert in Hin as [Hin|Hin]; [discriminate|].
    apply Hfin in Hin. lia.
  - pose proof (pending_insert _ wid q Finished Hw) as Hp. simpl in Hp.
    split; [lia|]. split; [exact Hclaims|].
    split; [lia|]. split; [exact Hset'|]. split.
    { now rewrite length_insert. }
    intros _. lia.
Qed.

Lemma steps_inv (totalQueries concurrency : nat) (evs : list event) :
  forall (settled : nat) (st st' : pool),
  pool_inv totalQueries concurrency settled st ->
  steps totalQueries st evs = Some st' ->
  pool_inv totalQueries concurrency (settled + length evs) st'.
Proof.
  induction evs as [|ev evs IH]; intros settled st st' Hinv; simpl.
  - intros [= <-]. now rewrite Nat.add_0_r.
  - destruct (step totalQueries st ev) as [st1|] eqn:E; [|discriminate].
    intros H. replace (settled + S (length evs))%nat
      with (S settled + length evs)%nat by lia.
    eapply IH; [|exact H]. eapply step_inv; eassumption.
Qed.

(** As long as the pool has not resolved, a query is pending, and its
    settlement, either way, is a step of the pool. *)
Lemma pool_progress (totalQueries : nat) (st : pool) :
  resolved st = false ->
  exists wid q, workers st !! wid = Some (Awaiting q) /\
    forall outcome, is_Some (step totalQueries st (wid, outcome)).
Proof.
  intros H. unfold resolved in H.
  assert (Hex : exists w, In w (workers st) /\ is_awaiting w = true).
  { induction (workers st) as [|w ws IH]; [discriminate|]. simpl in H.
    destruct w as [q|].
    - exists (Awaiting q). split; [now left|reflexivity].
    - destruct (IH H) as (w & Hin & Hw). exists w. split; [now right|exact Hw]. }
  destruct Hex as ([q|] & Hin & Hw); [|discriminate].
  apply list_elem_of_In, list_elem_of_lookup in Hin as [wid Hwid].
  exists wid, q. split; [exact Hwid|].
  intros outcome. unfold step. rewrite Hwid. eauto.
Qed.

(** Without a worker the pool resolves at once, and attempts nothing. *)
Example pool_without_workers :
  option_map resolved (run_pool 37 0 []) = Some true /\
  option_map claims (run_pool 37 0 []) = Some [].
Proof. split; reflexivity. Qed.

(** C2. For a pool of [concurrency >= 1] workers over [totalQueries]
    operations and any schedule of settlements: the indices claimed are
    [0, 1, ...] below the counter, each claimed once (so by one worker)
    and none at or above [totalQueries]; the recorded latencies and errors
    count the settlements; the pool has resolved exactly when
    [totalQueries] queries have settled; and then every index below
    [totalQueries] has been claimed once and the latencies and errors
    number [totalQueries]. *)
Theorem pool_attempts_each_index_once (totalQueries concurrency : nat)
    (evs : list event) (st : pool) :
  (1 <= concurrency)%nat ->
  run_pool totalQueries concurrency evs = Some st ->
  map snd (claims st) = seq 0 (completedCount st) /\
  (completedCount st <= totalQueries)%nat /\
  (length (latencies st) + errors st = length evs)%nat /\
  (resolved st = true <-> length evs = totalQueries) /\
  (resolved st = true ->
     map snd (claims st) = seq 0 totalQueries /\
     (length (latencies st) + errors st = totalQueries)%nat).
Proof.
  intros HK Hrun. unfold run_pool in Hrun.
  apply (steps_inv totalQueries concurrency evs 0) in Hrun;
    [|apply start_inv].
  destruct Hrun as (Hle & Hclaims & Hpend & Hset & Hlen & Hfin). simpl in *.
  assert (Hres : resolved st = true -> completedCount st = totalQueries).
  { intros Hr. apply resolved_pending in Hr. apply Hfin.
    apply not_pending_finished; [exact Hr|].
    intros E. rewrite E in Hlen. simpl in Hlen. lia. }
  split; [exact Hclaims|]. split; [exact Hle|]. split; [exact Hset|].
  split; [split|].
  - intros Hr. pose proof (Hres Hr) as E. apply resolved_pending in Hr. lia.
  - intros E. apply resolved_pending. lia.
  - intros Hr. pose proof (Hres Hr) as E. apply resolved_pending in Hr.
    rewrite <- E at 1. split; [exact Hclaims|lia].
Qed.

(** C2, at the example of the specification: 37 operations, 5 workers. *)
Lemma pool_attempts_each_index_once_witness :
  exists st, run_pool 37 5 (round_robin 37 5) = Some st /\
    map snd (claims st) = seq 0 (completedCount st) /\
    (completedCount st <= 37)%nat /\
    (length (latencies st) + errors st = length (round_robin 37 5))%nat /\
    (resolved st = true <-> length (round_robin 37 5) = 37%nat) /\
    (resolved st = true ->
       map snd (claims st) = seq 0 37 /\
       (length (latencies st) + errors st = 37)%nat).
Proof.
  destruct (run_pool 37 5 (round_robin 37 5)) as [st|] eqn:E;
    [|vm_compute in E; discriminate E].
  exists st. split; [reflexivity|].
  apply (pool_attempts_each_index_once 37 5 (round_robin 37 5) st);
    [lia|exact E].
Defined.

End ThroughputFacts.

(** ** Facts about upsert-benchmark.ts *)

Module UpsertFacts.
Import JS Upsert UpsertSpec.

Local Open Scope nat_scope.

Lemma ceil_div_lt (n d j : nat) :
  0 < d -> (j < ceil_div n d <-> j * d < n).
Proof.
  intros Hd. unfold ceil_div. split.
  - intros H. assert (S j <= (n + d - 1) / d) as H' by lia.
    apply (Nat.mul_le_mono_l _ _ d) in H'.
    pose proof (Nat.Div0.mul_div_le (n + d - 1) d). nia.
  - intros H. enough (S j <= (n + d - 1) / d) by lia.
    apply Nat.div_le_lower_bound; nia.
Qed.

Lemma ceil_div_covers (n d : nat) : 0 < d -> n <= ceil_div n d * d.
Proof.
  intros Hd. destruct (Nat.le_gt_cases n (ceil_div n d * d)) as [H|H];
    [exact H|].
  apply (ceil_div_lt n d (ceil_div n d) Hd) in H. lia.
Qed.

(** *** The partition *)



Section Benchmark.
Variable random : nat -> nat -> float.
Variable Date_now : nat -> Z.
Context {B : Type}.
Variable ensureNamespace : B -> string -> completion unit * B.
Variable upsert_api : B -> list WikiRecord -> bool -> completion unit * B.
Variable performance_now : B -> Q.

Abbreviation World := (World (B := B)).
Abbreviation batch_loop := (batch_loop upsert_api performance_now).
Abbreviation runUpsertBenchmark :=
  (runUpsertBenchmark random Date_now ensureNamespace upsert_api
     performance_now).

Lemma generated_length (namespace : string) (count : nat) :
  length (generateSyntheticRecords random Date_now namespace count) = count.
Proof.
  unfold generateSyntheticRecords. now rewrite length_map, length_seq.
Qed.

Lemma call_upsert_eq batch flag (w : World) :
  call_upsert upsert_api batch flag w
  = ((upsert_api (backend w) batch flag).1,
     {| backend := (upsert_api (backend w) batch flag).2;
        trace := trace w ++ [Begin batch flag; Settle] |}).
Proof. unfold call_upsert. now destruct (upsert_api _ _ _). Qed.


(** A rejected batch ends the loop: the rejection propagates and no later
    batch is attempted. *)
Lemma batch_loop_rejected (records : list WikiRecord) (batchSize i : nat)
    (fuel : nat) (lat : list Q) (w : World) (e : exn) :
  i < length records ->
  (upsert_api (backend w)
     (firstn batchSize (skipn i records)) (Nat.eqb i 0)).1 = Throw e ->
  exists w',
    batch_loop (S fuel) records batchSize i lat w = Some (Throw e, w') /\
    trace w' = trace w ++
      [Begin (firstn batchSize (skipn i records)) (Nat.eqb i 0); Settle].
Proof.
  intros Hi He. simpl.
  replace (i <? length records) with true by (symmetry; now apply Nat.ltb_lt).
  rewrite call_upsert_eq, He. eexists. split; reflexivity.
Qed.

(** With a batch size of zero the loop never advances: against a write
    path that accepts every batch, no bound on its iterations is enough. *)
Lemma batch_loop_zero_batch_size (records : list WikiRecord) :
  records <> [] ->
  (forall b batch flag, (upsert_api b batch flag).1 = Return tt) ->
  forall (fuel : nat) (lat : list Q) (w : World),
  batch_loop fuel records 0 0 lat w = None.
Proof.
  intros Hne Hok. induction fuel as [|fuel IH]; intros lat w; [reflexivity|].
  simpl. destruct records as [|r records]; [congruence|]. simpl.
  rewrite call_upsert_eq, Hok. apply IH.
Qed.


End Benchmark.


End UpsertFacts.

(** ** More about the retry loop of recall-benchmark.ts *)

Module RetryFacts.
Import JS Recall RecallSpec RecallFacts.

Section Bound.
Context {B : Type}.
Variable recall_api : B -> string -> Z -> Z -> probe_outcome * B.
Variable elapse : Z -> B -> B.
Variable performance_now : B -> float.

Abbreviation World := (World (B := B)).
Abbreviation retry_loop := (retry_loop recall_api elapse performance_now).
Abbreviation recall_with_retry :=
  (recall_with_retry recall_api elapse performance_now).

(** From [attempt] on, the loop takes [n] suspensions and makes [n + 1]
    calls, where [attempt + n] stays within [MAX_RETRIES]. *)
Lemma retry_loop_shape ns num k :
  forall (fuel attempt : nat) (w : World) res w',
  retry_loop fuel ns num k attempt w = Some (res, w') ->
  exists n, (attempt <= MAX_RETRIES -> attempt + n <= MAX_RETRIES)%nat /\
    sleeps w' = sleeps w ++ map backoff (seq (S attempt) n) /\
    probes w' = probes w ++ replicate (S n) (ns, k) /\
    file w' = file w /\ output w' = output w.
Proof.
  induction fuel as [|fuel IH]; intros attempt w res w'; [discriminate|].
  simpl. rewrite call_recall_eq.
  destruct (recall_api (backend w) ns num k).1 as [r|e].
  - intros [= <- <-]. exists 0%nat. simpl. rewrite app_nil_r.
    repeat split. lia.
  - destruct (isRetryable e && (attempt <? MAX_RETRIES)%nat) eqn:E.
    + apply andb_true_iff in E as [_ E]. apply Nat.ltb_lt in E.
      intros H. apply IH in H as (n & Hn & Hs & Hp & Hf & Ho). simpl in *.
      exists (S n). split; [lia|]. rewrite Hs, Hp, <- !app_assoc.
      repeat split; assumption.
    + intros [= <- <-]. exists 0%nat. simpl. rewrite app_nil_r.
      repeat split. lia.
Qed.

(** X2. Whatever the service answers, one probe through the retry loop
    makes at most [MAX_RETRIES + 1] calls and takes one suspension fewer
    than it makes calls; the suspensions are, in order, the first ones of
    1000, 2000 and 4000 milliseconds; the checkpoint file and the result
    file are not touched. *)
Theorem retry_loop_is_bounded ns num k (w : World) :
  let r := recall_with_retry ns num k w in
  exists n, (n <= MAX_RETRIES)%nat /\
    sleeps r.2 = sleeps w ++ firstn n [1000; 2000; 4000] /\
    probes r.2 = probes w ++ replicate (S n) (ns, k) /\
    file r.2 = file w /\ output r.2 = output w.
Proof.
  cbv zeta. pose proof (recall_with_retry_eq recall_api elapse performance_now
                          ns num k w) as E.
  destruct (recall_with_retry ns num k w) as [res w'].
  apply retry_loop_shape in E as (n & Hn & Hs & Hp & Hf & Ho).
  assert (Hle : (n <= MAX_RETRIES)%nat) by (apply Hn; unfold MAX_RETRIES; lia).
  exists n. split; [exact Hle|]. simpl. split; [|now repeat split].
  rewrite Hs. f_equal. unfold MAX_RETRIES in Hle.
  destruct n as [|[|[|[|n]]]]; try reflexivity. lia.
Qed.

(** X3. An error without a status, or with a status below 500, is
    rethrown as it is after the one call that raised it: no suspension
    is taken and no second call is made. *)
Theorem client_error_is_rethrown_at_once ns num k (e : exn) (w : World) :
  (recall_api (backend w) ns num k).1 = Rejected e ->
  (forall s, status e = Some s -> s < 500) ->
  exists w',
    recall_with_retry ns num k w = (Throw e, w') /\
    sleeps w' = sleeps w /\ probes w' = probes w ++ [(ns, k)].
Proof.
  intros He Hs. apply not_retryable_propagates; [exact He|].
  destruct (isRetryable e) eqn:E; [|reflexivity].
  apply isRetryable_iff in E as (s & Hs1 & Hs2). specialize (Hs s Hs1). lia.
Qed.

(** X4. When the first call and the three retries are all rejected with
    a status of 500 or more, the error thrown is the one of the last
    call, after four calls and suspensions of 1000, 2000 and 4000
    milliseconds: no fifth call is made. *)
Theorem last_error_is_thrown_at_the_cap ns num k (es : list exn) (e : exn)
    (w : World) :
  Forall (fun e => isRetryable e = true) (es ++ [e]) ->
  length es = MAX_RETRIES ->
  rejects recall_api elapse ns num k 0 (es ++ [e]) (backend w) ->
  exists w',
    recall_with_retry ns num k w = (Throw e, w') /\
    sleeps w' = sleeps w ++ [1000; 2000; 4000] /\
    probes w' = probes w ++ replicate 4 (ns, k).
Proof.
  intros Hret Hlen Hrej. apply Forall_app in Hret as [Hret _].
  exact (retry_cap_exhausted recall_api elapse performance_now ns num k es e w
           Hret Hlen Hrej).
Qed.

End Bound.

Lemma client_error_is_rethrown_at_once_witness :
  exists w',
    recall_with_retry script_api script_elapse script_now "wiki-gte" 20 10
      (script_world [Rejected (HttpError (Some 404)); Resolved a_response]
         Absent)
    = (Throw (HttpError (Some 404)), w') /\
    sleeps w' = [] /\ probes w' = [("wiki-gte"%string, 10)].
Proof.
  apply (client_error_is_rethrown_at_once script_api script_elapse script_now
           "wiki-gte" 20 10 (HttpError (Some 404))
           (script_world [Rejected (HttpError (Some 404)); Resolved a_response]
              Absent)).
  - reflexivity.
  - simpl. intros s [= <-]. lia.
Defined.

Lemma last_error_is_thrown_at_the_cap_witness :
  exists w',
    recall_with_retry script_api script_elapse script_now "wiki-gte" 20 10
      (script_world [Rejected (HttpError (Some 503));
                     Rejected (HttpError (Some 503));
                     Rejected (HttpError (Some 503));
                     Rejected (HttpError (Some 502));
                     Resolved a_response] Absent)
    = (Throw (HttpError (Some 502)), w') /\
    sleeps w' = [1000; 2000; 4000] /\
    probes w' = replicate 4 ("wiki-gte"%string, 10).
Proof.
  apply (last_error_is_thrown_at_the_cap script_api script_elapse script_now
           "wiki-gte" 20 10
           [HttpError (Some 503); HttpError (Some 503); HttpError (Some 503)]
           (HttpError (Some 502))
           (script_world [Rejected (HttpError (Some 503));
                          Rejected (HttpError (Some 503));
                          Rejected (HttpError (Some 503));
                          Rejected (HttpError (Some 502));
                          Resolved a_response] Absent)).
  - repeat constructor.
  - reflexivity.
  - simpl. auto.
Defined.

End RetryFacts.

(** ** More about the sweep and the checkpoint of recall-benchmark.ts *)

Module SweepFacts.
Import JS Recall RecallSpec RecallFacts SweepSpec.

(** X1. Two configurations have the same checkpoint key only if they are
    the same configuration: the key determines the namespace and the
    [top_k] value. *)
Theorem configKey_distinct (ns1 ns2 : string) (k1 k2 : Z) :
  configKey ns1 k1 = configKey ns2 k2 <-> ns1 = ns2 /\ k1 = k2.
Proof.
  split; [apply configKey_inj|]. now intros [-> ->].
Qed.

Lemma JSON_number_exact (x : float) :
  json_exact (number_of_json (JSON_number x)).
Proof.
  unfold json_exact, JSON_number.
  destruct (PrimFloat.classify x) eqn:E; simpl;
    try (rewrite E; reflexivity); vm_compute; reflexivity.
Qed.

Lemma loaded_run_exact (r : RecallRun) :
  run_exact (run_of_json (run_to_json r)).
Proof. repeat split; apply JSON_number_exact. Qed.

(** X8. Saving and loading a checkpoint brings it to the form a JSON text
    can hold, and that form is stable: whatever the checkpoint, saving
    and loading what was loaded gives the same checkpoint again. *)
Theorem checkpoint_load_save_stable (c : Checkpoint) (f f' : file_state) :
  let loaded := loadCheckpoint (saveCheckpoint c f) in
  loadCheckpoint (saveCheckpoint loaded f') = loaded /\
  completedConfigs loaded = completedConfigs c /\
  length (raw_runs loaded) = length (raw_runs c).
Proof.
  cbv zeta. split; [|split].
  - destruct c as [rs cc]. unfold saveCheckpoint, JSON_stringify. simpl.
    rewrite runs_round_trip; [reflexivity|].
    rewrite !Forall_map. apply Forall_forall. intros r _.
    apply loaded_run_exact.
  - now destruct c.
  - destruct c as [rs cc]. simpl. now rewrite !length_map.
Qed.

Section Sweep.
Context {B : Type}.
Variable recall_api : B -> string -> Z -> Z -> probe_outcome * B.
Variable elapse : Z -> B -> B.
Variable performance_now : B -> float.

Abbreviation World := (World (B := B)).
Abbreviation run_loop := (run_loop recall_api elapse performance_now).
Abbreviation topk_loop := (topk_loop recall_api elapse performance_now).
Abbreviation namespace_loop :=
  (namespace_loop recall_api elapse performance_now).
Abbreviation runRecallBenchmark :=
  (runRecallBenchmark recall_api elapse performance_now).

Lemma topk_loop_keeps (cc0 : list string) ns num runs total :
  forall (topKValues : list Z) (st : sweep_state) (w : World) res w',
  topk_loop topKValues ns num runs total st w = (res, w') ->
  (forall x, x ∈ cc0 -> x ∈ sw_completedConfigs st) ->
  keeps cc0 (file w) -> keeps cc0 (file w').
Proof.
  induction topKValues as [|k rest IH]; intros st w res w'; simpl.
  - now intros [= <- <-].
  - destruct (Set_has (sw_completedConfigs st) (configKey ns k)); [apply IH|].
    destruct (run_loop runs 0 ns num k total (sw_progress st) w)
      as [[p|e] w1] eqn:Erun;
      apply run_loop_spec in Erun as (Hf & _).
    + intros H Hcc _. eapply IH; [exact H| |].
      * intros x Hx. apply Set_add_elem. left. now apply Hcc.
      * intros x Hx. simpl. apply Set_add_elem. left. now apply Hcc.
    + intros [= <- <-] _ Hk. now rewrite Hf.
Qed.

Lemma namespace_loop_keeps (cc0 : list string) topKValues num runs total :
  forall (namespaces : list string) (st : sweep_state) (w : World) res w',
  namespace_loop namespaces topKValues num runs total st w = (res, w') ->
  (forall x, x ∈ cc0 -> x ∈ sw_completedConfigs st) ->
  keeps cc0 (file w) -> keeps cc0 (file w').
Proof.
  induction namespaces as [|ns rest IH]; intros st w res w'; simpl.
  - now intros [= <- <-].
  - destruct (topk_loop topKValues ns num runs total st w)
      as [[st1|e] w1] eqn:Etop; intros H Hcc Hk.
    + pose proof (topk_loop_keeps cc0 _ _ _ _ _ _ _ _ _ Etop Hcc Hk) as Hk1.
      apply (topk_loop_spec recall_api elapse performance_now cc0)
        in Etop as (_ & _ & Hst); [|exact Hcc].
      destruct (Hst st1 eq_refl) as (Hcc1 & _).
      exact (IH _ _ _ _ H Hcc1 Hk1).
    + injection H as <- <-.
      exact (topk_loop_keeps cc0 _ _ _ _ _ _ _ _ _ Etop Hcc Hk).
Qed.

(** X6. How a sweep ends. When it returns, the checkpoint file is removed
    and the result file holds the runs of the checkpoint it started from,
    followed by the new ones, and one summary per configuration. When it
    throws, no result file is written and no completed configuration is
    lost: every key that was complete in the checkpoint it started from
    is complete in the checkpoint it leaves. *)
Theorem sweep_keeps_progress (options : BenchmarkOptions) (w : World) :
  let cp := loadCheckpoint (file w) in
  let namespaces := default NAMESPACES (o_namespaces options) in
  let topKValues := default DEFAULT_TOP_K_VALUES (o_topK options) in
  let r := runRecallBenchmark options w in
  match r.1 with
  | Return _ =>
      file r.2 = Absent /\
      exists result new,
        output r.2 = Some result /\
        b_raw_runs result = raw_runs cp ++ new /\
        length (b_summaries result)
        = (length namespaces * length topKValues)%nat
  | Throw _ =>
      output r.2 = output w /\ keeps (completedConfigs cp) (file r.2)
  end.
Proof.
  cbv zeta. unfold Recall.runRecallBenchmark, Recall.measure.
  set (cp := loadCheckpoint (file w)).
  set (namespaces := default NAMESPACES (o_namespaces options)).
  set (topKValues := default DEFAULT_TOP_K_VALUES (o_topK options)).
  set (runs := default DEFAULT_RUNS (o_runs options)).
  set (num := default DEFAULT_NUM (o_num options)).
  set (total := (length namespaces * length topKValues * runs)%nat).
  set (st := {| sw_progress := _; sw_completedConfigs := _ |}).
  assert (Hcc : forall x, x ∈ completedConfigs cp -> x ∈ sw_completedConfigs st)
    by (intros x Hx; now apply Set_new_elem).
  assert (Hk0 : keeps (completedConfigs cp) (file w)) by (intros x Hx; exact Hx).
  destruct (namespace_loop namespaces topKValues num runs total st w)
    as [[st1|e] w1] eqn:Eloop.
  - pose proof (namespace_loop_keeps _ _ _ _ _ _ _ _ _ _ Eloop Hcc Hk0) as Hk1.
    apply (namespace_loop_spec recall_api elapse performance_now
             (completedConfigs cp)) in Eloop as (Ho & _ & Hst); [|exact Hcc].
    destruct (Hst st1 eq_refl) as (_ & new & Hr & _). simpl in Hr.
    destruct (summaries_loop (list_prod namespaces topKValues)
                (rawRuns (sw_progress st1)) []) as [summaries|e] eqn:Esum;
      simpl.
    + split; [reflexivity|]. eexists _, new. split; [reflexivity|]. simpl.
      split; [exact Hr|].
      apply summaries_loop_spec in Esum as (new' & -> & Hall). simpl.
      apply Forall2_length in Hall. rewrite <- Hall. apply length_prod.
    + split; [exact Ho|exact Hk1].
  - simpl.
    pose proof (namespace_loop_keeps _ _ _ _ _ _ _ _ _ _ Eloop Hcc Hk0) as Hk1.
    apply (namespace_loop_spec recall_api elapse performance_now
             (completedConfigs cp)) in Eloop as (Ho & _); [|exact Hcc].
    split; [exact Ho|exact Hk1].
Qed.

(** X7. The summaries of a sweep that returns. There is one per
    configuration, in the order of the two lists; each carries the
    namespace and the [top_k] of its configuration, and counts the runs
    that the result file holds for that configuration, which are never
    none. *)
Theorem summaries_are_labelled (options : BenchmarkOptions) (w : World) :
  let namespaces := default NAMESPACES (o_namespaces options) in
  let topKValues := default DEFAULT_TOP_K_VALUES (o_topK options) in
  let r := runRecallBenchmark options w in
  r.1 = Return tt ->
  exists result,
    output r.2 = Some result /\
    Forall2 (fun c s =>
               s_namespace s = c.1 /\ s_top_k s = c.2 /\
               s_runs s = length (configRuns (b_raw_runs result) c.1 c.2) /\
               (0 < s_runs s)%nat)
      (list_prod namespaces topKValues) (b_summaries result).
Proof.
  cbv zeta. unfold Recall.runRecallBenchmark.
  destruct (Recall.measure recall_api elapse performance_now options w)
    as [[rawRuns|e] w1]; [|discriminate].
  destruct (summaries_loop _ rawRuns []) as [summaries|e] eqn:Esum;
    [|discriminate].
  intros _. simpl. eexists. split; [reflexivity|]. simpl.
  apply summaries_loop_spec in Esum as (new & -> & Hall). simpl.
  eapply Forall2_impl; [exact Hall|].
  intros [ns k] s. simpl. intros Hs.
  destruct (configRuns rawRuns ns k) as [|r0 rest] eqn:Ec;
    [discriminate Hs|].
  assert (Hr0 : namespace r0 = ns /\ top_k r0 = k).
  { assert (Hin : r0 ∈ configRuns rawRuns ns k)
      by (rewrite Ec; left).
    unfold configRuns in Hin. apply list_elem_of_filter in Hin as [H _].
    exact H. }
  destruct (summarize_cons r0 rest) as (s' & Hs' & Hn & Hk & Hruns).
  rewrite Hs' in Hs. injection Hs as <-.
  rewrite Hn, Hk, Hruns. destruct Hr0 as [-> ->]. simpl.
  repeat split; lia.
Qed.

(** *** Against a service that answers every probe *)

Section Steady.
Hypothesis steady :
  forall b ns num k, exists r, (recall_api b ns num k).1 = Resolved r.

Lemma recall_steady ns num k (w : World) :
  exists x w',
    recall_with_retry recall_api elapse performance_now ns num k w
      = (Return x, w') /\
    probes w' = probes w ++ [(ns, k)] /\ sleeps w' = sleeps w /\
    file w' = file w.
Proof.
  destruct (steady (backend w) ns num k) as [r Hr].
  unfold Recall.recall_with_retry. simpl. rewrite call_recall_eq, Hr.
  eexists _, _. split; [reflexivity|]. now repeat split.
Qed.

Lemma run_loop_steady ns num k total :
  forall (remaining run : nat) (p : progress) (w : World),
  exists p' w',
    run_loop remaining run ns num k total p w = (Return p', w') /\
    probes w' = probes w ++ replicate remaining (ns, k) /\
    (exists n, sleeps w' = sleeps w ++ replicate n DELAY_MS).
Proof.
  induction remaining as [|remaining IH]; intros run p w; simpl.
  - exists p, w. rewrite app_nil_r. split; [reflexivity|].
    split; [reflexivity|]. exists 0%nat. now rewrite app_nil_r.
  - destruct (recall_steady ns num k w) as ([result latency] & w1 & -> & Hp & Hs & _).
    match goal with
    | |- context [Recall.run_loop _ _ _ _ _ _ _ _ _ ?p0 ?w0] =>
        destruct (IH (S run) p0 w0) as (p' & w' & -> & Hp' & n & Hs')
    end.
    exists p', w'. split; [reflexivity|]. split.
    + rewrite Hp'. destruct (_ <? _)%nat; simpl; rewrite Hp, <- app_assoc;
        reflexivity.
    + destruct (_ <? _)%nat; simpl in Hs'.
      * exists (S n). rewrite Hs', Hs, <- app_assoc. reflexivity.
      * exists n. now rewrite Hs', Hs.
Qed.

Lemma replicate_sleeps (l : list Z) (n m : nat) :
  (l ++ replicate n DELAY_MS) ++ replicate m DELAY_MS
  = l ++ replicate (n + m) DELAY_MS.
Proof. now rewrite <- app_assoc, replicate_add. Qed.

(** The configurations of one namespace, none of them a repetition of
    another or of one measured before. *)
Lemma topk_loop_steady (cc0 : list string) ns num runs total :
  forall (topKValues : list Z) (st : sweep_state) (w : World),
  NoDup topKValues ->
  (forall x, x ∈ sw_completedConfigs st ->
     x ∈ cc0 \/ forall k, k ∈ topKValues -> x <> configKey ns k) ->
  (forall x, x ∈ cc0 -> x ∈ sw_completedConfigs st) ->
  exists st' w',
    topk_loop topKValues ns num runs total st w = (Return st', w') /\
    probes w' = probes w ++
      flat_map (replicate runs)
        (open_configs cc0 (map (pair ns) topKValues)) /\
    (exists n, sleeps w' = sleeps w ++ replicate n DELAY_MS) /\
    (forall x, x ∈ sw_completedConfigs st' <->
       x ∈ sw_completedConfigs st \/ x ∈ map (configKey ns) topKValues).
Proof.
  unfold open_configs.
  induction topKValues as [|k rest IH]; intros st w Hnd Hnew Hold; simpl.
  - exists st, w. rewrite app_nil_r. split; [reflexivity|].
    split; [reflexivity|]. split; [exists 0%nat; now rewrite app_nil_r|].
    intros x. rewrite elem_of_nil. tauto.
  - apply NoDup_cons in Hnd as [Hk Hnd].
    rewrite filter_cons. simpl.
    destruct (Set_has (sw_completedConfigs st) (configKey ns k)) eqn:Ehas.
    + apply Set_has_true in Ehas.
      assert (Hin : configKey ns k ∈ cc0).
      { destruct (Hnew _ Ehas) as [H|H]; [exact H|].
        exfalso. apply (H k); [left|reflexivity]. }
      rewrite decide_False by (intros H; exact (H Hin)).
      destruct (IH st w Hnd) as (st' & w' & -> & Hp & Hs & Hcc);
        [|exact Hold|].
      { intros x Hx. destruct (Hnew x Hx) as [H|H]; [now left|right].
        intros k' Hk'. apply H. now right. }
      exists st', w'. split; [reflexivity|]. split; [exact Hp|].
      split; [exact Hs|]. intros x. rewrite Hcc, elem_of_cons.
      split; [tauto|]. intros [H|[->|H]]; auto.
    + assert (Hout : configKey ns k ∉ cc0).
      { intros H. apply Hold, Set_has_true in H. congruence. }
      rewrite decide_True by exact Hout.
      destruct (run_loop_steady ns num k total runs 0%nat (sw_progress st) w)
        as (p & w1 & -> & Hp1 & n1 & Hs1).
      match goal with
      | |- context [Recall.topk_loop _ _ _ rest _ _ _ _ ?st0 ?w0] =>
          destruct (IH st0 w0 Hnd) as (st' & w' & -> & Hp & [n Hs] & Hcc)
      end.
      { simpl. intros x Hx. apply Set_add_elem in Hx as [Hx| ->].
        - destruct (Hnew x Hx) as [H|H]; [now left|right].
          intros k' Hk'. apply H. now right.
        - right. intros k' Hk' E. apply configKey_inj in E as [_ <-].
          exact (Hk Hk'). }
      { simpl. intros x Hx. apply Set_add_elem. left. now apply Hold. }
      exists st', w'. split; [reflexivity|]. simpl in *. split.
      * rewrite Hp, Hp1, <- app_assoc. reflexivity.
      * split; [exists (n1 + n)%nat; rewrite Hs, Hs1; apply replicate_sleeps|].
        intros x. rewrite Hcc, Set_add_elem, elem_of_cons. tauto.
Qed.

Lemma namespace_loop_steady (cc0 : list string) topKValues num runs total :
  NoDup topKValues ->
  forall (namespaces : list string) (st : sweep_state) (w : World),
  NoDup namespaces ->
  (forall x, x ∈ sw_completedConfigs st ->
     x ∈ cc0 \/ forall ns k, ns ∈ namespaces -> x <> configKey ns k) ->
  (forall x, x ∈ cc0 -> x ∈ sw_completedConfigs st) ->
  exists st' w',
    namespace_loop namespaces topKValues num runs total st w
      = (Return st', w') /\
    probes w' = probes w ++
      flat_map (replicate runs)
        (open_configs cc0 (list_prod namespaces topKValues)) /\
    (exists n, sleeps w' = sleeps w ++ replicate n DELAY_MS).
Proof.
  intros Hks. unfold open_configs.
  induction namespaces as [|ns rest IH]; intros st w Hnd Hnew Hold; simpl.
  - exists st, w. rewrite app_nil_r. split; [reflexivity|].
    split; [reflexivity|]. exists 0%nat. now rewrite app_nil_r.
  - apply NoDup_cons in Hnd as [Hns Hnd].
    destruct (topk_loop_steady cc0 ns num runs total topKValues st w Hks)
      as (st1 & w1 & -> & Hp1 & [n1 Hs1] & Hcc1); [|exact Hold|].
    { intros x Hx. destruct (Hnew x Hx) as [H|H]; [now left|right].
      intros k _. apply H. now left. }
    destruct (IH st1 w1 Hnd) as (st' & w' & -> & Hp & [n Hs]).
    { intros x Hx. apply Hcc1 in Hx as [Hx|Hx].
      - destruct (Hnew x Hx) as [H|H]; [now left|right].
        intros ns' k Hns'. apply H. now right.
      - right. intros ns' k Hns' E.
        apply list_elem_of_fmap in Hx as (k' & -> & _).
        apply configKey_inj in E as [-> _]. exact (Hns Hns'). }
    { intros x Hx. apply Hcc1. left. now apply Hold. }
    exists st', w'. split; [reflexivity|]. split.
    + rewrite Hp, Hp1, <- app_assoc, filter_app, flat_map_app. reflexivity.
    + exists (n1 + n)%nat. rewrite Hs, Hs1. apply replicate_sleeps.
Qed.

(** X5. Against a service that answers every probe, a sweep over
    namespaces and [top_k] values listed once each, with at least one run
    per configuration, from a checkpoint in which every completed key has
    a run stored, returns. It probes each configuration that the
    checkpoint does not mark complete [runs] times, in the order of the
    two lists, and nothing else, and never waits longer than [DELAY_MS]
    between two probes. *)
Theorem steady_sweep_measures_open_configs (options : BenchmarkOptions)
    (w : World) :
  let cp := loadCheckpoint (file w) in
  let runs := default DEFAULT_RUNS (o_runs options) in
  let namespaces := default NAMESPACES (o_namespaces options) in
  let topKValues := default DEFAULT_TOP_K_VALUES (o_topK options) in
  let r := runRecallBenchmark options w in
  (0 < runs)%nat ->
  NoDup namespaces -> NoDup topKValues ->
  has_runs (completedConfigs cp) (raw_runs cp) ->
  r.1 = Return tt /\
  probes r.2 = probes w ++
    flat_map (replicate runs)
      (open_configs (completedConfigs cp) (list_prod namespaces topKValues)) /\
  exists n, sleeps r.2 = sleeps w ++ replicate n DELAY_MS.
Proof.
  cbv zeta. intros Hruns Hns Hks Hcp.
  set (cp := loadCheckpoint (file w)) in *.
  assert (Hm : exists rawRuns w1,
             Recall.measure recall_api elapse performance_now options w
               = (Return rawRuns, w1) /\
             probes w1 = probes w ++
               flat_map (replicate (default DEFAULT_RUNS (o_runs options)))
                 (open_configs (completedConfigs cp)
                    (list_prod (default NAMESPACES (o_namespaces options))
                       (default DEFAULT_TOP_K_VALUES (o_topK options)))) /\
             exists n, sleeps w1 = sleeps w ++ replicate n DELAY_MS).
  { unfold Recall.measure. fold cp.
    match goal with
    | |- context [Recall.namespace_loop _ _ _ ?nss ?ks ?num ?runs ?total ?st0 _] =>
        destruct (namespace_loop_steady (completedConfigs cp) ks num runs total
                    Hks nss st0 w Hns) as (st' & w' & -> & Hp & Hs)
    end.
    - simpl. intros x Hx. left. now apply Set_new_elem.
    - simpl. intros x Hx. now apply Set_new_elem.
    - eexists _, w'. split; [reflexivity|]. split; [exact Hp|exact Hs]. }
  destruct Hm as (rawRuns & w1 & Hm & Hp & Hs).
  pose proof (summary_loop_safe recall_api elapse performance_now options w w1
                rawRuns Hruns Hcp Hm) as Hret.
  unfold Recall.runRecallBenchmark in *. rewrite Hm in *.
  destruct (summaries_loop _ rawRuns []) as [summaries|e];
    [|discriminate Hret].
  simpl. split; [reflexivity|]. split; [exact Hp|exact Hs].
Qed.

End Steady.

End Sweep.

Lemma summaries_are_labelled_witness :
  let r := runRecallBenchmark steady_api steady_elapse steady_now two_by_two
             steady_world in
  exists result,
    output r.2 = Some result /\
    Forall2 (fun c s =>
               s_namespace s = c.1 /\ s_top_k s = c.2 /\
               s_runs s = length (configRuns (b_raw_runs result) c.1 c.2) /\
               (0 < s_runs s)%nat)
      (list_prod ["wiki-gte"; "wiki-minilm"]%string [1; 5])
      (b_summaries result).
Proof.
  apply (summaries_are_labelled steady_api steady_elapse steady_now
           two_by_two steady_world).
  vm_compute. reflexivity.
Defined.

Lemma steady_sweep_measures_open_configs_witness :
  let r := runRecallBenchmark steady_api steady_elapse steady_now two_by_two
             steady_world in
  r.1 = Return tt /\
  probes r.2 = [("wiki-gte", 5); ("wiki-minilm", 1); ("wiki-minilm", 5)] /\
  exists n, sleeps r.2 = replicate n DELAY_MS.
Proof.
  apply (steady_sweep_measures_open_configs steady_api steady_elapse
           steady_now ltac:(intros; eexists; reflexivity) two_by_two
           steady_world).
  - vm_compute. lia.
  - apply (bool_decide_unpack _). vm_compute. reflexivity.
  - apply (bool_decide_unpack _). vm_compute. reflexivity.
  - intros ns k H. apply list_elem_of_singleton in H.
    change "wiki-gte:1"%string with (configKey "wiki-gte" 1) in H.
    apply configKey_inj in H as [-> ->]. vm_compute. discriminate.
Defined.

End SweepFacts.

(** ** More about the statistics and the pool of throughput-benchmark.ts *)

Module PoolFacts.
Import JS Throughput ThroughputSpec ThroughputFacts.

Local Open Scope Q_scope.

(** *** Percentiles *)

Lemma rank_monotone (n : nat) (p q : Q) :
  p <= q -> (rank n p <= rank n q)%Z.
Proof.
  intros Hpq. unfold rank.
  enough (Qceiling (p / 100 * inject_Z (Z.of_nat n))
          <= Qceiling (q / 100 * inject_Z (Z.of_nat n)))%Z by lia.
  apply Qceiling_resp_le, Qmult_le_compat_r.
  - unfold Qdiv. apply Qmult_le_compat_r; [exact Hpq|discriminate].
  - change 0 with (inject_Z 0). rewrite <- Zle_Qle. lia.
Qed.

Lemma sorted_get (xs : list Q) (i : nat) :
  (i < length xs)%nat -> exists v, nth_error (sort after xs) i = Some v.
Proof.
  intros Hi. destruct (nth_error (sort after xs) i) eqn:E; [eauto|].
  apply nth_error_None in E. rewrite sort_length in E. lia.
Qed.

(** X9. Percentiles are monotone in [p]: on a nonempty sequence, for
    [p <= q <= 100], both percentiles exist and the one at [p] is at most
    the one at [q] (so p50 <= p95 <= p99 in every report). *)
Theorem percentile_monotone (xs : list Q) (p q : Q) :
  xs <> [] -> p <= q -> q <= 100 ->
  exists a b, percentile xs p = Some a /\ percentile xs q = Some b /\ a <= b.
Proof.
  intros Hne Hpq Hq.
  assert (Hn : (0 < length xs)%nat) by (destruct xs; [congruence|simpl; lia]).
  pose proof (rank_monotone (length xs) p q Hpq) as Hm.
  pose proof (rank_upper (length xs) q Hq) as Hu.
  rewrite !percentile_eq.
  destruct (sorted_get xs (Z.to_nat (Z.max 0 (rank (length xs) p))))
    as [a Ha]; [lia|].
  destruct (sorted_get xs (Z.to_nat (Z.max 0 (rank (length xs) q))))
    as [b Hb]; [lia|].
  exists a, b. split; [exact Ha|]. split; [exact Hb|].
  eapply (sorted_nth_le _ (sort_sorted xs)); [|exact Ha|exact Hb]. lia.
Qed.

Lemma percentile_monotone_witness :
  exists a b, percentile [30; 10; 20; 50; 40] 50 = Some a /\
    percentile [30; 10; 20; 50; 40] 95 = Some b /\ a <= b.
Proof.
  apply (percentile_monotone [30; 10; 20; 50; 40] 50 95).
  - discriminate.
  - vm_compute. discriminate.
  - vm_compute. discriminate.
Defined.

(** X10. A percentile is never interpolated: whatever [p], a value
    returned is one of the elements of the sequence; and for [p <= 100]
    the result is undefined exactly on the empty sequence. *)
Theorem percentile_is_an_observation (xs : list Q) (p : Q) :
  p <= 100 ->
  (forall v, percentile xs p = Some v -> In v xs) /\
  (percentile xs p = None <-> xs = []).
Proof.
  intros Hp. split.
  - intros v Hv. rewrite percentile_eq in Hv.
    apply in_sorted. exact (nth_error_In _ _ Hv).
  - split.
    + intros Hnone. destruct xs as [|x xs]; [reflexivity|].
      pose proof (rank_upper (length (x :: xs)) p Hp) as Hu.
      rewrite percentile_eq in Hnone.
      destruct (sorted_get (x :: xs)
                  (Z.to_nat (Z.max 0 (rank (length (x :: xs)) p))))
        as [v Hv]; [simpl length in *; lia|congruence].
    + intros ->. unfold percentile. simpl. now destruct (Z.to_nat _).
Qed.

Lemma percentile_is_an_observation_witness :
  (forall v, percentile [30; 10; 20] 50 = Some v -> In v [30; 10; 20]) /\
  (percentile [30; 10; 20] 50 = None <-> [30; 10; 20] = []).
Proof.
  apply (percentile_is_an_observation [30; 10; 20] 50).
  vm_compute. discriminate.
Defined.

(** *** The mean *)




(** *** The pool *)

Lemma steps_app (totalQueries : nat) (evs1 evs2 : list event) :
  forall st,
  steps totalQueries st (evs1 ++ evs2)
  = match steps totalQueries st evs1 with
    | Some st1 => steps totalQueries st1 evs2
    | None => None
    end.
Proof.
  induction evs1 as [|ev evs1 IH]; intros st; simpl; [reflexivity|].
  destruct (step totalQueries st ev); [apply IH|reflexivity].
Qed.

Lemma step_active (totalQueries : nat) (st st' : pool) (ev : event) :
  activeCount st = pending (workers st) ->
  step totalQueries st ev = Some st' ->
  activeCount st' = pending (workers st').
Proof.
  intros Ha. destruct ev as [wid outcome]. unfold step.
  destruct (workers st !! wid) as [[q|]|] eqn:Hw; try discriminate.
  intros [= <-]. unfold runQuery. simpl.
  pose proof (pending_insert _ wid q Finished Hw) as Hf.
  unfold is_awaiting in Hf.
  destruct (Nat.ltb_spec (completedCount st) totalQueries) as [Hlt|Hge]; simpl.
  - pose proof (pending_insert _ wid q (Awaiting (completedCount st)) Hw) as Hp.
    unfold is_awaiting in Hp. lia.
  - lia.
Qed.

Lemma steps_active (totalQueries : nat) (evs : list event) :
  forall st st',
  activeCount st = pending (workers st) ->
  steps totalQueries st evs = Some st' ->
  activeCount st' = pending (workers st').
Proof.
  induction evs as [|ev evs IH]; intros st st' Ha; simpl.
  - now intros [= <-].
  - destruct (step totalQueries st ev) as [st1|] eqn:E; [|discriminate].
    apply IH. eapply step_active; eassumption.
Qed.

Lemma pending_le_length (ws : list worker) : (pending ws <= length ws)%nat.
Proof. unfold pending. apply List.filter_length_le. Qed.

(** X12. The pool is bounded: under any schedule, [activeCount] is the
    number of queries in flight, it never exceeds the concurrency, and
    together with the settled queries it accounts for every index handed
    out. *)
Theorem pool_in_flight_bounded (totalQueries concurrency : nat)
    (evs : list event) (st : pool) :
  run_pool totalQueries concurrency evs = Some st ->
  activeCount st = pending (workers st) /\
  (activeCount st <= concurrency)%nat /\
  (activeCount st + length evs = completedCount st)%nat /\
  (completedCount st <= totalQueries)%nat.
Proof.
  intros Hrun. unfold run_pool in Hrun.
  assert (Ha : activeCount st = pending (workers st)).
  { eapply steps_active; [|exact Hrun]. rewrite start_eq. cbv zeta. simpl.
    rewrite pending_app, pending_map_awaiting, pending_replicate_finished,
      length_seq. lia. }
  apply (steps_inv totalQueries concurrency evs 0) in Hrun; [|apply start_inv].
  destruct Hrun as (Hle & _ & Hpend & _ & Hlen & _). simpl in Hpend.
  pose proof (pending_le_length (workers st)).
  repeat split; lia.
Qed.

Lemma pool_in_flight_bounded_witness :
  exists st, run_pool 37 5 (firstn 12 (round_robin 37 5)) = Some st /\
    activeCount st = pending (workers st) /\
    (activeCount st <= 5)%nat /\
    (activeCount st + length (firstn 12 (round_robin 37 5))
     = completedCount st)%nat /\
    (completedCount st <= 37)%nat.
Proof.
  destruct (run_pool 37 5 (firstn 12 (round_robin 37 5))) as [st|] eqn:E;
    [|vm_compute in E; discriminate E].
  exists st. split; [reflexivity|].
  apply (pool_in_flight_bounded 37 5 (firstn 12 (round_robin 37 5)) st E).
Defined.

Lemma drains (totalQueries concurrency : nat) :
  forall (m settled : nat) (st : pool),
  pool_inv totalQueries concurrency settled st ->
  (totalQueries - settled <= m)%nat ->
  exists evs st',
    steps totalQueries st evs = Some st' /\ resolved st' = true.
Proof.
  induction m as [|m IH]; intros settled st Hinv Hm.
  - exists [], st. split; [reflexivity|]. apply resolved_pending.
    destruct Hinv as (Hle & _ & Hpend & _). lia.
  - destruct (resolved st) eqn:Hres; [exists [], st; now split|].
    destruct (pool_progress totalQueries st Hres) as (wid & q & _ & Hstep).
    destruct (Hstep None) as [st1 Hst1].
    pose proof (step_inv _ _ _ _ _ _ Hinv Hst1) as Hinv1.
    destruct (IH (S settled) st1 Hinv1) as (evs & st' & Hrun & Hdone).
    { destruct Hinv1 as (Hle & _ & Hpend & _). lia. }
    exists ([(wid, None)] ++ evs), st'. split; [|exact Hdone].
    rewrite steps_app. change (steps totalQueries st [(wid, None)])
      with (match step totalQueries st (wid, None) with
            | Some st2 => Some st2
            | None => None
            end).
    now rewrite Hst1.
Qed.

(** X13. The pool always drains: a schedule never settles more than
    [totalQueries] queries, and whatever has settled so far, the
    settlements can go on until the pool has resolved. *)
Theorem pool_always_drains (totalQueries concurrency : nat)
    (evs : list event) (st : pool) :
  run_pool totalQueries concurrency evs = Some st ->
  (length evs <= totalQueries)%nat /\
  exists evs' st',
    run_pool totalQueries concurrency (evs ++ evs') = Some st' /\
    resolved st' = true.
Proof.
  intros Hrun. unfold run_pool in *.
  pose proof (steps_inv totalQueries concurrency evs 0 _ _
                (start_inv totalQueries concurrency) Hrun) as Hinv.
  simpl in Hinv. split.
  - destruct Hinv as (Hle & _ & Hpend & _). lia.
  - destruct (drains totalQueries concurrency totalQueries _ st Hinv)
      as (evs' & st' & Hrun' & Hdone); [lia|].
    exists evs', st'. rewrite steps_app, Hrun. now split.
Qed.

Lemma pool_always_drains_witness :
  (length (firstn 12 (round_robin 37 5)) <= 37)%nat /\
  exists evs' st',
    run_pool 37 5 (firstn 12 (round_robin 37 5) ++ evs') = Some st' /\
    resolved st' = true.
Proof.
  destruct (run_pool 37 5 (firstn 12 (round_robin 37 5))) as [st|] eqn:E;
    [|vm_compute in E; discriminate E].
  apply (pool_always_drains 37 5 (firstn 12 (round_robin 37 5)) st E).
Defined.

End PoolFacts.

(** ** More about upsert-benchmark.ts *)

Module BatchFacts.
Import JS Recall.
Import Upsert UpsertSpec UpsertFacts BatchSpec.

Local Open Scope nat_scope.

(** *** The records *)

Lemma append_inv_head (p s t : string) : p +:+ s = p +:+ t -> s = t.
Proof. induction p as [|a p IH]; simpl; [auto|]. intros [= H]. auto. Qed.

Lemma pretty_N_go_no_dash (x : N) :
  forall s, ~ RecallSpec.occurs "-" s ->
            ~ RecallSpec.occurs "-" (pretty_N_go x s).
Proof.
  induction (N.lt_wf_0 x) as [x _ IH]. intros s Hs.
  destruct (N.eq_dec x 0%N) as [->|Hx]; [now rewrite pretty_N_go_0|].
  rewrite pretty_N_go_step by lia. apply IH.
  - apply N.div_lt; lia.
  - simpl. intros [H|H]; [|exact (Hs H)].
    revert H. unfold pretty_N_char. repeat case_match; discriminate.
Qed.

Lemma pretty_nat_no_dash (i : nat) : ~ RecallSpec.occurs "-" (pretty i).
Proof.
  unfold pretty, pretty_nat, pretty, pretty_N. case_decide.
  - simpl. intros [E|[]]. discriminate E.
  - apply pretty_N_go_no_dash. simpl. tauto.
Qed.

(** A string is cut at its last dash in one way only. *)
Lemma cut_at_last_dash (s1 s2 t1 t2 : string) :
  ~ RecallSpec.occurs "-" t1 -> ~ RecallSpec.occurs "-" t2 ->
  s1 +:+ "-" +:+ t1 = s2 +:+ "-" +:+ t2 -> s1 = s2 /\ t1 = t2.
Proof.
  intros H1 H2. revert s2.
  induction s1 as [|a s1 IH]; intros [|b s2]; simpl.
  - intros [= E]. now split.
  - intros [= _ E]. change ("" +:+ t1) with t1 in E. exfalso. apply H1.
    rewrite E, RecallFacts.occurs_app. right. simpl. now left.
  - intros [= _ E]. change ("" +:+ t2) with t2 in E. exfalso. apply H2.
    rewrite <- E, RecallFacts.occurs_app. right. simpl. now left.
  - intros [= -> E]. destruct (IH s2 E) as [-> ->]. now split.
Qed.

Section Records.
Variable random : nat -> nat -> float.
Variable Date_now : nat -> Z.

Lemma synthetic_id_inj (d1 d2 i j : nat) :
  id (synthetic_record random Date_now d1 i)
  = id (synthetic_record random Date_now d2 j) -> i = j.
Proof.
  unfold synthetic_record. simpl. intros H.
  apply append_inv_head, cut_at_last_dash in H as [_ H];
    try apply pretty_nat_no_dash.
  now apply (inj pretty).
Qed.

(** X19. The generated records: as many as asked for, with pairwise
    distinct ids whatever the clock reads, and each with a vector of the
    dimension of the namespace. *)
Theorem synthetic_records_wellformed (namespace : string) (count : nat) :
  let records := generateSyntheticRecords random Date_now namespace count in
  length records = count /\
  NoDup (map id records) /\
  Forall (fun r => length (vector r) = default 1 (DIMENSION_MAP namespace))
    records.
Proof.
  cbv zeta. unfold generateSyntheticRecords.
  set (d := default 1 (DIMENSION_MAP namespace)).
  split; [now rewrite length_map, length_seq|]. split.
  - rewrite map_map.
    apply (NoDup_fmap_2_strong
             (fun i => id (synthetic_record random Date_now d i)));
      [|apply NoDup_seq].
    intros i j _ _ H. exact (synthetic_id_inj d d i j H).
  - rewrite Forall_map. apply Forall_forall. intros i _. simpl.
    unfold synthetic_vector. now rewrite !length_map, length_seq.
Qed.

End Records.

(** *** The batch loop, against any backend *)

Section Benchmark.
Variable random : nat -> nat -> float.
Variable Date_now : nat -> Z.
Context {B : Type}.
Variable ensureNamespace : B -> string -> completion unit * B.
Variable upsert_api : B -> list WikiRecord -> bool -> completion unit * B.
Variable performance_now : B -> Q.

Abbreviation World := (World (B := B)).
Abbreviation batch_loop := (batch_loop upsert_api performance_now).
Abbreviation runUpsertBenchmark :=
  (runUpsertBenchmark random Date_now ensureNamespace upsert_api
     performance_now).



(** X20. With a batch size of zero and at least one record, against a
    backend that accepts the namespace and every batch, the benchmark
    never returns: the loop sends the empty batch again and again, and
    no bound on its iterations is enough. *)
Theorem zero_batch_size_never_returns (options : UpsertBenchmarkOptions)
    (w : World) :
  o_batchSize options = Some 0 ->
  0 < default DEFAULT_TOTAL_RECORDS (o_totalRecords options) ->
  (ensureNamespace (backend w) (o_namespace options)).1 = Return tt ->
  (forall b batch flag, (upsert_api b batch flag).1 = Return tt) ->
  forall fuel, runUpsertBenchmark fuel options w = None.
Proof.
  intros HB HR Hens Hok fuel. unfold Upsert.runUpsertBenchmark.
  rewrite HB. simpl default at 2.
  destruct (ensureNamespace (backend w) (o_namespace options)) as [out b].
  simpl in Hens. subst out.
  rewrite (batch_loop_zero_batch_size upsert_api performance_now);
    [reflexivity| |exact Hok].
  intros E. apply (f_equal (@length _)) in E.
  rewrite (generated_length random Date_now) in E. simpl in E. lia.
Qed.

End Benchmark.


Lemma zero_batch_size_never_returns_witness :
  runUpsertBenchmark half epoch ok_ensure ok_upsert ok_now 1000
    {| o_namespace := "wiki-gte"; o_totalRecords := Some 3;
       o_batchSize := Some 0 |}
    {| backend := 0%Z; trace := [] |} = None.
Proof.
  apply (zero_batch_size_never_returns half epoch ok_ensure ok_upsert ok_now
           {| o_namespace := "wiki-gte"; o_totalRecords := Some 3;
              o_batchSize := Some 0 |}
           {| backend := 0%Z; trace := [] |}).
  - reflexivity.
  - simpl. lia.
  - reflexivity.
  - intros b batch flag. reflexivity.
Defined.

End BatchFacts.

(** ** throughput-benchmark.ts, around the pool *)

Module RunFacts.
Import JS Throughput ThroughputSpec ThroughputFacts ThroughputRun RunSpec.

Section Namespace.
Context {B : Type}.
Variable stats_api : B -> string -> completion Z * B.
Variable query_api :
  B -> string -> QueryParams -> completion (list VectorQueryResult) * B.
Variable random : nat -> float.

Abbreviation World := (World (B := B)).
Abbreviation getRandomVector := (getRandomVector stats_api query_api random).
Abbreviation warmup := (warmup query_api).
Abbreviation benchmarkNamespace :=
  (benchmarkNamespace stats_api query_api random).
Abbreviation namespaces_loop := (namespaces_loop stats_api query_api random).
Abbreviation runThroughputBenchmark :=
  (runThroughputBenchmark stats_api query_api random).

Lemma call_query_log namespace params (w : World) :
  log (call_query query_api namespace params w).2
  = log w ++ [Query namespace params].
Proof.
  unfold call_query. now destruct (query_api (backend w) namespace params).
Qed.

(** The sample costs one [stats] call and at most one query. *)
Lemma getRandomVector_log namespace (w : World) :
  let r := getRandomVector namespace w in
  (r.1 = None /\ log r.2 = log w ++ [Stats namespace]) \/
  exists probe, is_probe namespace probe /\
    log r.2 = log w ++ [Stats namespace; Query namespace probe].
Proof.
  cbv zeta. unfold ThroughputRun.getRandomVector, call_stats.
  destruct (stats_api (backend w) namespace) as [[n|e] b]; [|now left].
  destruct (n =? 0)%Z; [now left|]. right.
  unfold generateRandomVector.
  match goal with
  | |- context [call_query _ _ ?p ?w0] =>
      exists p; pose proof (call_query_log namespace p w0) as Hlog;
      destruct (call_query query_api namespace p w0) as [[result|e] w3]
  end; simpl in Hlog.
  - assert (Hp : forall v, is_probe namespace
                   {| q_vector := v; q_topK := 1; q_includeVector := Some true |}
                 <-> length v = default 1%nat (DIMENSION_MAP namespace)).
    { intros v. unfold is_probe. simpl. tauto. }
    split; [apply Hp; now rewrite !length_map, length_seq|].
    rewrite <- app_assoc in Hlog. simpl in Hlog.
    destruct result as [|hit ?]; [exact Hlog|].
    destruct (h_vector hit); exact Hlog.
  - split; [|rewrite <- app_assoc in Hlog; exact Hlog].
    unfold is_probe. simpl. now rewrite !length_map, length_seq.
Qed.

Lemma warmup_log namespace params :
  forall (n : nat) (w : World),
  let r := warmup n namespace params w in
  exists m, (m <= n)%nat /\
    log r.2 = log w ++ replicate m (Query namespace params) /\
    match r.1 with
    | Return _ => m = n
    | Throw _ => (1 <= m)%nat
    end.
Proof.
  cbv zeta. induction n as [|n IH]; intros w; simpl.
  - exists 0%nat. rewrite app_nil_r. repeat split; lia.
  - pose proof (call_query_log namespace params w) as Hlog.
    destruct (call_query query_api namespace params w) as [[result|e] w1];
      simpl in Hlog.
    + destruct (IH w1) as (m & Hm & Hl & Hr). exists (S m).
      split; [lia|]. split.
      * rewrite Hl, Hlog, <- app_assoc. reflexivity.
      * destruct (warmup n namespace params w1).1; lia.
    + exists 1%nat. simpl. split; [lia|]. split; [exact Hlog|lia].
Qed.

(** What the pool has done once [Promise.all(workers)] has resolved. *)
Lemma resolved_pool (totalQueries concurrency : nat) (evs : list event)
    (st : pool) :
  run_pool totalQueries concurrency evs = Some st ->
  resolved st = true ->
  (length (latencies st) + errors st = length evs)%nat /\
  length (claims st) = length evs /\
  ((1 <= concurrency)%nat -> length evs = totalQueries) /\
  (concurrency = 0%nat -> length evs = 0%nat).
Proof.
  intros Hrun Hres. split; [|split; [|split]].
  - unfold run_pool in Hrun.
    apply (steps_inv totalQueries concurrency evs 0) in Hrun;
      [|apply start_inv].
    destruct Hrun as (_ & _ & _ & Hset & _). exact Hset.
  - unfold run_pool in Hrun.
    apply (steps_inv totalQueries concurrency evs 0) in Hrun;
      [|apply start_inv].
    destruct Hrun as (_ & Hclaims & Hpend & _).
    apply resolved_pending in Hres.
    apply (f_equal (@length _)) in Hclaims.
    rewrite length_map, length_seq in Hclaims. simpl in Hpend. lia.
  - intros HK. unfold run_pool in Hrun.
    apply (steps_inv totalQueries concurrency evs 0) in Hrun;
      [|apply start_inv].
    destruct Hrun as (_ & _ & Hpend & _ & Hlen & Hfin).
    pose proof Hres as Hp. apply resolved_pending in Hp. simpl in Hpend.
    rewrite <- Hfin; [lia|].
    apply not_pending_finished; [exact Hp|].
    intros E. rewrite E in Hlen. simpl in Hlen. lia.
  - intros ->. destruct evs as [|[wid outcome] evs]; [reflexivity|].
    unfold run_pool in Hrun. simpl in Hrun. discriminate Hrun.
Qed.

(** A result carries the namespace it was measured on, and with at least
    one worker its successes and errors number [totalQueries]; its [qps]
    is not negative when the clock has moved. *)
Lemma benchmark_counts (backendName namespace : string)
    (totalQueries : nat) (topK : Z) (concurrency warmupQueries : nat)
    (schedule : Schedule) (w w' : World) (r : ThroughputResult) :
  benchmarkNamespace backendName namespace totalQueries topK concurrency
    warmupQueries schedule w = Some (Return (Some r), w') ->
  t_namespace r = namespace /\
  ((1 <= concurrency)%nat ->
   (total_queries r + t_errors r = totalQueries)%nat) /\
  ((0 < elapsed_ms schedule)%Q -> (0 <= qps r)%Q).
Proof.
  unfold ThroughputRun.benchmarkNamespace.
  destruct (getRandomVector namespace w) as [[sample|] w2]; [|discriminate].
  destruct (ThroughputRun.warmup _ _ _ _ _) as [[[]|e] w3]; [|discriminate].
  destruct (run_pool _ _ _) as [st|] eqn:Hrun; [|discriminate].
  destruct (resolved st) eqn:Hres; [|discriminate].
  destruct (resolved_pool _ _ _ _ Hrun Hres) as (Hset & _ & HK & _).
  intros [= <- _]. simpl. split; [reflexivity|]. split.
  - intros H. rewrite <- (HK H). exact Hset.
  - intros Hpos. apply Qle_shift_div_l.
    + apply Qlt_shift_div_l; [reflexivity|]. rewrite Qmult_0_l. exact Hpos.
    + rewrite Qmult_0_l. change 0%Q with (inject_Z 0).
      rewrite <- Zle_Qle. lia.
Qed.

(** X14. A namespace whose row count is zero, or whose [stats] call is
    rejected, is skipped: whatever the schedule and the options, the
    benchmark returns [null] and the [stats] call is the only call it
    makes. *)
Theorem empty_namespace_is_skipped (backendName namespace : string)
    (totalQueries : nat) (topK : Z) (concurrency warmupQueries : nat)
    (schedule : Schedule) (w : World) :
  (stats_api (backend w) namespace).1 = Return 0%Z \/
  (exists e, (stats_api (backend w) namespace).1 = Throw e) ->
  exists w',
    benchmarkNamespace backendName namespace totalQueries topK concurrency
      warmupQueries schedule w = Some (Return None, w') /\
    log w' = log w ++ [Stats namespace].
Proof.
  intros H. unfold ThroughputRun.benchmarkNamespace,
    ThroughputRun.getRandomVector, call_stats.
  destruct (stats_api (backend w) namespace) as [out b]. simpl in H.
  destruct H as [->|[e ->]]; simpl; eexists; split; reflexivity.
Qed.

(** X15. A benchmark that returns a result has accounted for every
    query. After the [stats] call and the probe it has made
    [warmupQueries] queries and then one per settlement of the pool, all
    with the vector of the sample and the [top_k] of the options; the
    successes and the errors it reports are the settlements; with at
    least one worker they number [totalQueries], and without a worker
    the pool has made no query at all. *)
Theorem benchmark_accounts_for_every_query (backendName namespace : string)
    (totalQueries : nat) (topK : Z) (concurrency warmupQueries : nat)
    (schedule : Schedule) (w w' : World) (r : ThroughputResult) :
  benchmarkNamespace backendName namespace totalQueries topK concurrency
    warmupQueries schedule w = Some (Return (Some r), w') ->
  let n := length (settlements schedule) in
  (total_queries r + t_errors r = n)%nat /\
  ((1 <= concurrency)%nat -> n = totalQueries) /\
  (concurrency = 0%nat -> n = 0%nat) /\
  exists probe params,
    is_probe namespace probe /\
    q_topK params = topK /\ q_includeVector params = None /\
    length (q_vector params) = dimensions r /\
    log w' = log w ++ [Stats namespace; Query namespace probe]
               ++ replicate (warmupQueries + n) (Query namespace params).
Proof.
  cbv zeta. unfold ThroughputRun.benchmarkNamespace.
  pose proof (getRandomVector_log namespace w) as Hprobe. cbv zeta in Hprobe.
  destruct (getRandomVector namespace w) as [[sample|] w1]; [|discriminate].
  simpl in Hprobe. destruct Hprobe as [[H _]|(probe & Hprobe & Hlog1)];
    [discriminate H|].
  match goal with
  | |- context [ThroughputRun.warmup _ _ _ ?p _] =>
      set (params := p);
      pose proof (warmup_log namespace params warmupQueries w1) as Hwarm
  end.
  cbv zeta in Hwarm.
  destruct (warmup warmupQueries namespace params w1) as [[[]|e] w2];
    [|discriminate].
  destruct Hwarm as (m & _ & Hlog2 & ->). simpl in Hlog2.
  destruct (run_pool totalQueries concurrency (settlements schedule))
    as [st|] eqn:Hrun; [|discriminate].
  destruct (resolved st) eqn:Hres; [|discriminate].
  destruct (resolved_pool _ _ _ _ Hrun Hres) as (Hset & Hclaims & HK & H0).
  intros [= <- <-]. simpl.
  split; [exact Hset|]. split; [exact HK|]. split; [exact H0|].
  exists probe, params. split; [exact Hprobe|].
  split; [reflexivity|]. split; [reflexivity|]. split; [reflexivity|].
  rewrite Hclaims, Hlog2, Hlog1, replicate_add, <- !app_assoc. reflexivity.
Qed.


(** *** The report *)

Lemma after_qps_true (a b : ThroughputResult) :
  after_qps a b = true <-> (qps a < qps b)%Q.
Proof. apply after_true. Qed.

Lemma sort_insert_qps_perm (x : ThroughputResult) (l : list ThroughputResult) :
  Permutation (sort_insert after_qps x l) (x :: l).
Proof.
  induction l as [|y l IH]; simpl; [reflexivity|].
  destruct (after_qps x y); [|reflexivity].
  rewrite IH. apply perm_swap.
Qed.

Lemma sort_qps_perm (l : list ThroughputResult) :
  Permutation (sort after_qps l) l.
Proof.
  induction l as [|x l IH]; simpl; [reflexivity|].
  unfold sort in *. simpl. rewrite sort_insert_qps_perm. now constructor.
Qed.

Lemma sort_insert_qps_sorted (x : ThroughputResult)
    (l : list ThroughputResult) :
  StronglySorted descending l ->
  StronglySorted descending (sort_insert after_qps x l).
Proof.
  unfold descending.
  induction 1 as [|y l Hl IH Hy]; simpl.
  - repeat constructor.
  - destruct (after_qps x y) eqn:E.
    + apply after_qps_true in E. constructor; [exact IH|].
      rewrite Forall_forall. intros z Hz.
      apply list_elem_of_In in Hz.
      apply (Permutation_in _ (sort_insert_qps_perm x l)) in Hz.
      destruct Hz as [<-|Hz]; [now apply Qlt_le_weak|].
      rewrite Forall_forall in Hy. apply Hy. now apply list_elem_of_In.
    + apply not_true_iff_false in E. rewrite after_qps_true in E.
      apply Qnot_lt_le in E.
      constructor; [now constructor|].
      constructor; [exact E|].
      eapply Forall_impl; [exact Hy|].
      intros z Hz. simpl in Hz. now apply Qle_trans with (qps y).
Qed.

Lemma sort_qps_sorted (l : list ThroughputResult) :
  StronglySorted descending (sort after_qps l).
Proof.
  induction l as [|x l IH]; [constructor|].
  unfold sort in *. simpl. now apply sort_insert_qps_sorted.
Qed.

(** Every result gathered by the loop is the result of one of the
    namespaces, under the schedule of its position. *)
Lemma namespaces_loop_results (backendName : string) (totalQueries : nat)
    (topK : Z) (concurrency warmupQueries : nat)
    (schedules : nat -> Schedule) (P : ThroughputResult -> Prop) :
  (forall namespace i w w' r,
     benchmarkNamespace backendName namespace totalQueries topK concurrency
       warmupQueries (schedules i) w = Some (Return (Some r), w') ->
     P r) ->
  forall (namespaces : list string) (i : nat)
         (results results' : list ThroughputResult) (w w' : World),
  namespaces_loop namespaces i backendName totalQueries topK concurrency
    warmupQueries schedules results w = Some (Return results', w') ->
  Forall P results ->
  Forall P results' /\
  (length results' <= length results + length namespaces)%nat /\
  map t_namespace results' `sublist_of`
    map t_namespace results ++ namespaces.
Proof.
  intros HP. induction namespaces as [|namespace rest IH];
    intros i results results' w w'; simpl.
  - intros [= <- <-] H. rewrite app_nil_r. split; [exact H|]. split; [lia|].
    reflexivity.
  - destruct (benchmarkNamespace backendName namespace totalQueries topK
                concurrency warmupQueries (schedules i) w)
      as [[[result|e] w1]|] eqn:Hb; try discriminate.
    intros Hloop Hall. apply IH in Hloop as (H1 & H2 & H3).
    + split; [exact H1|]. destruct result as [r|].
      * rewrite length_app in H2. simpl in H2. split; [lia|].
        destruct (benchmark_counts _ _ _ _ _ _ _ _ _ _ Hb) as (Hn & _).
        rewrite map_app, <- app_assoc in H3. simpl in H3.
        now rewrite Hn in H3.
      * split; [lia|]. etrans; [exact H3|].
        apply sublist_app; [reflexivity|]. now apply sublist_cons.
    + destruct result as [r|]; [|exact Hall].
      apply Forall_app. split; [exact Hall|].
      constructor; [|constructor]. eapply HP. exact Hb.
Qed.

(** X17. The report of a throughput benchmark that returns, when every
    pool took some time on the clock and there is at least one worker.
    Its results are in descending order of [qps]; no namespace is
    reported that is not in the list, nor more often than it is listed;
    and every result accounts for [totalQueries] queries, with a [qps]
    that is not negative. *)
Theorem report_is_sorted_and_accounted (options : ThroughputBenchmarkOptions)
    (schedules : nat -> Schedule) (w w' : World)
    (results : list ThroughputResult) :
  let totalQueries := default DEFAULT_TOTAL_QUERIES (o_totalQueries options) in
  let concurrency := default DEFAULT_CONCURRENCY (o_concurrency options) in
  let namespaces := default NAMESPACES (o_namespaces options) in
  runThroughputBenchmark options schedules w = Some (Return results, w') ->
  (forall i, 0 < elapsed_ms (schedules i))%Q ->
  (1 <= concurrency)%nat ->
  StronglySorted descending results /\
  map t_namespace results ⊆+ namespaces /\
  Forall (fun r => (total_queries r + t_errors r = totalQueries)%nat /\
                   (0 <= qps r)%Q) results.
Proof.
  cbv zeta. unfold ThroughputRun.runThroughputBenchmark.
  set (totalQueries := default DEFAULT_TOTAL_QUERIES (o_totalQueries options)).
  set (concurrency := default DEFAULT_CONCURRENCY (o_concurrency options)).
  set (namespaces := default NAMESPACES (o_namespaces options)).
  destruct (namespaces_loop namespaces 0 _ _ _ _ _ schedules [] w)
    as [[[results0|e] w1]|] eqn:Hloop; try discriminate.
  intros [= <- <-] Hpos HK.
  apply (namespaces_loop_results _ _ _ _ _ _
           (fun r => (total_queries r + t_errors r = totalQueries)%nat /\
                     (0 <= qps r)%Q)) in Hloop as (Hall & Hlen & Hsub);
    [| |constructor].
  - split; [apply sort_qps_sorted|].
    pose proof (sort_qps_perm results0) as Hperm. split.
    + simpl in Hsub. etrans; [|apply sublist_submseteq; exact Hsub].
      apply Permutation_submseteq, Permutation_map, Hperm.
    + apply Forall_forall. intros r Hr.
      apply list_elem_of_In, (Permutation_in _ Hperm), list_elem_of_In in Hr.
      rewrite Forall_forall in Hall. exact (Hall r Hr).
  - intros namespace i w0 w0' r Hb.
    destruct (benchmark_counts _ _ _ _ _ _ _ _ _ _ Hb) as (_ & H1 & H2).
    split; [exact (H1 HK)|exact (H2 (Hpos i))].
Qed.

End Namespace.

Lemma empty_namespace_is_skipped_witness :
  exists w',
    benchmarkNamespace empty_stats ready_query coin "tpuf" "wiki-gte" 12 10 3 2
      (in_turn 12 3) fresh = Some (Return None, w') /\
    log w' = [Stats "wiki-gte"].
Proof.
  apply (empty_namespace_is_skipped empty_stats ready_query coin
           "tpuf" "wiki-gte" 12 10 3 2 (in_turn 12 3) fresh).
  left. reflexivity.
Defined.

Lemma benchmark_accounts_for_every_query_witness :
  exists r w',
    benchmarkNamespace ready_stats ready_query coin "tpuf" "wiki-gte" 12 10 3 2
      (in_turn 12 3) fresh = Some (Return (Some r), w') /\
    (total_queries r + t_errors r
     = length (settlements (in_turn 12 3)))%nat /\
    ((1 <= 3)%nat -> length (settlements (in_turn 12 3)) = 12%nat) /\
    (3%nat = 0%nat -> length (settlements (in_turn 12 3)) = 0%nat) /\
    exists probe params,
      is_probe "wiki-gte" probe /\
      q_topK params = 10 /\ q_includeVector params = None /\
      length (q_vector params) = dimensions r /\
      log w' = log fresh ++ [Stats "wiki-gte"; Query "wiki-gte" probe]
                 ++ replicate (2 + length (settlements (in_turn 12 3)))
                      (Query "wiki-gte" params).
Proof.
  destruct (benchmarkNamespace ready_stats ready_query coin "tpuf" "wiki-gte"
              12 10 3 2 (in_turn 12 3) fresh) as [[[[r|]|e] w']|] eqn:E;
    try (vm_compute in E; discriminate E).
  exists r, w'. split; [reflexivity|].
  exact (benchmark_accounts_for_every_query ready_stats ready_query coin
           "tpuf" "wiki-gte" 12 10 3 2 (in_turn 12 3) fresh w' r E).
Defined.


Lemma report_is_sorted_and_accounted_witness :
  exists results w',
    runThroughputBenchmark ready_stats ready_query coin small_run paced fresh
      = Some (Return results, w') /\
    StronglySorted descending results /\
    map t_namespace results ⊆+ ["wiki-gte"; "wiki-minilm"]%string /\
    Forall (fun r => (total_queries r + t_errors r = 12)%nat /\
                     (0 <= qps r)%Q) results.
Proof.
  destruct (runThroughputBenchmark ready_stats ready_query coin small_run
              paced fresh) as [[[results|e] w']|] eqn:E;
    try (vm_compute in E; discriminate E).
  exists results, w'. split; [reflexivity|].
  apply (report_is_sorted_and_accounted ready_stats ready_query coin
           small_run paced fresh w' results E).
  - intros i. unfold paced. simpl. destruct (Nat.eqb i 0); reflexivity.
  - simpl. lia.
Defined.

End RunFacts.

(** ** embed.ts, [embedBatchWithRetry] *)

Module EmbedFacts.
Import JS EmbedBatch EmbedSpec.

(** *** The suspensions *)

Lemma ltb_leb (x y : float) :
  PrimFloat.ltb x y = true -> PrimFloat.leb x y = true.
Proof.
  rewrite ltb_spec, leb_spec. unfold SFltb, SFleb.
  destruct (SFcompare _ _) as [[]|]; congruence.
Qed.

Lemma max2_at_least (a r : float) :
  PrimFloat.is_nan a = false -> PrimFloat.is_nan r = false ->
  is_neg_zero a = false -> at_least a a ->
  at_least a (max2 a r).
Proof.
  unfold at_least, max2. intros -> -> -> Ha. simpl.
  destruct (PrimFloat.ltb a r) eqn:E; [now apply ltb_leb|].
  destruct (PrimFloat.ltb r a); exact Ha.
Qed.

Lemma backoff_at_least (parseFloat : string -> float) (attempt : nat)
    (e : ApiError) :
  (1 <= attempt <= MAX_RETRIES)%nat ->
  at_least (base attempt) (backoff_after parseFloat attempt e).
Proof.
  unfold MAX_RETRIES. intros H. unfold backoff_after. fold (base attempt).
  assert (Hb : PrimFloat.is_nan (base attempt) = false /\
               is_neg_zero (base attempt) = false /\
               at_least (base attempt) (base attempt)).
  { destruct attempt as [|[|[|[|[|[|n]]]]]]; try lia;
      repeat split; vm_compute; reflexivity. }
  destruct Hb as (Hn & Hz & Hr).
  destruct (retry_after e) as [s|]; [|exact Hr].
  destruct (truthy s); [|exact Hr].
  destruct (PrimFloat.is_nan (parseFloat s * 1000)) eqn:En; [exact Hr|].
  simpl. destruct (PrimFloat.ltb 0 (parseFloat s * 1000)); [|exact Hr].
  now apply max2_at_least.
Qed.

Lemma backoff_without_hint (parseFloat : string -> float) (attempt : nat)
    (e : ApiError) :
  retry_after e = None -> backoff_after parseFloat attempt e = base attempt.
Proof. unfold backoff_after. now intros ->. Qed.

Section Retry.
Context {B : Type}.
Variable create_api : B -> string -> list string -> nat -> outcome * B.
Variable elapse : float -> B -> B.
Variable parseFloat : string -> float.

Abbreviation World := (World (B := B)).
Abbreviation retry_loop := (retry_loop create_api elapse parseFloat).
Abbreviation embedBatchWithRetry :=
  (embedBatchWithRetry create_api elapse parseFloat).

Lemma call_create_eq model texts dimensions (w : World) :
  call_create create_api model texts dimensions w
  = ((create_api (backend w) model texts dimensions).1,
     {| backend := (create_api (backend w) model texts dimensions).2;
        requests := requests w ++ [texts]; sleeps := sleeps w |}).
Proof. unfold call_create. now destruct (create_api _ _ _ _). Qed.

(** From [attempt] on, the loop takes [n] suspensions and makes [n + 1]
    calls, where [attempt + n] stays within [MAX_RETRIES]; each
    suspension is at least the backoff of its retry. *)
Lemma embed_retry_loop_shape texts model dimensions :
  forall (fuel attempt : nat) (w : World) res w',
  retry_loop fuel texts model dimensions attempt w = Some (res, w') ->
  exists ds,
    (attempt <= MAX_RETRIES -> attempt + length ds <= MAX_RETRIES)%nat /\
    sleeps w' = sleeps w ++ ds /\
    requests w' = requests w ++ replicate (S (length ds)) texts /\
    Forall2 at_least (map base (seq (S attempt) (length ds))) ds.
Proof.
  induction fuel as [|fuel IH]; intros attempt w res w'; [discriminate|].
  simpl. rewrite call_create_eq.
  destruct (create_api (backend w) model texts dimensions).1 as [r|e].
  - intros [= <- <-]. exists []. simpl. rewrite app_nil_r.
    repeat split; [lia|constructor].
  - destruct (Embed.isRetryable (err e) && (attempt <? MAX_RETRIES)%nat)
      eqn:E.
    + apply andb_true_iff in E as [_ E]. apply Nat.ltb_lt in E.
      intros H. apply IH in H as (ds & Hn & Hs & Hr & Hall). simpl in *.
      exists (backoff_after parseFloat (S attempt) e :: ds).
      split; [simpl; lia|]. rewrite Hs, Hr, <- !app_assoc.
      split; [reflexivity|]. split; [reflexivity|].
      simpl. constructor; [|exact Hall].
      apply backoff_at_least. lia.
    + intros [= <- <-]. exists []. simpl. rewrite app_nil_r.
      repeat split; [lia|constructor].
Qed.

Lemma embed_retry_loop_fuel texts model dimensions :
  forall (fuel attempt : nat) (w : World),
  (S MAX_RETRIES - attempt <= fuel)%nat -> (attempt <= MAX_RETRIES)%nat ->
  is_Some (retry_loop fuel texts model dimensions attempt w).
Proof.
  induction fuel as [|fuel IH]; intros attempt w Hf Ha; [lia|].
  simpl. rewrite call_create_eq.
  destruct (create_api (backend w) model texts dimensions).1 as [r|e];
    [eauto|].
  destruct (Embed.isRetryable (err e) && (attempt <? MAX_RETRIES)%nat)
    eqn:E; [|eauto].
  apply andb_true_iff in E as [_ E]. apply Nat.ltb_lt in E.
  apply IH; lia.
Qed.

Lemma embedBatchWithRetry_eq texts model dimensions (w : World) :
  retry_loop (S MAX_RETRIES) texts model dimensions 0 w
  = Some (embedBatchWithRetry texts model dimensions w).
Proof.
  unfold EmbedBatch.embedBatchWithRetry.
  destruct (embed_retry_loop_fuel texts model dimensions (S MAX_RETRIES) 0 w)
    as [r Hr]; [lia|lia|].
  now rewrite Hr.
Qed.

(** X24. Whatever the service answers, one batch makes at most
    [MAX_RETRIES + 1 = 6] calls, all with the same texts, and takes one
    suspension fewer than it makes calls; the suspension before retry
    number [i] is at least the backoff [1000 * 2^(i-1)] milliseconds: a
    Retry-After hint can lengthen a wait and never shortens it. *)
Theorem embed_retry_is_bounded_and_patient texts model dimensions
    (w : World) :
  let r := embedBatchWithRetry texts model dimensions w in
  exists ds,
    (length ds <= MAX_RETRIES)%nat /\
    sleeps r.2 = sleeps w ++ ds /\
    requests r.2 = requests w ++ replicate (S (length ds)) texts /\
    Forall2 at_least
      (firstn (length ds)
         [1000%float; 2000%float; 4000%float; 8000%float; 16000%float]) ds.
Proof.
  cbv zeta. pose proof (embedBatchWithRetry_eq texts model dimensions w) as E.
  destruct (embedBatchWithRetry texts model dimensions w) as [res w'].
  apply embed_retry_loop_shape in E as (ds & Hn & Hs & Hr & Hall).
  assert (Hle : (length ds <= MAX_RETRIES)%nat)
    by (apply Hn; unfold MAX_RETRIES; lia).
  exists ds. split; [exact Hle|]. split; [exact Hs|]. split; [exact Hr|].
  replace (firstn (length ds) _) with (map base (seq 1 (length ds)));
    [exact Hall|].
  unfold MAX_RETRIES in Hle.
  destruct (length ds) as [|[|[|[|[|[|n]]]]]]; try lia; vm_compute;
    reflexivity.
Qed.

Lemma embed_retry_loop_answers texts model dimensions (response : Response) :
  forall (es : list ApiError) (fuel attempt : nat) (w : World),
  Forall (fun e => Embed.isRetryable (err e) = true) es ->
  (attempt + length es <= MAX_RETRIES)%nat ->
  (length es < fuel)%nat ->
  answers create_api elapse parseFloat model texts dimensions attempt es
    response (backend w) ->
  exists w',
    retry_loop fuel texts model dimensions attempt w
    = Some (Returned
              {| embeddings :=
                   map embedding (sort after_index (data response));
                 totalTokens := usage_total_tokens response |}, w') /\
    sleeps w' = sleeps w ++ suspensions parseFloat attempt es /\
    requests w' = requests w ++ replicate (S (length es)) texts.
Proof.
  induction es as [|e es IH]; intros fuel attempt w Hret Hlen Hfuel Hans;
    (destruct fuel as [|fuel]; [simpl in Hfuel; lia|]); simpl in *.
  - rewrite call_create_eq, Hans. eexists. split; [reflexivity|].
    simpl. now rewrite app_nil_r.
  - destruct Hans as [He Hans]. apply Forall_cons in Hret as [Hre Hret].
    rewrite call_create_eq, He, Hre.
    assert (Hlt : (attempt <? MAX_RETRIES)%nat = true)
      by (apply Nat.ltb_lt; lia).
    rewrite Hlt. simpl.
    match goal with
    | |- context [EmbedBatch.retry_loop _ _ _ _ _ _ _ _ ?w0] =>
        destruct (IH fuel (S attempt) w0 Hret) as (w' & -> & Hs & Hr);
          [lia|lia|exact Hans|]
    end.
    exists w'. split; [reflexivity|]. simpl in Hs, Hr.
    rewrite Hs, Hr, <- !app_assoc. split; reflexivity.
Qed.

(** X25. A call rejected up to [MAX_RETRIES] times with status 429 or a
    status of 500 or more, and then answered, returns the answer: the
    rate limit is retried like a server error. It takes one suspension
    per rejection, each computed from the rejection it follows, and
    where a rejection carries no Retry-After header the suspension is
    the backoff itself. *)
Theorem rate_limit_is_retried texts model dimensions (es : list ApiError)
    (response : Response) (w : World) :
  Forall (fun e => exists s, Recall.status (err e) = Some s /\
                             (s = 429 \/ 500 <= s)) es ->
  (length es <= MAX_RETRIES)%nat ->
  answers create_api elapse parseFloat model texts dimensions 0 es response
    (backend w) ->
  exists r w',
    embedBatchWithRetry texts model dimensions w = (Returned r, w') /\
    totalTokens r = usage_total_tokens response /\
    sleeps w' = sleeps w ++ suspensions parseFloat 0 es /\
    requests w' = requests w ++ replicate (S (length es)) texts /\
    (Forall (fun e => retry_after e = None) es ->
     suspensions parseFloat 0 es = map base (seq 1 (length es))).
Proof.
  intros Hret Hlen Hans.
  destruct (embed_retry_loop_answers texts model dimensions response es
              (S MAX_RETRIES) 0 w) as (w' & Hrun & Hs & Hr);
    [|lia|lia|exact Hans|].
  { eapply Forall_impl; [exact Hret|]. intros e He. simpl in He.
    now apply RecallFacts.embed_isRetryable_iff. }
  rewrite embedBatchWithRetry_eq in Hrun. injection Hrun as ->.
  eexists _, w'. split; [reflexivity|]. split; [reflexivity|].
  split; [exact Hs|]. split; [exact Hr|].
  clear. generalize 0%nat. induction es as [|e es IH]; intros attempt Hall;
    [reflexivity|].
  apply Forall_cons in Hall as [He Hall]. simpl.
  rewrite backoff_without_hint by exact He. f_equal. now apply IH.
Qed.

End Retry.

(** *** The order of the embeddings *)

Lemma after_index_true (a b : EmbeddingItem) :
  after_index a b = true <-> index b < index a.
Proof. unfold after_index. rewrite Z.ltb_lt. lia. Qed.

Lemma sort_insert_index_perm (x : EmbeddingItem) (l : list EmbeddingItem) :
  Permutation (sort_insert after_index x l) (x :: l).
Proof.
  induction l as [|y l IH]; simpl; [reflexivity|].
  destruct (after_index x y); [|reflexivity].
  rewrite IH. apply perm_swap.
Qed.

Lemma sort_index_perm (l : list EmbeddingItem) :
  Permutation (sort after_index l) l.
Proof.
  induction l as [|x l IH]; simpl; [reflexivity|].
  unfold sort in *. simpl. rewrite sort_insert_index_perm. now constructor.
Qed.

Lemma sort_insert_index_sorted (x : EmbeddingItem) (l : list EmbeddingItem) :
  StronglySorted Z.le (map index l) ->
  StronglySorted Z.le (map index (sort_insert after_index x l)).
Proof.
  induction l as [|y l IH]; simpl; intros Hl.
  - repeat constructor.
  - apply StronglySorted_inv in Hl as [Hl Hy].
    destruct (after_index x y) eqn:E; simpl.
    + apply after_index_true in E. constructor; [now apply IH|].
      rewrite Forall_forall. intros z Hz.
      apply list_elem_of_In, in_map_iff in Hz as (i & <- & Hi).
      apply (Permutation_in _ (sort_insert_index_perm x l)) in Hi.
      destruct Hi as [<-|Hi]; [lia|].
      rewrite Forall_forall in Hy. apply Hy, list_elem_of_In, in_map.
      exact Hi.
    + apply not_true_iff_false in E. rewrite after_index_true in E.
      constructor; [now constructor|].
      constructor; [lia|].
      eapply Forall_impl; [exact Hy|]. intros z Hz. simpl in Hz. lia.
Qed.

Lemma sort_index_sorted (l : list EmbeddingItem) :
  StronglySorted Z.le (map index (sort after_index l)).
Proof.
  induction l as [|x l IH]; [constructor|].
  unfold sort in *. simpl. now apply sort_insert_index_sorted.
Qed.

Lemma seq_sorted (n : nat) :
  forall s, StronglySorted Z.le (map Z.of_nat (seq s n)).
Proof.
  induction n as [|n IH]; intros s; simpl; constructor; [apply IH|].
  rewrite Forall_forall. intros z Hz.
  apply list_elem_of_In, in_map_iff in Hz as (i & <- & Hi).
  apply in_seq in Hi. lia.
Qed.

(** X29. The embeddings are returned in the order of their index, not in
    the order of the response: when the response to the first call
    numbers its items 0, 1, ... in whatever order, the embedding
    returned at position [i] is the one of the item numbered [i], so
    that it is paired with the [i]-th text. *)
Theorem embeddings_follow_the_index {B : Type}
    (create_api : B -> string -> list string -> nat -> outcome * B)
    (elapse : float -> B -> B) (parseFloat : string -> float)
    texts model dimensions (response : Response) (w : World (B := B)) :
  (create_api (backend w) model texts dimensions).1 = Resolved response ->
  numbered response ->
  exists r w',
    embedBatchWithRetry create_api elapse parseFloat texts model dimensions w
      = (Returned r, w') /\
    length (embeddings r) = length (data response) /\
    forall item, In item (data response) ->
      nth_error (embeddings r) (Z.to_nat (index item))
      = Some (embedding item).
Proof.
  intros Hres Hnum.
  unfold EmbedBatch.embedBatchWithRetry. simpl.
  rewrite call_create_eq, Hres.
  eexists _, _. split; [reflexivity|]. simpl.
  pose proof (sort_index_perm (data response)) as Hperm.
  split; [now rewrite length_map, (Permutation_length Hperm)|].
  assert (Hkeys : map index (sort after_index (data response))
                  = map Z.of_nat (seq 0 (length (data response)))).
  { apply (@StronglySorted_unique _ Z.le _);
      [apply sort_index_sorted|apply seq_sorted|].
    etrans; [apply Permutation_map, Hperm|exact Hnum]. }
  intros item Hin.
  apply (Permutation_in _ (Permutation_sym Hperm)) in Hin.
  apply In_nth_error in Hin as [i Hi].
  assert (Hidx : index item = Z.of_nat i).
  { pose proof (map_nth_error index _ _ Hi) as H1.
    rewrite Hkeys in H1.
    assert (Hlt : (i < length (data response))%nat).
    { rewrite <- (Permutation_length Hperm).
      apply nth_error_Some. congruence. }
    rewrite (map_nth_error Z.of_nat i (seq 0 (length (data response)))
               (d := i)) in H1; [congruence|].
    rewrite nth_error_nth' with (d := 0%nat) by now rewrite length_seq.
    now rewrite seq_nth. }
  rewrite Hidx, Nat2Z.id. now apply map_nth_error.
Qed.

Lemma rate_limit_is_retried_witness :
  exists r w',
    embedBatchWithRetry script_api script_elapse parse_hint
      ["alpha"; "beta"; "gamma"]%string "text-embedding-3-small" 512
      (script_world [Rejected rate_limited; Rejected overloaded;
                     Resolved shuffled])
    = (Returned r, w') /\
    totalTokens r = 42 /\
    sleeps w' = [7000%float; 2000%float] /\
    requests w' = replicate 3 ["alpha"; "beta"; "gamma"]%string /\
    (Forall (fun e => retry_after e = None) [rate_limited; overloaded] ->
     suspensions parse_hint 0 [rate_limited; overloaded]
     = map base (seq 1 2)).
Proof.
  apply (rate_limit_is_retried script_api script_elapse parse_hint
           ["alpha"; "beta"; "gamma"]%string "text-embedding-3-small" 512
           [rate_limited; overloaded] shuffled
           (script_world [Rejected rate_limited; Rejected overloaded;
                          Resolved shuffled])).
  - repeat constructor; simpl; eexists; (split; [reflexivity|lia]).
  - simpl. unfold MAX_RETRIES. lia.
  - simpl. auto.
Defined.

Lemma embeddings_follow_the_index_witness :
  exists r w',
    embedBatchWithRetry script_api script_elapse parse_hint
      ["alpha"; "beta"; "gamma"]%string "text-embedding-3-small" 512
      (script_world [Resolved shuffled])
    = (Returned r, w') /\
    length (embeddings r) = 3%nat /\
    forall item, In item (data shuffled) ->
      nth_error (embeddings r) (Z.to_nat (index item))
      = Some (embedding item).
Proof.
  apply (embeddings_follow_the_index script_api script_elapse parse_hint
           ["alpha"; "beta"; "gamma"]%string "text-embedding-3-small" 512
           shuffled (script_world [Resolved shuffled])).
  - reflexivity.
  - unfold numbered. simpl.
    apply (Permutation_cons_app [0; 1] [] 2), Permutation_refl.
Defined.

End EmbedFacts.

(** ** backend-pinecone.ts and backend-supabase.ts, the write path *)

Module BackendFacts.
Import JS Upsert UpsertSpec UpsertFacts Backends BackendSpec.

Local Open Scope nat_scope.

(** *** Chunks *)

Lemma concat_chunks {A : Type} (d : nat) :
  forall (n : nat) (l : list A),
  length l <= n * d ->
  concat (map (fun j => firstn d (skipn (j * d) l)) (seq 0 n)) = l.
Proof.
  induction n as [|n IH]; intros l Hl.
  - destruct l; [reflexivity|simpl in Hl; lia].
  - change (seq 0 (S n)) with (0 :: seq 1 n).
    rewrite <- seq_shift, map_cons, map_map. simpl concat.
    change (skipn (0 * d) l) with l.
    transitivity (firstn d l ++ skipn d l); [|apply firstn_skipn].
    f_equal. etransitivity; [|apply (IH (skipn d l))].
    + f_equal. apply map_ext. intros j.
      rewrite skipn_skipn. do 2 f_equal. lia.
    + rewrite length_skipn. lia.
Qed.

Lemma chunks_partition {A : Type} (size : nat) (l : list A) :
  0 < size ->
  concat (chunks size l) = l /\
  length (chunks size l) = ceil_div (length l) size /\
  Forall (fun c => 0 < length c <= size) (chunks size l).
Proof.
  intros Hd. unfold chunks. split; [|split].
  - apply concat_chunks, ceil_div_covers, Hd.
  - now rewrite length_map, length_seq.
  - rewrite Forall_forall. intros b Hb.
    apply list_elem_of_In, in_map_iff in Hb as (j & <- & Hj).
    apply in_seq in Hj as [_ Hj]. simpl in Hj.
    apply ceil_div_lt in Hj; [|exact Hd].
    rewrite length_firstn, length_skipn. lia.
Qed.

Lemma chunks_map {A C : Type} (f : A -> C) (size : nat) (l : list A) :
  chunks size (map f l) = map (map f) (chunks size l).
Proof.
  unfold chunks. rewrite length_map, map_map. apply map_ext. intros j.
  now rewrite <- firstn_map, <- skipn_map.
Qed.

Lemma ceil_div_le (n d : nat) : 0 < d -> ceil_div n d <= n.
Proof.
  intros Hd. destruct (Nat.le_gt_cases (ceil_div n d) n) as [H|H];
    [exact H|].
  destruct n as [|n].
  - unfold ceil_div in *. simpl in H.
    rewrite Nat.div_small in H by lia. lia.
  - assert (Hlt : n < ceil_div (S n) d) by lia.
    apply ceil_div_lt in H; [|exact Hd]. nia.
Qed.

(** *** Pinecone *)

Section Pinecone.
Context {P : Type}.
Variable idx_upsert : P -> string -> list PineconeVector -> completion unit * P.

Abbreviation PineconeWorld := (PineconeWorld (P := P)).
Abbreviation pinecone_loop := (pinecone_loop idx_upsert).
Abbreviation pinecone_upsert := (pinecone_upsert idx_upsert).

Lemma call_idx_upsert_eq name chunk (w : PineconeWorld) :
  call_idx_upsert idx_upsert name chunk w
  = ((idx_upsert (p_service w) name chunk).1,
     {| p_service := (idx_upsert (p_service w) name chunk).2;
        p_sent := p_sent w ++ [chunk] |}).
Proof. unfold call_idx_upsert. now destruct (idx_upsert _ _ _). Qed.

Lemma pinecone_loop_prefix name (vectors : list PineconeVector) :
  forall (d j fuel : nat) (w : PineconeWorld),
  j + d = ceil_div (length vectors) PINECONE_BATCH_SIZE ->
  d < fuel ->
  exists res w' m,
    pinecone_loop fuel name vectors (j * PINECONE_BATCH_SIZE) w
      = Some (res, w') /\
    m <= d /\
    p_sent w' = p_sent w ++
      map (fun j => firstn PINECONE_BATCH_SIZE
                      (skipn (j * PINECONE_BATCH_SIZE) vectors)) (seq j m) /\
    match res with
    | Return _ => m = d
    | Throw _ => 0 < m
    end.
Proof.
  assert (Hd : 0 < PINECONE_BATCH_SIZE) by (unfold PINECONE_BATCH_SIZE; lia).
  induction d as [|d IH]; intros j fuel w Hj Hfuel;
    (destruct fuel as [|fuel]; [lia|]); simpl.
  - assert (E : (j * PINECONE_BATCH_SIZE <? length vectors) = false).
    { apply Nat.ltb_ge. apply Nat.nlt_ge. intros H.
      apply ceil_div_lt in H; [lia|exact Hd]. }
    rewrite E. exists (Return tt), w, 0. simpl. rewrite app_nil_r.
    repeat split; lia.
  - assert (E : j * PINECONE_BATCH_SIZE < length vectors).
    { apply ceil_div_lt; [exact Hd|lia]. }
    pose proof E as E'. apply Nat.ltb_lt in E'. rewrite E'.
    assert (E2 : (0 <? length (firstn PINECONE_BATCH_SIZE
                                 (skipn (j * PINECONE_BATCH_SIZE) vectors)))
                 = true).
    { apply Nat.ltb_lt. rewrite length_firstn, length_skipn. lia. }
    rewrite E2, call_idx_upsert_eq.
    destruct (idx_upsert (p_service w) name _).1 as [[]|e] eqn:Eout.
    + match goal with
      | |- context [Backends.pinecone_loop _ _ _ _ _ ?w0] =>
          destruct (IH (S j) fuel w0)
            as (res & w' & m & Hrun & Hm & Hs & Hres); [lia|lia|]
      end.
      replace (j * PINECONE_BATCH_SIZE + PINECONE_BATCH_SIZE)
        with (S j * PINECONE_BATCH_SIZE) by lia.
      rewrite Hrun. exists res, w', (S m). split; [reflexivity|].
      split; [lia|]. split.
      * rewrite Hs. simpl. rewrite <- app_assoc. reflexivity.
      * destruct res; lia.
    + eexists _, _, 1. split; [reflexivity|]. split; [lia|]. simpl.
      split; [reflexivity|lia].
Qed.

(** X21. Whatever the index answers, one [upsert] through Pinecone sends
    the records in calls of at most 100 vectors and never an empty call:
    the calls made are the first [m] chunks of the partition of the
    records, in order, a rejected call being the last; when the [upsert]
    returns, every record has been sent once. *)
Theorem pinecone_sends_chunks name (w : PineconeWorld)
    (records : list WikiRecord) (isFirstBatch : bool) :
  let r := pinecone_upsert name w records isFirstBatch in
  let all := chunks PINECONE_BATCH_SIZE (map to_vector records) in
  exists m,
    p_sent r.2 = p_sent w ++ firstn m all /\
    Forall (fun c => 0 < length c <= 100) (firstn m all) /\
    match r.1 with
    | Return _ => firstn m all = all /\ concat all = map to_vector records
    | Throw _ => 0 < m <= length all
    end.
Proof.
  cbv zeta. unfold Backends.pinecone_upsert.
  assert (Hd : 0 < PINECONE_BATCH_SIZE) by (unfold PINECONE_BATCH_SIZE; lia).
  set (vectors := map to_vector records).
  destruct (chunks_partition PINECONE_BATCH_SIZE vectors Hd)
    as (Hcat & Hlen & Hall).
  destruct (pinecone_loop_prefix name vectors
              (ceil_div (length vectors) PINECONE_BATCH_SIZE) 0
              (S (length vectors)) w)
    as (res & w' & m & Hrun & Hm & Hs & Hres); [lia| |].
  { pose proof (ceil_div_le (length vectors) PINECONE_BATCH_SIZE Hd). lia. }
  change (0 * PINECONE_BATCH_SIZE) with 0 in Hrun.
  rewrite Hrun. cbn [fst snd]. exists m.
  assert (Hpre : map (fun j => firstn PINECONE_BATCH_SIZE
                                 (skipn (j * PINECONE_BATCH_SIZE) vectors))
                   (seq 0 m)
                 = firstn m (chunks PINECONE_BATCH_SIZE vectors)).
  { unfold chunks. rewrite firstn_map, take_seq.
    now rewrite Nat.min_l by exact Hm. }
  rewrite <- Hpre, Hs. split; [reflexivity|]. split.
  - rewrite Hpre. apply Forall_take. exact Hall.
  - destruct res as [[]|e].
    + subst m. split; [|exact Hcat].
      rewrite Hpre, <- Hlen. apply firstn_all.
    + rewrite Hlen. lia.
Qed.


End Pinecone.

(** *** The upsert benchmark through Pinecone *)





Section Through.
Variable random : nat -> nat -> float.
Variable Date_now : nat -> Z.
Context {P : Type}.
Variable idx_upsert : P -> string -> list PineconeVector -> completion unit * P.
Variable ensureNamespace :
  PineconeWorld (P := P) -> string
  -> completion unit * PineconeWorld (P := P).
Variable performance_now : PineconeWorld (P := P) -> Q.

Abbreviation PineconeWorld := (PineconeWorld (P := P)).
Abbreviation upsert_api name := (pinecone_upsert idx_upsert name).



End Through.


(** *** Supabase *)

Lemma tableName_length (namespace : string) :
  String.length (tableName namespace) = String.length namespace.
Proof. induction namespace as [|c s IH]; simpl; congruence. Qed.

Lemma tableName_no_hyphen (namespace : string) :
  ~ RecallSpec.occurs "-" (tableName namespace).
Proof.
  induction namespace as [|c s IH]; simpl; [tauto|].
  intros [H|H]; [|exact (IH H)].
  destruct (Ascii.eqb_spec c "-") as [->|Hne]; [discriminate H|].
  exact (Hne H).
Qed.

Lemma substring_length (n : nat) :
  forall s, String.length (substring 0 n s) <= n.
Proof.
  induction n as [|n IH]; intros [|c s]; simpl; try lia.
  specialize (IH s). lia.
Qed.

Lemma to_row_text (r : WikiRecord) :
  String.length (row_text (to_row r)) <= TEXT_LIMIT /\
  (String.length (text r) <= TEXT_LIMIT -> row_text (to_row r) = text r).
Proof.
  unfold to_row. simpl.
  destruct (Nat.ltb_spec TEXT_LIMIT (String.length (text r))) as [H|H].
  - split; [apply substring_length|lia].
  - split; [exact H|reflexivity].
Qed.

Section Supabase.
Context {S : Type}.
Variable table_upsert :
  S -> string -> list Row -> completion (option string) * S.

Abbreviation SupabaseWorld := (SupabaseWorld (S := S)).
Abbreviation supabase_loop := (supabase_loop table_upsert).
Abbreviation supabase_upsert := (supabase_upsert table_upsert).

Lemma call_table_upsert_eq table rows (w : SupabaseWorld) :
  call_table_upsert table_upsert table rows w
  = ((table_upsert (s_service w) table rows).1,
     {| s_service := (table_upsert (s_service w) table rows).2;
        s_sent := s_sent w ++ [(table, rows)] |}).
Proof. unfold call_table_upsert. now destruct (table_upsert _ _ _). Qed.

Lemma supabase_loop_prefix table (records : list WikiRecord) :
  forall (d j fuel : nat) (w : SupabaseWorld),
  j + d = ceil_div (length records) SUPABASE_BATCH_SIZE ->
  d < fuel ->
  exists res w' m,
    supabase_loop fuel table records (j * SUPABASE_BATCH_SIZE) w
      = Some (res, w') /\
    m <= d /\
    s_sent w' = s_sent w ++
      map (fun j => (table,
                     map to_row
                       (firstn SUPABASE_BATCH_SIZE
                          (skipn (j * SUPABASE_BATCH_SIZE) records))))
        (seq j m) /\
    match res with
    | Return _ => m = d
    | Throw _ => 0 < m
    end.
Proof.
  assert (Hd : 0 < SUPABASE_BATCH_SIZE) by (unfold SUPABASE_BATCH_SIZE; lia).
  induction d as [|d IH]; intros j fuel w Hj Hfuel;
    (destruct fuel as [|fuel]; [lia|]); simpl.
  - assert (E : (j * SUPABASE_BATCH_SIZE <? length records) = false).
    { apply Nat.ltb_ge. apply Nat.nlt_ge. intros H.
      apply ceil_div_lt in H; [lia|exact Hd]. }
    rewrite E. exists (Return tt), w, 0. simpl. rewrite app_nil_r.
    repeat split; lia.
  - assert (E : (j * SUPABASE_BATCH_SIZE <? length records) = true).
    { apply Nat.ltb_lt, ceil_div_lt; [exact Hd|lia]. }
    rewrite E, call_table_upsert_eq.
    destruct (table_upsert (s_service w) table _).1 as [[message|]|e]
      eqn:Eout.
    + eexists _, _, 1. split; [reflexivity|]. split; [lia|]. simpl.
      split; [reflexivity|lia].
    + match goal with
      | |- context [Backends.supabase_loop _ _ _ _ _ ?w0] =>
          destruct (IH (Datatypes.S j) fuel w0)
            as (res & w' & m & Hrun & Hm & Hs & Hres); [lia|lia|]
      end.
      replace (j * SUPABASE_BATCH_SIZE + SUPABASE_BATCH_SIZE)
        with (Datatypes.S j * SUPABASE_BATCH_SIZE) by lia.
      rewrite Hrun. exists res, w', (Datatypes.S m). split; [reflexivity|].
      split; [lia|]. split.
      * rewrite Hs. simpl. rewrite <- app_assoc. reflexivity.
      * destruct res; lia.
    + eexists _, _, 1. split; [reflexivity|]. split; [lia|]. simpl.
      split; [reflexivity|lia].
Qed.

(** X22. Whatever the table answers, one [upsert] through Supabase sends
    the rows of the records, in order, in calls of at most 500 rows to
    the table of the namespace, whose name has no hyphen; a call that is
    rejected or answered with an error is the last, and the [upsert]
    then throws. No text sent is longer than [TEXT_LIMIT] characters,
    and a text within the limit is sent unchanged. *)
Theorem supabase_sends_rows name (w : SupabaseWorld)
    (records : list WikiRecord) (isFirstBatch : bool) :
  let r := supabase_upsert name w records isFirstBatch in
  let all := chunks SUPABASE_BATCH_SIZE (map to_row records) in
  exists m,
    s_sent r.2 = s_sent w ++ map (pair (tableName name)) (firstn m all) /\
    ~ RecallSpec.occurs "-" (tableName name) /\
    Forall (fun c => 0 < length c <= 500 /\
                     Forall (fun row => String.length (row_text row) <= 4000)
                       c) (firstn m all) /\
    match r.1 with
    | Return _ => firstn m all = all /\ concat all = map to_row records
    | Throw _ => 0 < m <= length all
    end.
Proof.
  cbv zeta. unfold Backends.supabase_upsert.
  assert (Hd : 0 < SUPABASE_BATCH_SIZE) by (unfold SUPABASE_BATCH_SIZE; lia).
  destruct (chunks_partition SUPABASE_BATCH_SIZE (map to_row records) Hd)
    as (Hcat & Hlen & Hall).
  rewrite length_map in Hlen.
  destruct (supabase_loop_prefix (tableName name) records
              (ceil_div (length records) SUPABASE_BATCH_SIZE) 0
              (Datatypes.S (length records)) w)
    as (res & w' & m & Hrun & Hm & Hs & Hres); [lia| |].
  { pose proof (ceil_div_le (length records) SUPABASE_BATCH_SIZE Hd). lia. }
  change (0 * SUPABASE_BATCH_SIZE) with 0 in Hrun.
  rewrite Hrun. cbn [fst snd]. exists m.
  assert (Hpre : map (fun j => (tableName name,
                                map to_row
                                  (firstn SUPABASE_BATCH_SIZE
                                     (skipn (j * SUPABASE_BATCH_SIZE)
                                        records)))) (seq 0 m)
                 = map (pair (tableName name))
                     (firstn m (chunks SUPABASE_BATCH_SIZE
                                  (map to_row records)))).
  { rewrite chunks_map. unfold chunks.
    rewrite !firstn_map, take_seq, Nat.min_l by exact Hm.
    rewrite !map_map. reflexivity. }
  rewrite <- Hpre, Hs. split; [reflexivity|].
  split; [apply tableName_no_hyphen|]. split.
  - apply Forall_take. rewrite Forall_forall in Hall.
    apply Forall_forall. intros c Hc. split; [exact (Hall c Hc)|].
    apply Forall_forall. intros row Hrow.
    assert (Hin : row ∈ map to_row records).
    { rewrite <- Hcat. apply list_elem_of_In, in_concat.
      exists c. split; apply list_elem_of_In; assumption. }
    apply list_elem_of_In, in_map_iff in Hin as (r & <- & _).
    apply to_row_text.
  - destruct res as [[]|e].
    + subst m. split; [|exact Hcat].
      rewrite <- Hlen. apply firstn_all.
    + rewrite Hlen. lia.
Qed.

End Supabase.

End BackendFacts.

(** ** parse.ts and seed.ts, the records that are seeded *)

Module SeedFacts.
Import JS Upsert Seed SeedSpec.

Local Open Scope nat_scope.

Lemma parse_loop_limit (l : nat) :
  forall (lines : list (option WikiRecord)) (count : nat),
  count <= S l ->
  parse_loop lines (Some (S l)) count = take (S l - count) (valid lines).
Proof.
  induction lines as [|line rest IH]; intros count Hc.
  - simpl. now rewrite take_nil.
  - cbn [parse_loop]. unfold reached. cbn [Nat.eqb negb andb].
    destruct (Nat.leb_spec (S l) count) as [Hge|Hlt].
    + replace (S l - count) with 0 by lia. reflexivity.
    + destruct line as [record|].
      * rewrite IH by lia. unfold valid. cbn [omap list_omap].
        replace (S l - count) with (S (S l - S count)) by lia.
        reflexivity.
      * rewrite IH by lia. reflexivity.
Qed.

Lemma parse_loop_no_limit (limit : option nat) :
  limit = None \/ limit = Some 0 ->
  forall (lines : list (option WikiRecord)) (count : nat),
  parse_loop lines limit count = valid lines.
Proof.
  intros Hl. induction lines as [|line rest IH]; intros count; simpl;
    [reflexivity|].
  assert (E : reached limit count = false) by (destruct Hl as [-> | ->]; reflexivity).
  rewrite E. destruct line as [record|]; unfold valid; simpl.
  - f_equal. apply IH.
  - apply IH.
Qed.

(** X27. What [parseNdjsonGz] yields: the records among the lines, in
    order, malformed lines skipped; with a limit that is not zero, the
    first [limit] of them, and with the limit 0 all of them, as without
    a limit. *)
Theorem parse_yields_the_first_records (lines : list (option WikiRecord))
    (limit : option nat) :
  parseNdjsonGz lines limit
  = match limit with
    | Some (S l) => take (S l) (valid lines)
    | _ => valid lines
    end.
Proof.
  unfold parseNdjsonGz. destruct limit as [[|l]|].
  - apply parse_loop_no_limit. now right.
  - rewrite parse_loop_limit by lia. now rewrite Nat.sub_0_r.
  - apply parse_loop_no_limit. now left.
Qed.

(** *** The batches *)

(** What holds of the variables of the reading loop once it has read
    [processed]. *)
Definition seed_inv (cursor : option string) (n : nat) (st : seed_state)
    (processed : list WikiRecord) : Prop :=
  concat (map fst (pendingUpserts st)) ++ batch st
    = drop (skipped st) processed /\
  Forall (fun u => length u.1 = n) (pendingUpserts st) /\
  length (batch st) < n /\
  (isFirstBatch st = true <-> pendingUpserts st = []) /\
  first_flagged (pendingUpserts st) /\
  (seenCursor st = false ->
     skipped st = length processed /\
     exists c, cursor = Some c /\ c <> ""%string /\
       Forall (fun r => id r <> c) processed) /\
  (seenCursor st = true ->
     (no_cursor cursor = true /\ skipped st = 0) \/
     exists c i, cursor = Some c /\ c <> ""%string /\ skipped st = S i /\
       first_with_id c processed i).

Lemma no_cursor_false (cursor : option string) :
  no_cursor cursor = false <-> exists c, cursor = Some c /\ c <> ""%string.
Proof.
  unfold no_cursor. destruct cursor as [c|].
  - rewrite String.eqb_neq. split; [eauto|]. now intros (c' & [= <-] & H).
  - split; [discriminate|]. now intros (c' & [=] & _).
Qed.

Lemma seed_start_inv (cursor : option string) (n : nat) :
  0 < n -> seed_inv cursor n (seed_start cursor) [].
Proof.
  intros Hn. unfold seed_inv, seed_start. simpl.
  split; [reflexivity|]. split; [constructor|]. split; [exact Hn|].
  split; [tauto|]. split; [intros i u Hu; inversion Hu|]. split.
  - intros H. split; [reflexivity|].
    apply no_cursor_false in H as (c & -> & Hc). exists c.
    now repeat split.
  - intros H. left. now split.
Qed.

Lemma first_flagged_snoc {A : Type} (us : list (A * bool)) (x : A)
    (flag : bool) :
  first_flagged us -> (flag = true <-> us = []) ->
  first_flagged (us ++ [(x, flag)]).
Proof.
  intros Hus Hflag i u Hu.
  destruct (Nat.lt_ge_cases i (length us)) as [Hlt|Hge].
  - rewrite lookup_app_l in Hu by exact Hlt. now apply Hus.
  - rewrite lookup_app_r in Hu by exact Hge.
    destruct (i - length us) as [|k] eqn:Ek; [|destruct k; discriminate Hu].
    injection Hu as <-. simpl.
    destruct us as [|u0 us].
    + simpl in *. replace i with 0 by lia. now apply Hflag.
    + simpl in Hge. destruct i; [lia|]. simpl.
      destruct flag; [|reflexivity]. destruct Hflag as [H _].
      discriminate (H eq_refl).
Qed.

Lemma seed_step_inv (cursor : option string) (n : nat) (st : seed_state)
    (processed : list WikiRecord) (record : WikiRecord) :
  0 < n ->
  seed_inv cursor n st processed ->
  seed_inv cursor n (seed_step cursor n st record) (processed ++ [record]).
Proof.
  intros Hn (Hcat & Hfull & Hlen & Hfirst & Hflags & Hunseen & Hseen).
  unfold seed_step. destruct (seenCursor st) eqn:Eseen; simpl.
  - clear Hunseen. specialize (Hseen eq_refl).
    assert (Hsk : skipped st <= length processed).
    { destruct Hseen as [[_ ->]|(c & i & _ & _ & -> & (r & Hr & _) & _)];
        [lia|].
      apply lookup_lt_Some in Hr. lia. }
    assert (Hseen' :
      (no_cursor cursor = true /\ skipped st = 0) \/
      exists c i, cursor = Some c /\ c <> ""%string /\ skipped st = S i /\
        first_with_id c (processed ++ [record]) i).
    { destruct Hseen as [H|(c & i & Hc & Hne & Hs & (r & Hr & Hid) & Hbefore)];
        [now left|right].
      exists c, i. split; [exact Hc|]. split; [exact Hne|].
      split; [exact Hs|]. split.
      - exists r. split; [|exact Hid]. apply lookup_app_l_Some. exact Hr.
      - rewrite take_app_le; [exact Hbefore|].
        apply lookup_lt_Some in Hr. lia. }
    assert (Hdrop : drop (skipped st) (processed ++ [record])
                    = drop (skipped st) processed ++ [record]).
    { rewrite drop_app_le by exact Hsk. reflexivity. }
    destruct (Nat.leb_spec n (length (batch st ++ [record]))) as [Hge|Hlt];
      unfold seed_inv; simpl.
    + rewrite length_app in Hge. simpl in Hge.
      split.
      { rewrite map_app, concat_app. simpl.
        rewrite !app_nil_r, Hdrop, <- Hcat, <- app_assoc. reflexivity. }
      split.
      { apply Forall_app. split; [exact Hfull|]. constructor; [|constructor].
        simpl. rewrite length_app. simpl. lia. }
      split; [exact Hn|]. split.
      { split; [discriminate|]. intros H. now apply app_nil in H as [_ H]. }
      split; [now apply first_flagged_snoc|].
      split; [discriminate|]. intros _. exact Hseen'.
    + split; [rewrite Hdrop, <- Hcat, app_assoc; reflexivity|].
      split; [exact Hfull|]. split; [exact Hlt|]. split; [exact Hfirst|].
      split; [exact Hflags|]. split; [congruence|].
      intros _. exact Hseen'.
  - clear Hseen. destruct (Hunseen eq_refl) as (Hsk & c & Hc & Hne & Hall).
    subst cursor. unfold seed_inv. simpl.
    assert (Hnil : concat (map fst (pendingUpserts st)) ++ batch st = []).
    { rewrite Hcat, Hsk. apply drop_all. }
    split.
    { rewrite Hnil. symmetry. apply drop_ge. rewrite length_app. simpl. lia. }
    split; [exact Hfull|]. split; [exact Hlen|]. split; [exact Hfirst|].
    split; [exact Hflags|]. split.
    + intros E. apply String.eqb_neq in E. split.
      * rewrite length_app. simpl. lia.
      * exists c. split; [reflexivity|]. split; [exact Hne|].
        apply Forall_app. split; [exact Hall|]. now repeat constructor.
    + intros E. apply String.eqb_eq in E. right.
      exists c, (length processed). split; [reflexivity|].
      split; [exact Hne|]. split; [now rewrite Hsk|]. split.
      * exists record. split; [|exact E].
        rewrite lookup_app_r by lia. now rewrite Nat.sub_diag.
      * rewrite take_app_le by lia. now rewrite take_ge by lia.
Qed.

Lemma seed_loop_inv (cursor : option string) (n : nat) :
  0 < n ->
  forall (records processed : list WikiRecord) (st : seed_state),
  seed_inv cursor n st processed ->
  seed_inv cursor n (fold_left (seed_step cursor n) records st)
    (processed ++ records).
Proof.
  intros Hn. induction records as [|r records IH]; intros processed st Hinv;
    simpl.
  - now rewrite app_nil_r.
  - replace (processed ++ r :: records) with ((processed ++ [r]) ++ records)
      by now rewrite <- app_assoc.
    apply IH. now apply seed_step_inv.
Qed.

(** X28. The upserts that [seedNamespace] hands to the limiter, for a
    positive batch size. They hold, in order and without a gap, the
    records that follow the skipped ones, in batches of [batchSize] with
    a last one possibly shorter and none empty, and only the first of
    them is flagged as the first batch. Without a cursor nothing is
    skipped; with a cursor, the records up to and including the first
    one with that id are skipped, and when no record has that id every
    record is skipped and nothing is upserted. *)
Theorem seed_resumes_after_the_cursor (cursor : option string)
    (batchSize : nat) (records : list WikiRecord) :
  0 < batchSize ->
  let '(upserts, skipped) := seed_batches cursor batchSize records in
  concat (map fst upserts) = drop skipped records /\
  batched batchSize (map fst upserts) /\
  first_flagged upserts /\
  (no_cursor cursor = true -> skipped = 0) /\
  (forall c, cursor = Some c -> c <> ""%string ->
     (Forall (fun r => id r <> c) records ->
      skipped = length records /\ upserts = []) /\
     (forall i, first_with_id c records i -> skipped = S i)).
Proof.
  intros Hn. unfold seed_batches.
  pose proof (seed_loop_inv cursor batchSize Hn records [] _
                (seed_start_inv cursor batchSize Hn)) as Hinv.
  simpl in Hinv.
  set (st := fold_left (seed_step cursor batchSize) records
               (seed_start cursor)) in *.
  destruct Hinv as (Hcat & Hfull & Hlen & Hfirst & Hflags & Hunseen & Hseen).
  set (upserts := if 0 <? length (batch st)
                  then pendingUpserts st ++ [(batch st, isFirstBatch st)]
                  else pendingUpserts st).
  assert (Hcat' : concat (map fst upserts) = drop (skipped st) records).
  { unfold upserts. destruct (Nat.ltb_spec 0 (length (batch st))) as [H|H].
    - rewrite map_app, concat_app. simpl. now rewrite app_nil_r.
    - destruct (batch st); [|simpl in H; lia].
      now rewrite app_nil_r in Hcat. }
  assert (Hbatched : batched batchSize (map fst upserts)).
  { unfold upserts. intros i b Hb.
    destruct (Nat.ltb_spec 0 (length (batch st))) as [H|H].
    + rewrite map_app, length_app in *. simpl in *.
      destruct (Nat.lt_ge_cases i (length (map fst (pendingUpserts st))))
        as [Hlt|Hge].
      * rewrite lookup_app_l in Hb by exact Hlt.
        apply list_lookup_fmap_Some in Hb as (u & -> & Hu).
        rewrite Forall_forall in Hfull.
        pose proof (Hfull u (list_elem_of_lookup_2 _ _ _ Hu)) as Hu1.
        simpl in Hu1. lia.
      * rewrite lookup_app_r in Hb by exact Hge.
        destruct (i - length (map fst (pendingUpserts st))) as [|k] eqn:Ek;
          [|destruct k; discriminate Hb].
        injection Hb as <-. lia.
    + apply list_lookup_fmap_Some in Hb as (u & -> & Hu).
      rewrite Forall_forall in Hfull.
      pose proof (Hfull u (list_elem_of_lookup_2 _ _ _ Hu)) as Hu1.
      simpl in Hu1. lia. }
  split; [exact Hcat'|]. split; [exact Hbatched|]. split; [|split].
  - unfold upserts. destruct (0 <? length (batch st)); [|exact Hflags].
    now apply first_flagged_snoc.
  - intros Hno. destruct (seenCursor st) eqn:Eseen.
    + destruct (Hseen eq_refl) as [[_ H]|(c & i & -> & Hne & _)];
        [exact H|].
      exfalso. unfold no_cursor in Hno. apply String.eqb_eq in Hno.
      exact (Hne Hno).
    + destruct (Hunseen eq_refl) as (_ & c & -> & Hne & _).
      exfalso. unfold no_cursor in Hno. apply String.eqb_eq in Hno.
      exact (Hne Hno).
  - intros c -> Hne. split.
    + intros Hall. destruct (seenCursor st) eqn:Eseen.
      * destruct (Hseen eq_refl)
          as [[Hno _]|(c' & i & [= <-] & _ & _ & (r & Hr & Hid) & _)].
        { exfalso. unfold no_cursor in Hno. apply String.eqb_eq in Hno.
          exact (Hne Hno). }
        exfalso. rewrite Forall_forall in Hall.
        exact (Hall r (list_elem_of_lookup_2 _ _ _ Hr) Hid).
      * destruct (Hunseen eq_refl) as (Hsk & _). split; [exact Hsk|].
        rewrite Hsk, drop_all in Hcat'. clearbody upserts.
        destruct upserts as [|[b flag] us]; [reflexivity|]. exfalso.
        destruct (Hbatched 0 b eq_refl) as [Hpos _].
        simpl in Hcat'. apply app_eq_nil in Hcat' as [-> _].
        simpl in Hpos. lia.
    + intros i ((r & Hr & Hid) & Hbefore).
      destruct (seenCursor st) eqn:Eseen.
      * destruct (Hseen eq_refl)
          as [[Hno _]|(c' & j & [= <-] & _ & -> & (r' & Hr' & Hid') & Hb')].
        { exfalso. unfold no_cursor in Hno. apply String.eqb_eq in Hno.
          exact (Hne Hno). }
        f_equal. destruct (Nat.lt_trichotomy i j) as [Hlt|[->|Hgt]];
          [|reflexivity|]; exfalso.
        -- rewrite Forall_forall in Hb'. apply (Hb' r); [|exact Hid].
           apply list_elem_of_lookup. exists i.
           rewrite lookup_take_lt by exact Hlt. exact Hr.
        -- rewrite Forall_forall in Hbefore. apply (Hbefore r'); [|exact Hid'].
           apply list_elem_of_lookup. exists j.
           rewrite lookup_take_lt by exact Hgt. exact Hr'.
      * destruct (Hunseen eq_refl) as (_ & c' & [= <-] & _ & Hall).
        exfalso. rewrite Forall_forall in Hall.
        exact (Hall r (list_elem_of_lookup_2 _ _ _ Hr) Hid).
Qed.

Lemma seed_resumes_after_the_cursor_witness :
  let '(upserts, skipped) :=
    seed_batches (Some "doc-2"%string) 3 (map doc (seq 0 10)) in
  concat (map fst upserts) = drop skipped (map doc (seq 0 10)) /\
  batched 3 (map fst upserts) /\
  first_flagged upserts /\
  (no_cursor (Some "doc-2"%string) = true -> skipped = 0) /\
  (forall c, Some "doc-2"%string = Some c -> c <> ""%string ->
     (Forall (fun r => id r <> c) (map doc (seq 0 10)) ->
      skipped = length (map doc (seq 0 10)) /\ upserts = []) /\
     (forall i, first_with_id c (map doc (seq 0 10)) i -> skipped = S i)).
Proof.
  apply (seed_resumes_after_the_cursor (Some "doc-2"%string) 3
           (map doc (seq 0 10))).
  lia.
Defined.

End SeedFacts.

(** ** embed.ts, the records that are embedded *)

Module SourceFacts.
Import JS EmbedSource SourceSpec.

Local Open Scope nat_scope.

Lemma read_loop_skipping (limit : option nat) (skip : nat) :
  forall (lines : list (option SourceRecord)) (lineIndex : nat),
  lineIndex <= skip ->
  read_loop lines limit skip lineIndex 0
  = read_loop (drop (skip - lineIndex) lines) limit skip skip 0.
Proof.
  induction lines as [|line rest IH]; intros lineIndex Hle.
  - now rewrite drop_nil.
  - destruct (Nat.eq_dec lineIndex skip) as [->|Hne].
    + now rewrite Nat.sub_diag.
    + cbn [read_loop].
      assert (E : (lineIndex <? skip) = true) by (apply Nat.ltb_lt; lia).
      rewrite E, IH by lia.
      replace (skip - lineIndex) with (S (skip - S lineIndex)) by lia.
      reflexivity.
Qed.

Lemma read_loop_reading (limit : option nat) (skip : nat) :
  forall (lines : list (option SourceRecord)) (lineIndex yielded : nat),
  skip <= lineIndex ->
  read_loop lines limit skip lineIndex yielded
  = match limit with
    | Some (S l) => take (S l - yielded) (present lines)
    | _ => present lines
    end.
Proof.
  induction lines as [|line rest IH]; intros lineIndex yielded Hle.
  - simpl. destruct limit as [[|l]|]; [reflexivity| |reflexivity].
    now rewrite take_nil.
  - cbn [read_loop].
    assert (E : (lineIndex <? skip) = false) by (apply Nat.ltb_ge; lia).
    rewrite E. destruct limit as [[|l]|]; unfold reached;
      cbn [Nat.eqb negb andb].
    + destruct line; unfold present; cbn [omap list_omap];
        rewrite (IH (S lineIndex)) by lia; reflexivity.
    + destruct (Nat.leb_spec (S l) yielded) as [Hge|Hlt].
      * replace (S l - yielded) with 0 by lia. reflexivity.
      * destruct line as [record|]; unfold present; cbn [omap list_omap];
          rewrite (IH (S lineIndex)) by lia; [|reflexivity].
        replace (S l - yielded) with (S (S l - S yielded)) by lia.
        reflexivity.
    + destruct line; unfold present; cbn [omap list_omap];
        rewrite (IH (S lineIndex)) by lia; reflexivity.
Qed.

Lemma readSourceRecords_eq (lines : list (option SourceRecord))
    (limit : option nat) (skip : nat) :
  readSourceRecords lines limit skip
  = match limit with
    | Some (S l) => take (S l) (present (drop skip lines))
    | _ => present (drop skip lines)
    end.
Proof.
  unfold readSourceRecords.
  rewrite read_loop_skipping, Nat.sub_0_r by lia.
  rewrite read_loop_reading by lia.
  destruct limit as [[|l]|]; reflexivity.
Qed.

Lemma present_app (l1 l2 : list (option SourceRecord)) :
  present (l1 ++ l2) = present l1 ++ present l2.
Proof. unfold present. apply omap_app. Qed.

Lemma present_all (l : list (option SourceRecord)) :
  Forall is_Some l -> length (present l) = length l.
Proof.
  induction 1 as [|line l [r ->] _ IH]; [reflexivity|].
  unfold present in *. cbn [omap list_omap length]. now f_equal.
Qed.

(** X26. What a run of [embedDataset] reads. It skips [cursorCount]
    lines, whatever they hold, and then yields the records among the
    lines that follow, in order: all of them without a limit (or with
    the limit 0), and the first [limit + cursorCount] of them with one.
    The cursor counts records and the skip counts lines: when each of
    the first [cursorCount] lines holds a record, the run without a
    limit continues exactly where [cursorCount] records end. *)
Theorem embed_reads_from_the_cursor (lines : list (option SourceRecord))
    (limit : option nat) (cursorCount : nat) :
  embedDataset_source lines limit cursorCount
  = match limit with
    | Some (S l) => take (S l + cursorCount) (present (drop cursorCount lines))
    | _ => present (drop cursorCount lines)
    end /\
  (Forall is_Some (take cursorCount lines) ->
   take cursorCount (present lines)
     ++ embedDataset_source lines None cursorCount
   = present lines).
Proof.
  unfold embedDataset_source. split.
  - rewrite readSourceRecords_eq.
    destruct limit as [[|l]|]; reflexivity.
  - intros Hall. rewrite readSourceRecords_eq. cbn [effectiveLimit].
    pose proof (present_all _ Hall) as HA. rewrite length_take in HA.
    assert (E : present lines
                = present (take cursorCount lines)
                    ++ present (drop cursorCount lines))
      by now rewrite <- present_app, take_drop.
    rewrite E.
    destruct (Nat.le_gt_cases cursorCount (length lines)) as [H|H].
    + now rewrite take_app_le, take_ge by lia.
    + rewrite (drop_ge lines cursorCount) by lia.
      change (present []) with (@nil SourceRecord).
      rewrite !app_nil_r. apply take_ge. lia.
Qed.

End SourceFacts.
